(** * Instagram DM bot: scoring engine, conversation state machine,
      rate limiter and kill-switch

    A shallow embedding of the core of the repository
    ([config.py], [ai/gemini_client.py], [database/models.py],
    [bot/conversation_manager.py], [bot/scheduler.py]) together with the
    properties stated about it.

    Conventions of the embedding:
    - a Python [str] is a list of Unicode code points ([pystr]);
    - the SQL tables are lists of rows in insertion order, a [SELECT ... ]
      followed by [fetchone()] returns the first matching row and an
      [UPDATE ... WHERE] rewrites every matching row;
    - the columns [created_at], [updated_at] and [last_message_at] are left
      out of the rows: the code reads none of them except to order the
      messages of a conversation for the generator's prompt;
    - wall-clock time is an integer number of seconds of local time, read
      by [datetime.now()]; [CURRENT_DATE] and [date('now')] read the
      database's own calendar, which is a second oracle: SQLite reports
      the UTC date, PostgreSQL the date of the session's time zone;
    - everything the code obtains from outside (clock readings, the text
      generator, the platform client, [str.lower]) is a field of [Env]. *)

From Stdlib Require Import ZArith NArith List Bool Lia String Ascii.
Import ListNotations.
Open Scope Z_scope.

(* ================================================================== *)
(** ** Python strings *)

Module PyStr.

Definition pystr := list N.

(** A string literal of the source (all literals used are ASCII). *)
Definition lit (s : string) : pystr :=
  map N_of_ascii (list_ascii_of_string s).

Definition len (s : pystr) : Z := Z.of_nat (List.length s).

Fixpoint eqb (a b : pystr) : bool :=
  match a, b with
  | [], [] => true
  | x :: a', y :: b' => N.eqb x y && eqb a' b'
  | _, _ => false
  end.

(** [p in s] for a candidate position at the head of [s]. *)
Fixpoint starts_with (p s : pystr) : bool :=
  match p, s with
  | [], _ => true
  | _ :: _, [] => false
  | x :: p', y :: s' => N.eqb x y && starts_with p' s'
  end.

(** Python's [p in s] on strings: substring test. *)
Fixpoint contains (s p : pystr) : bool :=
  starts_with p s ||
  match s with
  | [] => false
  | _ :: s' => contains s' p
  end.

(** Python's [x in xs] for a list of strings. *)
Definition mem (x : pystr) (xs : list pystr) : bool :=
  existsb (eqb x) xs.

(** Code points for which [str.isspace] holds; [str.strip()] removes
    exactly these from both ends. *)
Definition is_space (c : N) : bool :=
  ((9 <=? c) && (c <=? 13) || (28 <=? c) && (c <=? 32) ||
   (c =? 133) || (c =? 160) || (c =? 5760) ||
   (8192 <=? c) && (c <=? 8202) ||
   (c =? 8232) || (c =? 8233) || (c =? 8239) || (c =? 8287) ||
   (c =? 12288))%N.

Fixpoint drop_while (f : N -> bool) (s : pystr) : pystr :=
  match s with
  | [] => []
  | c :: s' => if f c then drop_while f s' else s
  end.

Definition strip_with (f : N -> bool) (s : pystr) : pystr :=
  rev (drop_while f (rev (drop_while f s))).

(** [s.strip()] *)
Definition strip (s : pystr) : pystr := strip_with is_space s.

(** [s.strip(chars)] *)
Definition strip_chars (chars : pystr) (s : pystr) : pystr :=
  strip_with (fun c => existsb (N.eqb c) chars) s.

(** [str.lower] restricted to ASCII letters; used for concrete runs. *)
Definition ascii_lower (s : pystr) : pystr :=
  map (fun c => if ((65 <=? c) && (c <=? 90))%N then (c + 32)%N else c) s.

(** Truthiness of a string: non-empty. *)
Definition truthy (s : pystr) : bool :=
  match s with [] => false | _ :: _ => true end.

End PyStr.
Import PyStr.

(* ================================================================== *)
(** ** config.py *)

Module Config.

(** [DM_LIMITS]: a dict, iterated in insertion order. *)
Definition DM_LIMITS : list ((Z * Z) * Z) :=
  [ ((1, 3), 8); ((4, 7), 15); ((8, 14), 25); ((15, 999), 40) ].

Definition CONSECUTIVE_REJECTIONS_LIMIT : Z := 2.
Definition KILL_SWITCH_DURATION : Z := 24 * 60 * 60.

Definition SCORE_ASKED_QUESTION : Z := 1.
Definition SCORE_MENTIONED_PROBLEM : Z := 2.
Definition SCORE_SHORT_COLD_REPLY : Z := -3.
Definition SCORE_REJECTION : Z := -5.
Definition SCORE_THRESHOLD : Z := 0.

Inductive TimeOfDay := Morning | Afternoon | Evening.

(** The part of [get_time_of_day] after [hour = datetime.now().hour]. *)
Definition time_of_day_of_hour (hour : Z) : TimeOfDay :=
  if (8 <=? hour) && (hour <? 12) then Morning
  else if (12 <=? hour) && (hour <? 18) then Afternoon
  else Evening.

End Config.
Import Config.

(* ================================================================== *)
(** ** ai/gemini_client.py: the scoring engine *)

Module Scoring.

Record Analysis := {
  is_rejection : bool;
  is_question : bool;
  mentions_problem : bool;
  is_cold : bool
}.

Definition rejection_phrases : list pystr :=
  [ lit "kerak emas"; lit "qiziq emas"; lit "yo'q"; lit "rahmat lekin";
    lit "hozir emas"; lit "vaqtim yo'q"; lit "boshqa safar"; lit "spam" ].

Definition problem_phrases : list pystr :=
  [ lit "muammo"; lit "qiyin"; lit "vaqt"; lit "ketadi"; lit "umuman";
    lit "yordam"; lit "kerak"; lit "qanday"; lit "nima qilsam" ].

Definition neutral_engagement : list pystr :=
  [ lit "ok"; lit "ha"; lit "yoq"; lit "hmm"; lit "xop"; lit "bilmadim";
    lit "ko'ramiz" ].

Definition question_mark : pystr := lit "?".

Section Analyze.

(** [str.lower], a builtin. *)
Variable lower : pystr -> pystr.

Definition analyze_user_response (message : pystr) : Analysis :=
  let message_lower := strip (lower message) in
  let is_rejection :=
    existsb (fun phrase => contains message_lower phrase) rejection_phrases in
  let is_question := contains message question_mark in
  let mentions_problem :=
    existsb (fun phrase => contains message_lower phrase) problem_phrases in
  let is_neutral :=
    mem message_lower neutral_engagement || (len message <? 10) in
  {| is_rejection := is_rejection;
     is_question := is_question;
     mentions_problem := mentions_problem;
     is_cold := is_neutral |}.

End Analyze.

Definition calculate_score_delta (analysis : Analysis) : Z :=
  let score := 0 in
  if is_rejection analysis then score + SCORE_REJECTION
  else if is_cold analysis then score + 0
  else
    let score :=
      if is_question analysis then score + SCORE_ASKED_QUESTION else score in
    let score :=
      if mentions_problem analysis then score + SCORE_MENTIONED_PROBLEM
      else score in
    score.

End Scoring.
Import Scoring.

(* ================================================================== *)
(** ** The persistent store, the environment and the effect monad *)

Module Model.

(** [ConversationManager.STATE_*] *)
Inductive ConvState :=
| STATE_NEW | STATE_FIRST_SENT | STATE_QUALIFYING | STATE_SOFT_TRANSITION
| STATE_REJECTED | STATE_CONVERTED | STATE_EXITED.

(** The values written to [leads.status]: 'new' (column default),
    'contacted', 'rejected', 'exited'. *)
Inductive LeadStatus :=
| status_new | status_contacted | status_rejected | status_exited.

(** [messages.role]: 'assistant' or 'user'. *)
Inductive Role := assistant | user.

Record Lead := {
  lead_id : Z;
  username : pystr;
  bio : pystr;
  last_post_topic : pystr;
  niche : pystr;
  status : LeadStatus;
  confidence_score : Z;
  consecutive_rejections : Z
}.

Record Conversation := {
  conv_id : Z;
  conv_lead_id : Z;
  state : ConvState;
  message_count : Z
}.

Record Message := {
  conversation_id : Z;
  role : Role;
  content : pystr
}.

(** The singleton row [bot_state WHERE id = 1]; the three nullable columns
    are options, dates are day numbers, [paused_until] a clock value. *)
Record BotState := {
  paused_until : option Z;
  total_dms_today : Z;
  last_dm_date : option Z;
  account_created_date : option Z
}.

Record Store := {
  leads : list Lead;
  conversations : list Conversation;
  messages : list Message;
  bot_state : option BotState;
  leads_seq : Z;            (* last id handed out for [leads.id] *)
  conversations_seq : Z     (* last id handed out for [conversations.id] *)
}.

(** [get_connection]: PostgreSQL when [DATABASE_URL] is set, else SQLite. *)
Inductive Backend := SQLite | PostgreSQL.

(** What the code obtains from outside the repository.  The n-th reading
    of the local clock by [datetime.now()], the date the database reports
    the n-th time it evaluates [date('now')] or [CURRENT_DATE], the n-th
    call of [model.generate_content] ([None]: the call raised) and the
    n-th [client.direct_send] ([false]: it raised). *)
Record Env := {
  backend : Backend;
  now : nat -> Z;
  db_date : nat -> Z;
  lower : pystr -> pystr;
  generate_content : nat -> option pystr;
  direct_send : nat -> bool
}.

(** The state threaded through the code: the store, how many times each
    oracle was consulted ([ticks] counts the readings of the local clock,
    [db_ticks] those of the database's calendar), and the messages handed
    to the platform. *)
Record World := {
  store : Store;
  ticks : nat;
  db_ticks : nat;
  gen_calls : nat;
  send_calls : nat;
  outbox : list (pystr * pystr)
}.

Inductive exn := TypeError | AttributeError | ProgrammingError.

Inductive result (A : Type) :=
| Ok (a : A)
| Raise (e : exn).
Arguments Ok {A} a.
Arguments Raise {A} e.

(** A computation may change the world and either return or raise; what it
    committed before raising stays committed. *)
Definition M (A : Type) := World -> World * result A.

Definition ret {A} (a : A) : M A := fun w => (w, Ok a).

Definition bind {A B} (m : M A) (k : A -> M B) : M B :=
  fun w =>
    match m w with
    | (w', Ok a) => k a w'
    | (w', Raise e) => (w', Raise e)
    end.

Definition raise {A} (e : exn) : M A := fun w => (w, Raise e).

Notation "x <- m ;; k" := (bind m (fun x => k))
  (at level 61, m at next level, right associativity).
Notation "m ;;; k" := (bind m (fun _ => k))
  (at level 61, right associativity).

Definition gets {A} (f : Store -> A) : M A := fun w => (w, Ok (f (store w))).

Definition with_store (s : Store) (w : World) : World :=
  {| store := s; ticks := ticks w; db_ticks := db_ticks w;
     gen_calls := gen_calls w; send_calls := send_calls w;
     outbox := outbox w |}.

Definition modify (f : Store -> Store) : M unit :=
  fun w => (with_store (f (store w)) w, Ok tt).

(** [datetime.now()] *)
Definition datetime_now (env : Env) : M Z :=
  fun w =>
    ({| store := store w; ticks := S (ticks w); db_ticks := db_ticks w;
        gen_calls := gen_calls w; send_calls := send_calls w;
        outbox := outbox w |},
     Ok (now env (ticks w))).

(** [date('now')] on SQLite, [CURRENT_DATE] on PostgreSQL: the current
    date according to the database. *)
Definition current_date (env : Env) : M Z :=
  fun w =>
    ({| store := store w; ticks := ticks w; db_ticks := S (db_ticks w);
        gen_calls := gen_calls w; send_calls := send_calls w;
        outbox := outbox w |},
     Ok (db_date env (db_ticks w))).

(** The calendar day ([strftime('%Y-%m-%d')]) and the hour of a reading. *)
Definition date_of (t : Z) : Z := t / 86400.
Definition hour_of (t : Z) : Z := (t mod 86400) / 3600.

(** [config.get_time_of_day] *)
Definition get_time_of_day (env : Env) : M TimeOfDay :=
  t <- datetime_now env ;; ret (time_of_day_of_hour (hour_of t)).

(** Field setters. *)
Definition set_leads (ls : list Lead) (s : Store) : Store :=
  {| leads := ls; conversations := conversations s; messages := messages s;
     bot_state := bot_state s; leads_seq := leads_seq s;
     conversations_seq := conversations_seq s |}.

Definition set_conversations (cs : list Conversation) (s : Store) : Store :=
  {| leads := leads s; conversations := cs; messages := messages s;
     bot_state := bot_state s; leads_seq := leads_seq s;
     conversations_seq := conversations_seq s |}.

Definition set_messages (ms : list Message) (s : Store) : Store :=
  {| leads := leads s; conversations := conversations s; messages := ms;
     bot_state := bot_state s; leads_seq := leads_seq s;
     conversations_seq := conversations_seq s |}.

Definition set_bot_state (b : option BotState) (s : Store) : Store :=
  {| leads := leads s; conversations := conversations s;
     messages := messages s; bot_state := b; leads_seq := leads_seq s;
     conversations_seq := conversations_seq s |}.

Definition set_leads_seq (n : Z) (s : Store) : Store :=
  {| leads := leads s; conversations := conversations s;
     messages := messages s; bot_state := bot_state s; leads_seq := n;
     conversations_seq := conversations_seq s |}.

Definition set_conversations_seq (n : Z) (s : Store) : Store :=
  {| leads := leads s; conversations := conversations s;
     messages := messages s; bot_state := bot_state s;
     leads_seq := leads_seq s; conversations_seq := n |}.

(** [UPDATE leads SET ... WHERE username = ?] *)
Definition update_leads_where (u : pystr) (f : Lead -> Lead) (s : Store)
  : Store :=
  set_leads
    (map (fun l => if PyStr.eqb (username l) u then f l else l) (leads s)) s.

(** [UPDATE conversations SET ... WHERE lead_id = ?] *)
Definition update_conversations_where (lid : Z)
  (f : Conversation -> Conversation) (s : Store) : Store :=
  set_conversations
    (map (fun c => if conv_lead_id c =? lid then f c else c)
         (conversations s)) s.

(** [UPDATE bot_state SET ... WHERE id = 1] *)
Definition update_bot_state (f : BotState -> BotState) (s : Store) : Store :=
  set_bot_state (option_map f (bot_state s)) s.

End Model.
Import Model.

(* ================================================================== *)
(** ** database/models.py *)

Module Database.

(** The schema created by [init_database].  [leads.username] is declared
    [TEXT UNIQUE NOT NULL]; [conversations.lead_id] is declared
    [INTEGER NOT NULL] with a foreign key only, so the table has no unique
    index on it. *)
Definition conversations_lead_id_unique : bool := false.

(** The last statement of [init_database]: insert the singleton row unless
    it is there.  The date in the new row is the database's. *)
Definition init_database (env : Env) : M unit :=
  d <- current_date env ;;
  modify (fun s =>
    match bot_state s with
    | Some _ => s
    | None =>
        set_bot_state
          (Some {| paused_until := None; total_dms_today := 0;
                   last_dm_date := Some d;
                   account_created_date := None |}) s
    end).

Definition find_lead (u : pystr) (s : Store) : option Lead :=
  find (fun l => PyStr.eqb (username l) u) (leads s).

Definition find_conversation (lid : Z) (s : Store) : option Conversation :=
  find (fun c => conv_lead_id c =? lid) (conversations s).

Definition new_lead (id : Z) (u b t n : pystr) : Lead :=
  {| lead_id := id; username := u; bio := b; last_post_topic := t;
     niche := n; status := status_new; confidence_score := 0;
     consecutive_rejections := 0 |}.

Definition new_conversation (id lid : Z) : Conversation :=
  {| conv_id := id; conv_lead_id := lid; state := STATE_NEW;
     message_count := 0 |}.

(** [INSERT ... INTO conversations (lead_id, state) VALUES (?, 'new')] once
    the statement goes ahead: a row is skipped only when a unique index
    covers [lead_id] and a row with that [lead_id] exists. *)
Definition insert_conversation_or_ignore (lead_id_unique : bool) (lid : Z)
  (s : Store) : Store :=
  if lead_id_unique &&
     match find_conversation lid s with Some _ => true | None => false end
  then s
  else
    let id := conversations_seq s + 1 in
    set_conversations_seq id
      (set_conversations (conversations s ++ [new_conversation id lid]) s).

(** The SQLite branch of [add_lead], over a schema where
    [conversations.lead_id] is unique or not.  An AUTOINCREMENT table
    draws the id of the row before it checks [username] for uniqueness, so
    the id drawn for an ignored row stays consumed. *)
Definition add_lead_sqlite (lead_id_unique : bool) (u b t n : pystr) : M Z :=
  fun w =>
    let s := store w in
    let '(s1, id) :=
      match find_lead u s with
      | Some l =>                           (* rowcount == 0: SELECT id *)
          (set_leads_seq (leads_seq s + 1) s, lead_id l)
      | None =>
          let id := leads_seq s + 1 in      (* cursor.lastrowid *)
          (set_leads_seq id (set_leads (leads s ++ [new_lead id u b t n]) s),
           id)
      end in
    (with_store (insert_conversation_or_ignore lead_id_unique id s1) w, Ok id).

(** The PostgreSQL branch of [add_lead].  [ON CONFLICT (lead_id)] needs a
    unique index on [lead_id]; without one the server rejects the
    statement, the exception leaves [add_lead] through [finally] before
    [commit], and the transaction is rolled back (the value drawn from the
    id sequence stays consumed). *)
Definition add_lead_postgres (lead_id_unique : bool) (u b t n : pystr)
  : M Z :=
  fun w =>
    let s := store w in
    let seq := leads_seq s + 1 in
    let '(s1, id) :=
      match find_lead u s with
      | Some l => (set_leads_seq seq s, lead_id l)  (* DO UPDATE, RETURNING id *)
      | None =>
          (set_leads_seq seq (set_leads (leads s ++ [new_lead seq u b t n]) s),
           seq)
      end in
    if lead_id_unique
    then (with_store (insert_conversation_or_ignore true id s1) w, Ok id)
    else (with_store (set_leads_seq seq s) w, Raise ProgrammingError).

Definition add_lead (env : Env) (u b t n : pystr) : M Z :=
  match backend env with
  | PostgreSQL => add_lead_postgres conversations_lead_id_unique u b t n
  | SQLite => add_lead_sqlite conversations_lead_id_unique u b t n
  end.

Definition get_lead_by_username (u : pystr) : M (option Lead) :=
  gets (find_lead u).

Definition get_leads_by_status (st : LeadStatus) : M (list Lead) :=
  gets (fun s =>
    filter (fun l => match status l, st with
                     | status_new, status_new
                     | status_contacted, status_contacted
                     | status_rejected, status_rejected
                     | status_exited, status_exited => true
                     | _, _ => false
                     end) (leads s)).

Definition with_status (st : LeadStatus) (l : Lead) : Lead :=
  {| lead_id := lead_id l; username := username l; bio := bio l;
     last_post_topic := last_post_topic l; niche := niche l; status := st;
     confidence_score := confidence_score l;
     consecutive_rejections := consecutive_rejections l |}.

Definition with_score (n : Z) (l : Lead) : Lead :=
  {| lead_id := lead_id l; username := username l; bio := bio l;
     last_post_topic := last_post_topic l; niche := niche l;
     status := status l; confidence_score := n;
     consecutive_rejections := consecutive_rejections l |}.

Definition with_rejections (n : Z) (l : Lead) : Lead :=
  {| lead_id := lead_id l; username := username l; bio := bio l;
     last_post_topic := last_post_topic l; niche := niche l;
     status := status l; confidence_score := confidence_score l;
     consecutive_rejections := n |}.

Definition update_lead_status (u : pystr) (st : LeadStatus) : M unit :=
  modify (update_leads_where u (with_status st)).

(** The sum is taken in [Z]; the column holds it as long as it fits
    (see [fits_column]). *)
Definition update_lead_score (u : pystr) (score_delta : Z) : M unit :=
  modify (update_leads_where u
            (fun l => with_score (confidence_score l + score_delta) l)).

Definition increment_rejections (u : pystr) : M Z :=
  modify (update_leads_where u
            (fun l => with_rejections (consecutive_rejections l + 1) l)) ;;;
  row <- gets (find_lead u) ;;
  ret match row with
      | Some l => consecutive_rejections l
      | None => 0
      end.

Definition reset_rejections (u : pystr) : M unit :=
  modify (update_leads_where u (with_rejections 0)).

Definition get_conversation (lid : Z) : M (option Conversation) :=
  gets (find_conversation lid).

Definition with_state (st : ConvState) (c : Conversation) : Conversation :=
  {| conv_id := conv_id c; conv_lead_id := conv_lead_id c; state := st;
     message_count := message_count c |}.

Definition with_message_count (n : Z) (c : Conversation) : Conversation :=
  {| conv_id := conv_id c; conv_lead_id := conv_lead_id c;
     state := state c; message_count := n |}.

Definition update_conversation_state (lid : Z) (st : ConvState) : M unit :=
  modify (update_conversations_where lid (with_state st)).

Definition increment_message_count (lid : Z) : M unit :=
  modify (update_conversations_where lid
            (fun c => with_message_count (message_count c + 1) c)).

Definition add_message (cid : Z) (r : Role) (text : pystr) : M unit :=
  modify (fun s =>
    set_messages
      (messages s ++
       [{| conversation_id := cid; role := r; content := text |}]) s).

(** The code orders the rows by [created_at], a column with a resolution
    of one second that the rows here do not carry.  The rows are returned
    in insertion order, which is an order by [created_at] whenever the
    database's clock did not go back between two inserts; the result goes
    into the generator's prompt and nowhere else. *)
Definition get_conversation_history (cid : Z) : M (list Message) :=
  gets (fun s => filter (fun m => conversation_id m =? cid) (messages s)).

Definition is_bot_paused (env : Env) : M bool :=
  row <- gets bot_state ;;
  match row with
  | Some b =>
      match paused_until b with
      | Some until => t <- datetime_now env ;; ret (t <? until)
      | None => ret false
      end
  | None => ret false
  end.

Definition with_paused_until (p : option Z) (b : BotState) : BotState :=
  {| paused_until := p; total_dms_today := total_dms_today b;
     last_dm_date := last_dm_date b;
     account_created_date := account_created_date b |}.

Definition pause_bot (env : Env) (duration_seconds : Z) : M unit :=
  t <- datetime_now env ;;
  let paused_until_dt := t + duration_seconds in
  modify (update_bot_state (with_paused_until (Some paused_until_dt))).

Definition get_dm_count_today (env : Env) : M Z :=
  row <- gets bot_state ;;
  match row with
  | Some b =>
      match last_dm_date b with
      | None => raise AttributeError       (* None.strftime *)
      | Some last_date =>
          t <- datetime_now env ;;
          let today := date_of t in
          if last_date =? today then ret (total_dms_today b) else ret 0
      end
  | None => ret 0
  end.

Definition with_count_and_date (n : Z) (d : option Z) (b : BotState)
  : BotState :=
  {| paused_until := paused_until b; total_dms_today := n;
     last_dm_date := d; account_created_date := account_created_date b |}.

(** The stored date is compared with the date of [datetime.now()], read at
    the top of the call; the reset statement writes the database's current
    date in both SQL dialects. *)
Definition increment_dm_count (env : Env) : M unit :=
  t <- datetime_now env ;;
  let today := date_of t in
  row <- gets bot_state ;;
  match row with
  | None => raise TypeError                (* row['last_dm_date'] on None *)
  | Some b =>
      match last_dm_date b with
      | None => raise AttributeError       (* None.strftime *)
      | Some last_date =>
          if negb (last_date =? today)
          then
            d <- current_date env ;;
            modify (update_bot_state (with_count_and_date 1 (Some d)))
          else modify (update_bot_state
                 (fun b => with_count_and_date (total_dms_today b + 1)
                             (last_dm_date b) b))
      end
  end.

Definition get_account_age_days (env : Env) : M Z :=
  row <- gets bot_state ;;
  match row with
  | Some b =>
      match account_created_date b with
      | Some created => t <- datetime_now env ;; ret (date_of t - created)
      | None => ret 1
      end
  | None => ret 1
  end.

Definition set_account_created_date (d : Z) : M unit :=
  modify (update_bot_state (fun b =>
    {| paused_until := paused_until b; total_dms_today := total_dms_today b;
       last_dm_date := last_dm_date b; account_created_date := Some d |})).

End Database.
Import Database.

(* ================================================================== *)
(** ** ai/gemini_client.py: the calls to the text generator *)

Module Gemini.

(** [model.generate_content(prompt)], followed by [response.text]. *)
Definition call_model (env : Env) : M (option pystr) :=
  fun w =>
    ({| store := store w; ticks := ticks w; db_ticks := db_ticks w;
        gen_calls := S (gen_calls w); send_calls := send_calls w;
        outbox := outbox w |},
     Ok (generate_content env (gen_calls w))).

(** [response.text.strip()], then a second [strip] that removes double and
    single quote characters (code points 34 and 39) from both ends. *)
Definition clean (text : pystr) : pystr :=
  strip_chars [34%N; 39%N] (strip text).

Definition templates (t : TimeOfDay) : pystr :=
  match t with
  | Morning => lit "Assalomu alaykum! Ishlaringiz va biznesingiz yaxshimi? Akkauntingizni kuzatib qiziq mavzularni ko'rdim."
  | Afternoon => lit "Assalomu alaykum! Biznesingiz rivoji qanday ketyapti? Profilingizdagi kontentlar juda qiziqarli ekan."
  | Evening => lit "Assalomu alaykum! Xayrli kech. Ishlaringiz yaxshimi? Profilingizni ko'rib juda qiziqib qoldim."
  end.

(** The [try] body reads the time of day, builds the prompt and calls the
    model; the [except] branch reads the time of day again. *)
Definition generate_first_message (env : Env) (bio topic niche : pystr)
  : M pystr :=
  _ <- get_time_of_day env ;;
  response <- call_model env ;;
  match response with
  | Some text => ret (clean text)
  | None => time_of_day <- get_time_of_day env ;; ret (templates time_of_day)
  end.

Definition generate_reply (env : Env) (conversation_history : list Message)
  (lead_info : Lead) : M pystr :=
  _ <- get_time_of_day env ;;
  response <- call_model env ;;
  match response with
  | Some text => ret (clean text)
  | None => ret []
  end.

End Gemini.

(* ================================================================== *)
(** ** bot/conversation_manager.py *)

Module ConversationManager.

(** The object built by [ConversationManager.__init__]: it keeps the rows
    as they were read at construction. *)
Record t := {
  self_username : pystr;
  self_lead : option Lead;
  self_conversation : option Conversation;
  self_history : list Message
}.

Definition init (u : pystr) : M t :=
  lead <- get_lead_by_username u ;;
  match lead with
  | Some l =>
      conversation <- get_conversation (lead_id l) ;;
      match conversation with
      | Some c =>
          history <- get_conversation_history (conv_id c) ;;
          ret {| self_username := u; self_lead := Some l;
                 self_conversation := Some c; self_history := history |}
      | None =>
          ret {| self_username := u; self_lead := Some l;
                 self_conversation := None; self_history := [] |}
      end
  | None =>
      ret {| self_username := u; self_lead := None;
             self_conversation := None; self_history := [] |}
  end.

Definition get_state (self : t) : ConvState :=
  match self_conversation self with
  | None => STATE_NEW
  | Some c => state c
  end.

Definition get_message_count (self : t) : Z :=
  match self_conversation self with
  | None => 0
  | Some c => message_count c
  end.

(** [self.lead['id']] and [self.conversation['id']] raise on [None]. *)
Definition lead_id_of (self : t) : M Z :=
  match self_lead self with
  | Some l => ret (lead_id l)
  | None => raise TypeError
  end.

Definition conversation_id_of (self : t) : M Z :=
  match self_conversation self with
  | Some c => ret (conv_id c)
  | None => raise TypeError
  end.

Definition _exit_politely (self : t) : M unit :=
  lid <- lead_id_of self ;;
  update_conversation_state lid STATE_EXITED ;;;
  update_lead_status (self_username self) status_exited.

Definition is_terminal (s : ConvState) : bool :=
  match s with
  | STATE_REJECTED | STATE_EXITED => true
  | _ => false
  end.

Definition should_respond (self : t) : M bool :=
  let state := get_state self in
  if is_terminal state then ret false
  else
    match self_lead self with
    | Some l =>
        if confidence_score l <? SCORE_THRESHOLD
        then _exit_politely self ;;; ret false
        else ret true
    | None => ret true
    end.

Definition generate_first_message (env : Env) (self : t)
  : M (option pystr) :=
  match self_lead self with
  | None => ret None
  | Some l =>
      message <- Gemini.generate_first_message env
                   (bio l) (last_post_topic l) (niche l) ;;
      (if truthy message then
         cid <- conversation_id_of self ;;
         add_message cid assistant message ;;;
         increment_message_count (lead_id l) ;;;
         update_conversation_state (lead_id l) STATE_FIRST_SENT ;;;
         update_lead_status (self_username self) status_contacted
       else ret tt) ;;;
      ret (Some message)
  end.

Definition exit_message : pystr :=
  lit "Tushundim, vaqt ajratganingiz uchun rahmat.".

Definition _handle_rejection (env : Env) (self : t) : M pystr :=
  rejection_count <- increment_rejections (self_username self) ;;
  lid <- lead_id_of self ;;
  update_conversation_state lid STATE_REJECTED ;;;
  update_lead_status (self_username self) status_rejected ;;;
  (if rejection_count >=? CONSECUTIVE_REJECTIONS_LIMIT
   then pause_bot env KILL_SWITCH_DURATION
   else ret tt) ;;;
  cid <- conversation_id_of self ;;
  add_message cid assistant exit_message ;;;
  ret exit_message.

Definition process_user_reply (env : Env) (self : t) (user_message : pystr)
  : M (option pystr) :=
  match self_lead self, self_conversation self with
  | Some l, Some c =>
      add_message (conv_id c) user user_message ;;;
      let analysis := analyze_user_response (lower env) user_message in
      let score_delta := calculate_score_delta analysis in
      update_lead_score (self_username self) score_delta ;;;
      if is_rejection analysis then
        r <- _handle_rejection env self ;; ret (Some r)
      else
        reset_rejections (self_username self) ;;;
        let msg_count := get_message_count self in
        (if msg_count >=? 3
         then update_conversation_state (lead_id l) STATE_SOFT_TRANSITION
         else update_conversation_state (lead_id l) STATE_QUALIFYING) ;;;
        history <- get_conversation_history (conv_id c) ;;
        response <- Gemini.generate_reply env history l ;;
        (if truthy response then
           add_message (conv_id c) assistant response ;;;
           increment_message_count (lead_id l)
         else ret tt) ;;;
        ret (Some response)
  | _, _ => ret None
  end.

Definition get_conversation_manager (u : pystr) : M t := init u.

End ConversationManager.

(* ================================================================== *)
(** ** bot/scheduler.py *)

Module Scheduler.

Import ConversationManager.

(** The loop of [get_daily_dm_limit] over [DM_LIMITS.items()], with the
    default of 8 after it. *)
Fixpoint lookup_limit (days : Z) (items : list ((Z * Z) * Z)) : Z :=
  match items with
  | [] => 8
  | ((min_day, max_day), limit) :: rest =>
      if (min_day <=? days) && (days <=? max_day) then limit
      else lookup_limit days rest
  end.

Definition get_daily_dm_limit (env : Env) : M Z :=
  days <- get_account_age_days env ;;
  ret (lookup_limit days DM_LIMITS).

Definition can_send_dm (env : Env) : M bool :=
  paused <- is_bot_paused env ;;
  if paused then ret false
  else
    sent_today <- get_dm_count_today env ;;
    limit <- get_daily_dm_limit env ;;
    if sent_today >=? limit then ret false else ret true.

(** [client.send_dm] of a logged-in client: the typing delay, then
    [direct_send]; an exception there is caught and reported as [False]. *)
Definition send_dm (env : Env) (u message : pystr) : M bool :=
  fun w =>
    let ok := direct_send env (send_calls w) in
    ({| store := store w; ticks := ticks w; db_ticks := db_ticks w;
        gen_calls := gen_calls w; send_calls := S (send_calls w);
        outbox := if ok then outbox w ++ [(u, message)] else outbox w |},
     Ok ok).

(** One entry of [client.get_unread_messages()]. *)
Record Unread := { msg_username : pystr; msg_message : pystr }.

(** [if response: success = client.send_dm(...); if success: ...] *)
Definition deliver (env : Env) (u : pystr) (text : option pystr) : M unit :=
  match text with
  | Some r =>
      if truthy r then
        success <- send_dm env u r ;;
        if success then increment_dm_count env else ret tt
      else ret tt
  | None => ret tt
  end.

(** The [for msg in unread] loop of [process_inbox]. *)
Fixpoint inbox_loop (env : Env) (unread : list Unread) : M unit :=
  match unread with
  | [] => ret tt
  | msg :: rest =>
      ok <- can_send_dm env ;;
      if negb ok then ret tt                                   (* break *)
      else
        manager <- get_conversation_manager (msg_username msg) ;;
        respond <- should_respond manager ;;
        if negb respond then inbox_loop env rest               (* continue *)
        else
          response <- process_user_reply env manager (msg_message msg) ;;
          deliver env (msg_username msg) response ;;;
          inbox_loop env rest
  end.

(** [process_inbox]; [logged_in] is the outcome of the login check and
    [unread] what [client.get_unread_messages()] returned. *)
Definition process_inbox (env : Env) (logged_in : bool)
  (unread : list Unread) : M unit :=
  if negb logged_in then ret tt else inbox_loop env unread.

(** The [for lead in new_leads] loop of [process_new_leads]. *)
Fixpoint new_leads_loop (env : Env) (new_leads : list Lead) : M unit :=
  match new_leads with
  | [] => ret tt
  | lead :: rest =>
      ok <- can_send_dm env ;;
      if negb ok then ret tt                                   (* break *)
      else
        manager <- get_conversation_manager (username lead) ;;
        message <- generate_first_message env manager ;;
        deliver env (username lead) message ;;;
        new_leads_loop env rest
  end.

Definition process_new_leads (env : Env) (logged_in : bool) : M unit :=
  ok <- can_send_dm env ;;
  if negb ok then ret tt
  else if negb logged_in then ret tt
  else
    new_leads <- get_leads_by_status status_new ;;
    new_leads_loop env new_leads.

End Scheduler.

(* ================================================================== *)
(** ** ai/gemini_client.py: niche detection; instagram/scraper.py *)

Module Scraper.

Definition valid_niches : list pystr :=
  [ lit "business"; lit "ecommerce"; lit "services"; lit "personal_brand" ].

(** [detect_niche]: the reply is trimmed, then lower-cased, and kept only
    if it is one of the four niches; any exception gives 'business'. *)
Definition detect_niche (env : Env) (bio last_post : pystr) : M pystr :=
  response <- Gemini.call_model env ;;
  match response with
  | Some text =>
      let niche := lower env (strip text) in
      if mem niche valid_niches then ret niche else ret (lit "business")
  | None => ret (lit "business")
  end.

(** The keys of [client.get_user_info]'s dict that [scrape_lead] reads. *)
Record UserInfo := {
  info_bio : pystr;
  info_followers : Z;
  info_is_business : bool
}.

(** The dict [scrape_lead] returns. *)
Record LeadData := {
  data_username : pystr;
  data_bio : pystr;
  data_last_post_topic : pystr;
  data_niche : pystr;
  data_followers : Z;
  data_is_business : bool
}.

(** [scrape_lead]; [user_info] is what [client.get_user_info] returned
    ([None] on any failure) and [captions] the ['caption'] entries of what
    [client.get_user_recent_posts] returned (empty on any failure). *)
Definition scrape_lead (env : Env) (u : pystr)
  (user_info : option UserInfo) (captions : list pystr)
  : M (option LeadData) :=
  match user_info with
  | None => ret None
  | Some info =>
      let last_post_topic :=
        match captions with
        | caption :: _ => if truthy caption then firstn 200 caption else []
        | [] => []
        end in
      niche <- detect_niche env (info_bio info) last_post_topic ;;
      ret (Some {| data_username := u; data_bio := info_bio info;
                   data_last_post_topic := last_post_topic;
                   data_niche := niche;
                   data_followers := info_followers info;
                   data_is_business := info_is_business info |})
  end.

(** The comprehension of [load_usernames_from_csv] over the lines read. *)
Definition usernames_of_lines (lines : list pystr) : list pystr :=
  map strip (filter (fun line => truthy (strip line)) lines).

(** [load_usernames_from_csv]; [None] stands for a failure to read. *)
Definition load_usernames_from_csv (lines : option (list pystr))
  : list pystr :=
  match lines with
  | Some ls => usernames_of_lines ls
  | None => []
  end.

End Scraper.

(* ================================================================== *)
(** ** Notions used in the statements *)

Module Notions.

Import ConversationManager.

(** The first and the last character of [p] are kept by [f]-stripping. *)
Definition firm_edges (f : N -> bool) (p : pystr) : bool :=
  match p, rev p with
  | x :: _, y :: _ => negb (f x) && negb (f y)
  | _, _ => false
  end.

(** The world after one more reading of the local clock. *)
Definition tick (w : World) : World :=
  {| store := store w; ticks := S (ticks w); db_ticks := db_ticks w;
     gen_calls := gen_calls w; send_calls := send_calls w;
     outbox := outbox w |}.

(** The world after one more call of the generator. *)
Definition called (w : World) : World :=
  {| store := store w; ticks := ticks w; db_ticks := db_ticks w;
     gen_calls := S (gen_calls w); send_calls := send_calls w;
     outbox := outbox w |}.

(** The singleton row is absent, or the date it stores is not the date of
    the next clock reading. *)
Definition count_is_stale (env : Env) (w : World) : Prop :=
  bot_state (store w) = None \/
  exists b d, bot_state (store w) = Some b /\ last_dm_date b = Some d /\
              d <> date_of (now env (ticks w)).

(** The manager built for a user whose lead and conversation rows exist. *)
Definition fresh (s : Store) (u : pystr) (l : Lead) (c : Conversation) : t :=
  {| self_username := u; self_lead := Some l; self_conversation := Some c;
     self_history :=
       filter (fun m => conversation_id m =? conv_id c) (messages s) |}.

(** [leads.id] is the primary key: two rows with one id are one row, so
    they carry one user name. *)
Definition lead_ids_unique (s : Store) : Prop :=
  forall l1 l2,
    In l1 (leads s) -> In l2 (leads s) ->
    lead_id l1 = lead_id l2 -> username l1 = username l2.

(** The rows the manager reads for user [u] are [l] and [c]. *)
Definition rows_kept (u : pystr) (l : Lead) (c : Conversation) (s : Store)
  : Prop :=
  lead_ids_unique s /\
  find_lead u s = Some l /\
  find_conversation (lead_id l) s = Some c.

(** [m] keeps those rows whatever it returns or raises, and what it
    returns satisfies [G]. *)
Definition keeps_rows (u : pystr) (l : Lead) (c : Conversation)
  {A} (m : M A) (G : A -> Prop) : Prop :=
  forall w w' r,
    rows_kept u l c (store w) -> m w = (w', r) ->
    rows_kept u l c (store w') /\ (forall a, r = Ok a -> G a).

Definition any {A} : A -> Prop := fun _ => True.

(** What the inbox loop knows of the manager built for the sender [v] of a
    message: for the watched user [u] it sees the state of [c]; for another
    user its lead row, if any, has another id than [l]. *)
Definition sender_ok (u : pystr) (l : Lead) (c : Conversation)
  (v : pystr) (self : t) : Prop :=
  self_username self = v /\
  (v = u -> get_state self = state c) /\
  (v <> u -> forall lv, self_lead self = Some lv -> lead_id lv <> lead_id l).

End Notions.
Import Notions.

(* ================================================================== *)
(** ** Concrete runs *)

Module Fixtures.

Import ConversationManager Scheduler.

Definition alice : pystr := lit "alice".

(** Day 19732 at 14:00; each reading of the clock is a minute later. *)
Definition t_start : Z := 19732 * 86400 + 14 * 3600.

(** An environment whose generator is down and whose sends succeed; the
    database's calendar agrees with the local one. *)
Definition env_sqlite : Env :=
  {| backend := SQLite;
     now := fun n => t_start + 60 * Z.of_nat n;
     db_date := fun _ => date_of t_start;
     lower := ascii_lower;
     generate_content := fun _ => None;
     direct_send := fun _ => true |}.

(** Local time five hours ahead of UTC, starting at 02:00 on day 19732:
    the database's calendar still shows day 19731. *)
Definition env_tashkent : Env :=
  {| backend := SQLite;
     now := fun n => 19732 * 86400 + 2 * 3600 + 60 * Z.of_nat n;
     db_date := fun _ => 19731;
     lower := ascii_lower;
     generate_content := fun _ => None;
     direct_send := fun _ => true |}.

Definition env_postgres : Env :=
  {| backend := PostgreSQL;
     now := now env_sqlite;
     db_date := db_date env_sqlite;
     lower := ascii_lower;
     generate_content := fun _ => None;
     direct_send := fun _ => true |}.

Definition empty_world : World :=
  {| store := {| leads := []; conversations := []; messages := [];
                 bot_state := None; leads_seq := 0; conversations_seq := 0 |};
     ticks := 0; db_ticks := 0; gen_calls := 0; send_calls := 0;
     outbox := [] |}.

Definition after {A} (m : M A) (w : World) : World := fst (m w).

(** The manager [get_conversation_manager] builds in a world. *)
Definition manager_of (w : World) (u : pystr) : t :=
  match get_conversation_manager u w with
  | (_, Ok m) => m
  | (_, Raise _) =>
      {| self_username := u; self_lead := None; self_conversation := None;
         self_history := [] |}
  end.

Definition greet (env : Env) (u : pystr) : M (option pystr) :=
  manager <- get_conversation_manager u ;;
  generate_first_message env manager.

Definition reply (env : Env) (u text : pystr) : M (option pystr) :=
  manager <- get_conversation_manager u ;;
  process_user_reply env manager text.

(** The database initialised, alice added, greeted, and her first reply a
    rejection. *)
Definition w_init : World :=
  Eval vm_compute in after (init_database env_sqlite) empty_world.

Definition w_added : World :=
  Eval vm_compute in
    after (add_lead env_sqlite alice (lit "coffee shop") [] (lit "business"))
      w_init.

Definition w_greeted : World :=
  Eval vm_compute in after (greet env_sqlite alice) w_added.

Definition w_rejected : World :=
  Eval vm_compute in after (reply env_sqlite alice (lit "qiziq emas")) w_greeted.

(** The same day's counter at the cap, read on the following day. *)
Definition w_next_day : World :=
  {| store :=
       set_bot_state
         (Some {| paused_until := None; total_dms_today := 8;
                  last_dm_date := Some 19731;
                  account_created_date := None |}) (store w_added);
     ticks := 0; db_ticks := 0; gen_calls := 0; send_calls := 0;
     outbox := [] |}.

(** Alice greeted, her score then below 0. *)
Definition w_low_score : World :=
  with_store
    (update_leads_where alice (with_score (-1)) (store w_greeted)) w_greeted.

End Fixtures.

(* ================================================================== *)
(** ** Further notions and runs *)

Module MoreNotions.

Import ConversationManager Scheduler Scraper.

(** [leads.confidence_score] is an SQL INTEGER, 64 bits wide on SQLite
    and 32 on PostgreSQL.  Within the narrower range the sums the
    database computes are those of [Z]. *)
Definition fits_column (x : Z) : Prop := - 2 ^ 31 <= x < 2 ^ 31.

(** What the schema's keys and the id sequences guarantee of a store:
    user names are unique, lead ids are unique and were handed out by the
    sequence, and every conversation belongs to a lead. *)
Definition store_wf (s : Store) : Prop :=
  NoDup (map username (leads s)) /\
  NoDup (map lead_id (leads s)) /\
  (forall l, In l (leads s) -> lead_id l <= leads_seq s) /\
  (forall c, In c (conversations s) ->
             exists l, In l (leads s) /\ lead_id l = conv_lead_id c).

(** [m] leaves the view [V] of the world as it is, whether it returns or
    raises. *)
Definition frames {A X} (V : World -> X) (m : M A) : Prop :=
  forall w w' r, m w = (w', r) -> V w' = V w.

(** The daily counter as the limiter sees it: the stored total, the
    stored date and the account creation date. *)
Definition counter_of (w : World) : option (Z * option Z * option Z) :=
  option_map
    (fun b => (total_dms_today b, last_dm_date b, account_created_date b))
    (bot_state (store w)).

(** What the rate limiter and the platform see of a world. *)
Definition budget_view (w : World)
  : list (pystr * pystr) * option (Z * option Z * option Z) :=
  (outbox w, counter_of w).

(** Today's count and the cap on day [today], read off the counter. *)
Definition sent_on (today : Z) (w : World) : Z :=
  match counter_of w with
  | Some (total, Some d, _) => if d =? today then total else 0
  | _ => 0
  end.

Definition cap_on (today : Z) (w : World) : Z :=
  match counter_of w with
  | Some (_, _, Some created) => Scheduler.lookup_limit (today - created) DM_LIMITS
  | _ => Scheduler.lookup_limit 1 DM_LIMITS
  end.

(** The counter has a row with a date in it. *)
Definition counter_ready (w : World) : Prop :=
  exists total d created, counter_of w = Some (total, Some d, created).

(** [xs] is [ys] with some of its elements left out. *)
Inductive subseq {A : Type} : list A -> list A -> Prop :=
| subseq_nil : subseq [] []
| subseq_skip (xs : list A) (y : A) (ys : list A) :
    subseq xs ys -> subseq xs (y :: ys)
| subseq_take (x : A) (xs ys : list A) :
    subseq xs ys -> subseq (x :: xs) (x :: ys).

(** The recipients of [k] are [names] with some left out, in the same
    order, and no message of [k] is empty. *)
Definition sends_ok (names : list pystr) (k : list (pystr * pystr)) : Prop :=
  subseq (map fst k) names /\
  Forall (fun p => truthy (snd p) = true) k.

(** Whatever [m] does, what it hands to the platform is such a list. *)
Definition sends_only (names : list pystr) (m : M unit) : Prop :=
  forall w w' r, m w = (w', r) ->
    exists k, outbox w' = outbox w ++ k /\ sends_ok names k.

(** The rows with status 'new'. *)
Definition new_leads_of (s : Store) : list Lead :=
  filter (fun l => match status l with
                   | status_new => true
                   | _ => false
                   end) (leads s).

(** How many times the user name [u] occurs in [names]. *)
Definition occurrences (u : pystr) (names : list pystr) : nat :=
  count_occ (list_eq_dec N.eq_dec) names u.

(** From [w] to [w'] the messages [k] were handed to the platform, each
    of them was counted for [today], and if any was sent, today's count
    is within the cap and dated today. *)
Definition counts_ok (today : Z) (w w' : World) (k : list (pystr * pystr))
  : Prop :=
  outbox w' = outbox w ++ k /\
  counter_ready w' /\
  option_map snd (counter_of w') = option_map snd (counter_of w) /\
  cap_on today w' = cap_on today w /\
  sent_on today w' = sent_on today w + Z.of_nat (List.length k) /\
  (k = [] -> counter_of w' = counter_of w) /\
  (k <> [] ->
     sent_on today w' <= cap_on today w /\
     exists total created, counter_of w' = Some (total, Some today, created)).

(** [m], started with the counter ready and [P], ends that way. *)
Definition within_cap (today : Z) (P : World -> Prop) (m : M unit) : Prop :=
  forall w w' r,
    counter_ready w -> P w -> m w = (w', r) ->
    exists k, counts_ok today w w' k.

(** Today's count is below the cap. *)
Definition below_cap (today : Z) (w : World) : Prop :=
  sent_on today w < cap_on today w.

(** An environment whose clock stands still at 14:00 of day 19732, whose
    generator answers and whose sends succeed. *)
Definition env_frozen : Env :=
  {| backend := SQLite;
     now := fun _ => 19732 * 86400 + 14 * 3600;
     db_date := fun _ => 19732;
     lower := ascii_lower;
     generate_content := fun _ => Some (lit "  'Salom!' ");
     direct_send := fun _ => true |}.

(** The row functions behind the two keyed updates. *)
Definition on_user (v : pystr) (f : Lead -> Lead) : Lead -> Lead :=
  fun l => if PyStr.eqb (username l) v then f l else l.

Definition on_lead (lid : Z) (f : Conversation -> Conversation)
  : Conversation -> Conversation :=
  fun c => if conv_lead_id c =? lid then f c else c.

(** The manager [get_conversation_manager] builds for [v] over store [s]. *)
Definition built (v : pystr) (s : Store) : ConversationManager.t :=
  match find_lead v s with
  | Some l =>
      match find_conversation (lead_id l) s with
      | Some c => fresh s v l c
      | None =>
          {| self_username := v; self_lead := Some l;
             self_conversation := None; self_history := [] |}
      end
  | None =>
      {| self_username := v; self_lead := None; self_conversation := None;
         self_history := [] |}
  end.

(** The two tables of the state machine and the stored pause. *)
Definition tables_view (w : World)
  : list Lead * list Conversation * option (option Z) :=
  (leads (store w), conversations (store w),
   option_map paused_until (bot_state (store w))).

(** The keys of the leads table: user names and ids are unique. *)
Definition keys_ok (s : Store) : Prop :=
  NoDup (map username (leads s)) /\ NoDup (map lead_id (leads s)).

(** A lead with a conversation that is not in REJECTED or EXITED has no
    rejection counted. *)
Definition counters_settled (s : Store) : Prop :=
  keys_ok s /\
  forall l c,
    In l (leads s) -> In c (conversations s) ->
    conv_lead_id c = lead_id l ->
    is_terminal (state c) = false ->
    consecutive_rejections l = 0.

(** The pause as stored: [None] without the singleton row. *)
Definition pause_of (w : World) : option (option Z) :=
  option_map paused_until (bot_state (store w)).

(** [m] keeps the counters settled and the pause as it is, whether it
    returns or raises. *)
Definition settles (m : M unit) : Prop :=
  forall w w' r,
    counters_settled (store w) -> m w = (w', r) ->
    counters_settled (store w') /\ pause_of w' = pause_of w.

Definition empty_store : Store :=
  {| leads := []; conversations := []; messages := []; bot_state := None;
     leads_seq := 0; conversations_seq := 0 |}.

End MoreNotions.
Import MoreNotions.

(* ================================================================== *)
(** * Properties *)

(** ** Facts about the string operations *)

Module StringFacts.

Lemma eqb_eq (a b : pystr) : PyStr.eqb a b = true <-> a = b.
Proof.
  revert b; induction a as [|x a IH]; intros [|y b]; simpl;
    try (split; congruence).
  rewrite andb_true_iff, N.eqb_eq, IH. split.
  - intros [-> ->]; reflexivity.
  - intros H; injection H; auto.
Qed.

Lemma eqb_refl (a : pystr) : PyStr.eqb a a = true.
Proof. apply eqb_eq; reflexivity. Qed.

Lemma starts_with_app (p b : pystr) : starts_with p (p ++ b) = true.
Proof.
  induction p as [|x p IH]; simpl; [reflexivity|].
  now rewrite N.eqb_refl, IH.
Qed.

Lemma contains_unfold (s p : pystr) :
  contains s p =
  starts_with p s || match s with [] => false | _ :: s' => contains s' p end.
Proof. destruct s; reflexivity. Qed.

Lemma contains_app (a p b : pystr) : contains (a ++ p ++ b) p = true.
Proof.
  induction a as [|x a IH]; simpl.
  - rewrite contains_unfold, starts_with_app; reflexivity.
  - rewrite IH; apply orb_true_r.
Qed.

Lemma starts_with_inv (p s : pystr) :
  starts_with p s = true -> exists b, s = p ++ b.
Proof.
  revert s; induction p as [|x p IH]; intros s H.
  - exists s; reflexivity.
  - destruct s as [|y s]; simpl in H; [discriminate|].
    apply andb_true_iff in H as [Hxy Hp].
    apply N.eqb_eq in Hxy; subst y.
    destruct (IH _ Hp) as [b ->]. exists b; reflexivity.
Qed.

Lemma contains_inv (s p : pystr) :
  contains s p = true -> exists a b, s = a ++ p ++ b.
Proof.
  induction s as [|c s IH]; simpl; intros H.
  - rewrite orb_false_r in H. destruct (starts_with_inv _ _ H) as [b Hb].
    exists [], b; exact Hb.
  - apply orb_true_iff in H as [H|H].
    + destruct (starts_with_inv _ _ H) as [b Hb]. exists [], b; exact Hb.
    + destruct (IH H) as (a & b & ->). exists (c :: a), b; reflexivity.
Qed.

(** Dropping a prefix stops at the latest on a character that is kept. *)
Lemma drop_while_keeps (f : N -> bool) (a : pystr) (x : N) (r : pystr) :
  f x = false -> exists a', drop_while f (a ++ x :: r) = a' ++ x :: r.
Proof.
  intros Hx; induction a as [|c a IH]; simpl.
  - rewrite Hx. exists []; reflexivity.
  - destruct (f c).
    + exact IH.
    + exists (c :: a); reflexivity.
Qed.

Lemma strip_with_keeps (f : N -> bool) (a p b : pystr) :
  firm_edges f p = true ->
  exists a' b', strip_with f (a ++ p ++ b) = a' ++ p ++ b'.
Proof.
  unfold firm_edges, strip_with.
  destruct p as [|x q] eqn:Ep; [discriminate|].
  destruct (rev (x :: q)) as [|y r] eqn:Er; [discriminate|].
  intros H; apply andb_true_iff in H as [Hx Hy].
  apply negb_true_iff in Hx, Hy.
  destruct (drop_while_keeps f a x (q ++ b) Hx) as [a' Ha].
  change ((x :: q) ++ b) with (x :: (q ++ b)). rewrite Ha.
  change (x :: q ++ b) with ((x :: q) ++ b).
  rewrite !rev_app_distr, Er.
  replace ((rev b ++ y :: r) ++ rev a') with (rev b ++ y :: (r ++ rev a'))
    by (rewrite <- app_assoc; reflexivity).
  destruct (drop_while_keeps f (rev b) y (r ++ rev a') Hy) as [b' Hb].
  rewrite Hb.
  assert (Hp : x :: q = rev r ++ [y]).
  { rewrite <- (rev_involutive (x :: q)), Er; reflexivity. }
  exists a', (rev b').
  change (x :: q ++ rev b') with ((x :: q) ++ rev b'). rewrite Hp.
  rewrite rev_app_distr. simpl.
  rewrite rev_app_distr, rev_involutive, <- !app_assoc. reflexivity.
Qed.

Lemma contains_strip (s p : pystr) :
  firm_edges is_space p = true ->
  contains s p = true -> contains (strip s) p = true.
Proof.
  intros Hp Hc. destruct (contains_inv _ _ Hc) as (a & b & ->).
  destruct (strip_with_keeps is_space a p b Hp) as (a' & b' & E).
  unfold strip; rewrite E; apply contains_app.
Qed.

End StringFacts.

(** ** The scoring engine *)

Module ScoringProps.

Import StringFacts.

(** No rejection phrase begins or ends with white space, so trimming the
    utterance cannot cut into an occurrence of one. *)
Lemma rejection_phrases_firm :
  forallb (firm_edges is_space) rejection_phrases = true.
Proof. vm_compute; reflexivity. Qed.

Lemma is_rejection_intro (lower : pystr -> pystr) (message phrase : pystr) :
  In phrase rejection_phrases ->
  contains (lower message) phrase = true ->
  is_rejection (analyze_user_response lower message) = true.
Proof.
  intros Hin Hc. unfold analyze_user_response; cbn [is_rejection].
  apply existsb_exists. exists phrase; split; [exact Hin|].
  apply contains_strip; [|exact Hc].
  exact (proj1 (forallb_forall _ _) rejection_phrases_firm phrase Hin).
Qed.

Lemma delta_of_rejection (a : Analysis) :
  is_rejection a = true -> calculate_score_delta a = SCORE_REJECTION.
Proof. intros H; unfold calculate_score_delta; rewrite H; reflexivity. Qed.

(** C3. An utterance whose lower-cased text contains a rejection phrase is
    classified as a rejection and scores exactly the rejection penalty, -5;
    the question, problem and low-signal flags play no part in the score
    of a rejection. *)
Theorem rejection_short_circuits
  (lower : pystr -> pystr) (message phrase : pystr) :
  In phrase rejection_phrases ->
  contains (lower message) phrase = true ->
  is_rejection (analyze_user_response lower message) = true /\
  calculate_score_delta (analyze_user_response lower message)
    = SCORE_REJECTION /\
  SCORE_REJECTION = -5 /\
  (forall q p c : bool,
     calculate_score_delta
       {| is_rejection := true; is_question := q; mentions_problem := p;
          is_cold := c |} = SCORE_REJECTION).
Proof.
  intros Hin Hc.
  pose proof (is_rejection_intro lower message phrase Hin Hc) as Hr.
  repeat split; auto using delta_of_rejection.
Qed.

(** An utterance with a question mark, a problem word and fewer than ten
    characters that also holds a rejection phrase, in mixed case. *)
Lemma rejection_short_circuits_witness :
  let message := lit "Vaqt?SPAM" in
  is_rejection (analyze_user_response ascii_lower message) = true /\
  calculate_score_delta (analyze_user_response ascii_lower message) = -5.
Proof.
  destruct (rejection_short_circuits ascii_lower (lit "Vaqt?SPAM")
              (lit "spam")) as (H1 & H2 & _).
  - simpl; tauto.
  - vm_compute; reflexivity.
  - split; [exact H1 | exact H2].
Defined.

(** Lower-casing ASCII letters commutes with trimming, and leaves the
    neutral acknowledgments as they are. *)
Lemma ascii_lower_strip (s : pystr) :
  strip (ascii_lower s) = ascii_lower (strip s).
Proof.
  unfold strip, strip_with, ascii_lower.
  set (f := fun c : N => if ((65 <=? c) && (c <=? 90))%N then (c + 32)%N else c).
  assert (Hsp : forall c, is_space (f c) = is_space c).
  { intros c. unfold f.
    destruct ((65 <=? c) && (c <=? 90))%N eqn:E; [|reflexivity].
    apply andb_true_iff in E as [E1 E2].
    apply N.leb_le in E1, E2. unfold is_space.
    repeat match goal with
           | |- context [(?a <=? ?b)%N] =>
               destruct (N.leb_spec a b); try lia
           | |- context [(?a =? ?b)%N] =>
               destruct (N.eqb_spec a b); try lia
           end; reflexivity. }
  assert (Hdrop : forall x, drop_while is_space (map f x)
                            = map f (drop_while is_space x)).
  { induction x as [|c x IH]; simpl; [reflexivity|].
    rewrite Hsp. destruct (is_space c); [exact IH | reflexivity]. }
  rewrite Hdrop, <- map_rev, Hdrop, <- map_rev. reflexivity.
Qed.

Lemma neutral_after_trimming (message : pystr) :
  mem (strip message) neutral_engagement = true ->
  mem (strip (ascii_lower message)) neutral_engagement = true.
Proof.
  intros H. rewrite ascii_lower_strip.
  unfold mem in *. apply existsb_exists in H as (p & Hin & Heq).
  apply eqb_eq in Heq. rewrite Heq.
  apply existsb_exists. exists p. split; [exact Hin|].
  apply eqb_eq. revert Hin. clear.
  unfold neutral_engagement; simpl.
  intros [<-|[<-|[<-|[<-|[<-|[<-|[<-|[]]]]]]]]; reflexivity.
Qed.

(** C7. An utterance that is not a rejection and is low-signal (its
    lower-cased, trimmed text is one of the neutral acknowledgments, or it
    has fewer than ten characters) scores exactly 0; in particular every
    non-rejection utterance shorter than ten characters scores 0. *)
Theorem low_signal_scores_zero (lower : pystr -> pystr) (message : pystr) :
  is_rejection (analyze_user_response lower message) = false ->
  mem (strip (lower message)) neutral_engagement = true \/ len message < 10 ->
  is_cold (analyze_user_response lower message) = true /\
  calculate_score_delta (analyze_user_response lower message) = 0.
Proof.
  intros Hr Hlow.
  assert (Hc : is_cold (analyze_user_response lower message) = true).
  { unfold analyze_user_response; cbn [is_cold].
    destruct Hlow as [Hn | Hl].
    - rewrite Hn; reflexivity.
    - apply orb_true_iff; right; apply Z.ltb_lt; exact Hl. }
  split; [exact Hc|].
  unfold calculate_score_delta. rewrite Hr, Hc. reflexivity.
Qed.

(** A short question with a problem word: it would earn +3 were it longer. *)
Lemma low_signal_scores_zero_witness :
  calculate_score_delta (analyze_user_response ascii_lower (lit "Qanday?")) = 0.
Proof.
  apply (low_signal_scores_zero ascii_lower (lit "Qanday?")).
  - vm_compute; reflexivity.
  - right; vm_compute; reflexivity.
Defined.

End ScoringProps.

(** ** Running the effect monad *)

Module Run.

(** Unfold the monad's plumbing and the store accessors. *)
Ltac step :=
  unfold bind, ret, raise, gets, modify, datetime_now, current_date,
    with_store; simpl.

Lemma bind_ok {A B} (m : M A) (k : A -> M B) (w w1 : World) (a : A) :
  m w = (w1, Ok a) -> bind m k w = k a w1.
Proof. intros H; unfold bind; rewrite H; reflexivity. Qed.

Lemma bind_raise {A B} (m : M A) (k : A -> M B) (w w1 : World) (e : exn) :
  m w = (w1, Raise e) -> bind m k w = (w1, Raise e).
Proof. intros H; unfold bind; rewrite H; reflexivity. Qed.

Lemma datetime_now_eq (env : Env) (w : World) :
  datetime_now env w = (tick w, Ok (now env (ticks w))).
Proof. reflexivity. Qed.

End Run.

(** ** The rate limiter *)

Module RateLimitProps.

Import Run Scheduler.

Lemma lookup_limit_bands (age : Z) :
  (1 <= age <= 3 -> lookup_limit age DM_LIMITS = 8) /\
  (4 <= age <= 7 -> lookup_limit age DM_LIMITS = 15) /\
  (8 <= age <= 14 -> lookup_limit age DM_LIMITS = 25) /\
  (15 <= age <= 999 -> lookup_limit age DM_LIMITS = 40) /\
  (age < 1 \/ 999 < age -> lookup_limit age DM_LIMITS = 8).
Proof.
  unfold DM_LIMITS; cbn [lookup_limit].
  repeat match goal with
         | |- context [?a <=? ?b] => destruct (Z.leb_spec a b)
         end; cbn [andb]; repeat split; intros; lia.
Qed.

Lemma lookup_limit_ge_8 (age : Z) : 8 <= lookup_limit age DM_LIMITS.
Proof.
  unfold DM_LIMITS; cbn [lookup_limit].
  repeat match goal with
         | |- context [?a <=? ?b] => destruct (Z.leb_spec a b)
         end; cbn [andb]; lia.
Qed.

(** The age is always defined: 1 without a row or without a creation date,
    the difference of two day numbers otherwise. *)
Lemma get_account_age_days_total (env : Env) (w : World) :
  exists w' age,
    get_account_age_days env w = (w', Ok age) /\ store w' = store w.
Proof.
  unfold get_account_age_days; step.
  destruct (bot_state (store w)) as [b|]; [|now exists w, 1].
  destruct (account_created_date b) as [created|]; [|now exists w, 1].
  step. eexists _, _; split; reflexivity.
Qed.

(** C5. The daily cap is a total step function of the account age: the
    lookup always returns, giving 8 for ages 1-3, 15 for 4-7, 25 for 8-14,
    40 for 15-999 and the fallback 8 for every age outside the bands, such
    as 0 and 1000; ages 5 and 20 give 15 and 40. *)
Theorem daily_cap_step_function (env : Env) (w : World) :
  exists w' age cap,
    get_account_age_days env w = (w', Ok age) /\
    get_daily_dm_limit env w = (w', Ok cap) /\
    cap = lookup_limit age DM_LIMITS /\
    (1 <= age <= 3 -> cap = 8) /\
    (4 <= age <= 7 -> cap = 15) /\
    (8 <= age <= 14 -> cap = 25) /\
    (15 <= age <= 999 -> cap = 40) /\
    (age < 1 \/ 999 < age -> cap = 8) /\
    lookup_limit 5 DM_LIMITS = 15 /\
    lookup_limit 20 DM_LIMITS = 40 /\
    lookup_limit 0 DM_LIMITS = 8 /\
    lookup_limit 1000 DM_LIMITS = 8.
Proof.
  destruct (get_account_age_days_total env w) as (w' & age & Hage & _).
  exists w', age, (lookup_limit age DM_LIMITS).
  split; [exact Hage|]. split.
  { unfold get_daily_dm_limit. rewrite (bind_ok _ _ _ _ _ Hage). reflexivity. }
  split; [reflexivity|].
  pose proof (lookup_limit_bands age) as (B1 & B2 & B3 & B4 & B5).
  repeat split; auto.
Qed.

(** What one call of the increment writes.  The stored date is compared
    with the date of the local clock; on a difference the row gets count 1
    and the date of the database's calendar, otherwise count + 1. *)
Lemma increment_dm_count_writes
  (env : Env) (w : World) (b : BotState) (last_date : Z) :
  bot_state (store w) = Some b ->
  last_dm_date b = Some last_date ->
  let today := date_of (now env (ticks w)) in
  exists w',
    increment_dm_count env w = (w', Ok tt) /\
    ticks w' = S (ticks w) /\
    outbox w' = outbox w /\
    bot_state (store w') =
      Some (if last_date =? today
            then with_count_and_date (total_dms_today b + 1)
                   (Some last_date) b
            else with_count_and_date 1
                   (Some (db_date env (db_ticks w))) b).
Proof.
  intros Hb Hd today.
  unfold increment_dm_count; step. rewrite Hb, Hd.
  fold today. destruct (Z.eqb_spec last_date today) as [E|E]; step;
    unfold update_bot_state; rewrite Hb; simpl; rewrite ?Hd;
    eexists; repeat split; reflexivity.
Qed.

(** C4.  With the singleton row present and a last-send date stored, one
    call of the increment returns normally.  If the stored date is today,
    the counter grows by exactly 1 and the date stays.  If it is not, the
    counter becomes exactly 1, but the date written is the one of the
    database's calendar, not the local date the stored date was compared
    with.  Where the two calendars agree this is today.  Where they
    differ, the date written is not today: the send just counted is not
    in today's count, which reads 0, and the next increment of the same
    day resets the counter to 1 again instead of making it 2. *)
Theorem increment_dm_count_rollover
  (env : Env) (w : World) (b : BotState) (last_date : Z) :
  bot_state (store w) = Some b ->
  last_dm_date b = Some last_date ->
  let today := date_of (now env (ticks w)) in
  let db_today := db_date env (db_ticks w) in
  exists w' b',
    increment_dm_count env w = (w', Ok tt) /\
    bot_state (store w') = Some b' /\
    (last_date = today ->
       total_dms_today b' = total_dms_today b + 1 /\
       last_dm_date b' = Some today) /\
    (last_date <> today ->
       total_dms_today b' = 1 /\ last_dm_date b' = Some db_today) /\
    (last_date < today -> db_today = today ->
       total_dms_today b' = 1 /\ last_dm_date b' = Some today) /\
    (last_date < today -> db_today <> today ->
       last_dm_date b' <> Some today /\
       (date_of (now env (ticks w')) = today ->
        get_dm_count_today env w' = (tick w', Ok 0) /\
        exists w'' b'',
          increment_dm_count env w' = (w'', Ok tt) /\
          bot_state (store w'') = Some b'' /\
          total_dms_today b'' = 1)).
Proof.
  intros Hb Hd today db_today.
  destruct (increment_dm_count_writes env w b last_date Hb Hd)
    as (w' & Hrun & Ht & _ & Hb').
  fold today in Hb'. fold db_today in Hb'.
  eexists w', _. split; [exact Hrun|]. split; [exact Hb'|].
  destruct (Z.eqb_spec last_date today) as [E|E]; simpl.
  - split; [intros _; split; [reflexivity | congruence]|].
    split; [intros; contradiction|]. split; intros; lia.
  - split; [intros; contradiction|].
    split; [intros _; split; reflexivity|].
    split; [intros _ ->; split; reflexivity|].
    intros _ Hne. split; [congruence|]. intros Hsame.
    split.
    + unfold get_dm_count_today; step. rewrite Hb'. simpl. step.
      rewrite Hsame.
      destruct (Z.eqb_spec db_today today); [contradiction | reflexivity].
    + destruct (increment_dm_count_writes env w'
                  (with_count_and_date 1 (Some db_today) b) db_today Hb'
                  eq_refl) as (w'' & Hrun' & _ & _ & Hb'').
      rewrite Hsame in Hb''.
      destruct (Z.eqb_spec db_today today); [contradiction|].
      eexists w'', _. split; [exact Hrun'|]. split; [exact Hb''|].
      reflexivity.
Qed.

Lemma is_bot_paused_total (env : Env) (w : World) :
  exists w1 p, is_bot_paused env w = (w1, Ok p) /\ store w1 = store w.
Proof.
  unfold is_bot_paused; step.
  destruct (bot_state (store w)) as [b|]; [|now exists w, false].
  destruct (paused_until b) as [u|]; [|now exists w, false].
  step. eexists _, _; split; reflexivity.
Qed.

Lemma get_daily_dm_limit_total (env : Env) (w : World) :
  exists w' cap,
    get_daily_dm_limit env w = (w', Ok cap) /\ store w' = store w /\ 8 <= cap.
Proof.
  destruct (get_account_age_days_total env w) as (w' & age & Hage & Hs).
  exists w', (lookup_limit age DM_LIMITS). split; [|split].
  - unfold get_daily_dm_limit. rewrite (bind_ok _ _ _ _ _ Hage). reflexivity.
  - exact Hs.
  - apply lookup_limit_ge_8.
Qed.

Lemma get_dm_count_today_stale (env : Env) (w : World) (b : BotState) (d : Z) :
  bot_state (store w) = Some b ->
  last_dm_date b = Some d ->
  d <> date_of (now env (ticks w)) ->
  get_dm_count_today env w = (tick w, Ok 0).
Proof.
  intros Hb Hd Hne. unfold get_dm_count_today; step. rewrite Hb, Hd. step.
  destruct (Z.eqb_spec d (date_of (now env (ticks w)))); [contradiction|].
  reflexivity.
Qed.

Lemma get_dm_count_today_no_row (env : Env) (w : World) :
  bot_state (store w) = None -> get_dm_count_today env w = (w, Ok 0).
Proof.
  intros Hb. unfold get_dm_count_today; step. rewrite Hb. reflexivity.
Qed.

Lemma can_send_dm_when_stale (env : Env) (w w1 : World) :
  is_bot_paused env w = (w1, Ok false) ->
  count_is_stale env w1 ->
  exists w2, can_send_dm env w = (w2, Ok true) /\ store w2 = store w.
Proof.
  intros Hp Hstale.
  destruct (is_bot_paused_total env w) as (w1' & p & Hp' & Hs1).
  rewrite Hp in Hp'; injection Hp' as <- <-.
  assert (Hcount : exists w1', get_dm_count_today env w1 = (w1', Ok 0) /\
                               store w1' = store w1).
  { destruct Hstale as [Hn | (b & d & Hb & Hd & Hne)].
    - exists w1; split; [now apply get_dm_count_today_no_row | reflexivity].
    - exists (tick w1); split;
        [now apply (get_dm_count_today_stale env w1 b d) | reflexivity]. }
  destruct Hcount as (w1' & Hc & Hs1').
  destruct (get_daily_dm_limit_total env w1') as (w2 & cap & Hl & Hs2 & Hcap).
  exists w2. split; [|congruence].
  unfold can_send_dm.
  rewrite (bind_ok _ _ _ _ _ Hp). cbn iota.
  rewrite (bind_ok _ _ _ _ _ Hc), (bind_ok _ _ _ _ _ Hl).
  destruct (Z.geb_spec 0 cap); [lia | reflexivity].
Qed.

(** C10. When the stored last-send date is not the date of the clock
    reading, the read of today's count returns 0 whatever total is stored,
    and it returns 0 as well when the singleton row is absent; so a
    rate-limit check that passes the pause test compares the cap with 0
    and allows the send, with nothing written to the store. *)
Theorem stale_count_reads_zero (env : Env) (w : World) :
  (forall b d,
     bot_state (store w) = Some b ->
     last_dm_date b = Some d ->
     d <> date_of (now env (ticks w)) ->
     get_dm_count_today env w = (tick w, Ok 0)) /\
  (bot_state (store w) = None -> get_dm_count_today env w = (w, Ok 0)) /\
  (forall w1,
     is_bot_paused env w = (w1, Ok false) ->
     count_is_stale env w1 ->
     exists w2, can_send_dm env w = (w2, Ok true) /\ store w2 = store w).
Proof.
  split; [|split].
  - intros b d; apply get_dm_count_today_stale.
  - apply get_dm_count_today_no_row.
  - intros w1; apply can_send_dm_when_stale.
Qed.

(** Tashkent, 02:00 on day 19732; the database's calendar is UTC and still
    shows day 19731, the date stored with a count of 8.  The increment
    writes count 1 with date 19731, and a second increment writes count 1
    again. *)
Lemma increment_dm_count_rollover_witness :
  exists w' b',
    increment_dm_count Fixtures.env_tashkent Fixtures.w_next_day
      = (w', Ok tt) /\
    bot_state (store w') = Some b' /\
    total_dms_today b' = 1 /\
    last_dm_date b' = Some 19731 /\
    last_dm_date b' <> Some 19732 /\
    get_dm_count_today Fixtures.env_tashkent w' = (tick w', Ok 0) /\
    exists w'' b'',
      increment_dm_count Fixtures.env_tashkent w' = (w'', Ok tt) /\
      bot_state (store w'') = Some b'' /\
      total_dms_today b'' = 1.
Proof.
  edestruct (increment_dm_count_rollover Fixtures.env_tashkent
               Fixtures.w_next_day)
    as (w' & b' & Hrun & Hb & _ & Hne & _ & Hlag).
  - reflexivity.
  - reflexivity.
  - assert (Ht : ticks w' = 1%nat).
    { unfold increment_dm_count in Hrun. vm_compute in Hrun.
      injection Hrun as <-. reflexivity. }
    destruct Hne as [H1 Hd]; [vm_compute; discriminate|].
    destruct Hlag as [Hnot Hnext];
      [vm_compute; reflexivity | vm_compute; discriminate|].
    destruct Hnext as [Hread Htwice]; [rewrite Ht; reflexivity|].
    exists w', b'. split; [exact Hrun|]. split; [exact Hb|].
    split; [exact H1|]. split; [exact Hd|]. split; [exact Hnot|].
    split; [exact Hread | exact Htwice].
Defined.

(** The cap is 8 and 8 are stored, yet the check allows a send. *)
Lemma stale_count_reads_zero_witness :
  get_dm_count_today Fixtures.env_sqlite Fixtures.w_next_day
    = (tick Fixtures.w_next_day, Ok 0) /\
  exists w2,
    can_send_dm Fixtures.env_sqlite Fixtures.w_next_day = (w2, Ok true).
Proof.
  destruct (stale_count_reads_zero Fixtures.env_sqlite Fixtures.w_next_day)
    as (Hread & _ & Hsend).
  split.
  - eapply Hread; [reflexivity | reflexivity | vm_compute; discriminate].
  - destruct (Hsend Fixtures.w_next_day) as (w2 & Hw2 & _).
    + reflexivity.
    + right. eexists _, _. split; [reflexivity|]. split; [reflexivity|].
      vm_compute; discriminate.
    + exists w2; exact Hw2.
Defined.

End RateLimitProps.

(** ** Facts about the store operations *)

Module StoreFacts.

Import StringFacts.

Lemma find_map_same {A} (p : A -> bool) (g : A -> A) (xs : list A) :
  (forall x, p (g x) = p x) ->
  find p (map g xs) = option_map g (find p xs).
Proof.
  intros Hp; induction xs as [|x xs IH]; simpl; [reflexivity|].
  rewrite Hp. destruct (p x); [reflexivity | exact IH].
Qed.

Lemma find_some_holds {A} (p : A -> bool) (xs : list A) (x : A) :
  find p xs = Some x -> p x = true /\ In x xs.
Proof. intros H; apply find_some in H; tauto. Qed.

Lemma find_lead_username (u : pystr) (s : Store) (l : Lead) :
  find_lead u s = Some l -> username l = u /\ In l (leads s).
Proof.
  intros H; apply find_some_holds in H as [H1 H2].
  apply eqb_eq in H1; auto.
Qed.

Lemma find_conversation_lead_id (lid : Z) (s : Store) (c : Conversation) :
  find_conversation lid s = Some c -> conv_lead_id c = lid.
Proof.
  intros H; apply find_some_holds in H as [H1 _]. now apply Z.eqb_eq.
Qed.

(** An update keyed on the same user name rewrites the row that the lookup
    returns. *)
Lemma find_lead_update_same (u : pystr) (f : Lead -> Lead) (s : Store) :
  (forall l, username (f l) = username l) ->
  find_lead u (update_leads_where u f s) = option_map f (find_lead u s).
Proof.
  intros Hf. unfold find_lead, update_leads_where; simpl.
  rewrite find_map_same.
  - destruct (find _ (leads s)) as [l|] eqn:E; simpl; [|reflexivity].
    apply find_some_holds in E as [E _]. rewrite E; reflexivity.
  - intros l. destruct (PyStr.eqb (username l) u) eqn:E; [|exact E].
    rewrite Hf; exact E.
Qed.

(** An update keyed on another user name leaves the lookup as it was. *)
Lemma find_lead_update_other (u v : pystr) (f : Lead -> Lead) (s : Store) :
  (forall l, username (f l) = username l) ->
  u <> v ->
  find_lead u (update_leads_where v f s) = find_lead u s.
Proof.
  intros Hf Huv. unfold find_lead, update_leads_where; simpl.
  rewrite find_map_same.
  - destruct (find _ (leads s)) as [l|] eqn:E; simpl; [|reflexivity].
    apply find_some_holds in E as [E _]. apply eqb_eq in E.
    destruct (PyStr.eqb (username l) v) eqn:E'; [|reflexivity].
    apply eqb_eq in E'. congruence.
  - intros l. destruct (PyStr.eqb (username l) v) eqn:E; [|reflexivity].
    rewrite Hf; reflexivity.
Qed.

Lemma find_conversation_update_same
  (lid : Z) (f : Conversation -> Conversation) (s : Store) :
  (forall c, conv_lead_id (f c) = conv_lead_id c) ->
  find_conversation lid (update_conversations_where lid f s)
  = option_map f (find_conversation lid s).
Proof.
  intros Hf. unfold find_conversation, update_conversations_where; simpl.
  rewrite find_map_same.
  - destruct (find _ (conversations s)) as [c|] eqn:E; simpl; [|reflexivity].
    apply find_some_holds in E as [E _]. rewrite E; reflexivity.
  - intros c. destruct (conv_lead_id c =? lid) eqn:E; [|exact E].
    rewrite Hf; exact E.
Qed.

Lemma find_conversation_update_other
  (lid lid' : Z) (f : Conversation -> Conversation) (s : Store) :
  (forall c, conv_lead_id (f c) = conv_lead_id c) ->
  lid <> lid' ->
  find_conversation lid (update_conversations_where lid' f s)
  = find_conversation lid s.
Proof.
  intros Hf Hne. unfold find_conversation, update_conversations_where; simpl.
  rewrite find_map_same.
  - destruct (find _ (conversations s)) as [c|] eqn:E; simpl; [|reflexivity].
    apply find_some_holds in E as [E _]. apply Z.eqb_eq in E.
    destruct (Z.eqb_spec (conv_lead_id c) lid'); [lia | reflexivity].
  - intros c. destruct (conv_lead_id c =? lid') eqn:E; [|reflexivity].
    rewrite Hf; reflexivity.
Qed.

(** Lookups see only their own table. *)
Lemma find_lead_conversations lid f u s :
  find_lead u (update_conversations_where lid f s) = find_lead u s.
Proof. reflexivity. Qed.

Lemma find_lead_bot_state f u s :
  find_lead u (update_bot_state f s) = find_lead u s.
Proof. reflexivity. Qed.

Lemma find_lead_messages ms u s :
  find_lead u (set_messages ms s) = find_lead u s.
Proof. reflexivity. Qed.

Lemma find_conversation_leads v f lid s :
  find_conversation lid (update_leads_where v f s) = find_conversation lid s.
Proof. reflexivity. Qed.

Lemma find_conversation_bot_state f lid s :
  find_conversation lid (update_bot_state f s) = find_conversation lid s.
Proof. reflexivity. Qed.

Lemma find_conversation_messages ms lid s :
  find_conversation lid (set_messages ms s) = find_conversation lid s.
Proof. reflexivity. Qed.

Lemma bot_state_leads v f s :
  bot_state (update_leads_where v f s) = bot_state s.
Proof. reflexivity. Qed.

Lemma bot_state_conversations lid f s :
  bot_state (update_conversations_where lid f s) = bot_state s.
Proof. reflexivity. Qed.

Lemma bot_state_messages ms s :
  bot_state (set_messages ms s) = bot_state s.
Proof. reflexivity. Qed.

Lemma bot_state_update f s :
  bot_state (update_bot_state f s) = option_map f (bot_state s).
Proof. reflexivity. Qed.

Lemma messages_leads v f s :
  messages (update_leads_where v f s) = messages s.
Proof. reflexivity. Qed.

Lemma messages_conversations lid f s :
  messages (update_conversations_where lid f s) = messages s.
Proof. reflexivity. Qed.

Lemma messages_bot_state f s :
  messages (update_bot_state f s) = messages s.
Proof. reflexivity. Qed.

Lemma messages_set ms s : messages (set_messages ms s) = ms.
Proof. reflexivity. Qed.

Create Rewrite HintDb store.

#[export] Hint Rewrite
  find_lead_conversations find_lead_bot_state find_lead_messages
  find_conversation_leads find_conversation_bot_state
  find_conversation_messages
  bot_state_leads bot_state_conversations bot_state_messages bot_state_update
  messages_leads messages_conversations messages_bot_state messages_set
  : store.

End StoreFacts.

(** ** The kill-switch *)

Module KillSwitchProps.

Import Run StoreFacts ConversationManager Scheduler.

Lemma can_send_dm_paused (env : Env) (w : World) (b : BotState) (until : Z) :
  bot_state (store w) = Some b ->
  paused_until b = Some until ->
  now env (ticks w) < until ->
  can_send_dm env w = (tick w, Ok false).
Proof.
  intros Hb Hp Hlt. unfold can_send_dm, is_bot_paused; step.
  rewrite Hb, Hp. step.
  destruct (Z.ltb_spec (now env (ticks w)) until); [reflexivity | lia].
Qed.

Lemma is_bot_paused_elapsed (env : Env) (w : World) (b : BotState) (until : Z) :
  bot_state (store w) = Some b ->
  paused_until b = Some until ->
  until <= now env (ticks w) ->
  is_bot_paused env w = (tick w, Ok false).
Proof.
  intros Hb Hp Hle. unfold is_bot_paused; step.
  rewrite Hb, Hp. step.
  destruct (Z.ltb_spec (now env (ticks w)) until); [lia | reflexivity].
Qed.

(** The rejection handler once the incremented counter is at or over the
    limit: the pause is written with the clock reading taken by
    [pause_bot]. *)
Lemma handle_rejection_at_limit
  (env : Env) (w : World) (self : t) (l0 l : Lead) (c : Conversation)
  (b : BotState) :
  self_lead self = Some l ->
  self_conversation self = Some c ->
  find_lead (self_username self) (store w) = Some l0 ->
  bot_state (store w) = Some b ->
  consecutive_rejections l0 + 1 >= CONSECUTIVE_REJECTIONS_LIMIT ->
  exists w',
    _handle_rejection env self w = (w', Ok exit_message) /\
    bot_state (store w') =
      Some (with_paused_until
              (Some (now env (ticks w) + KILL_SWITCH_DURATION)) b) /\
    find_lead (self_username self) (store w') =
      Some (with_status status_rejected
              (with_rejections (consecutive_rejections l0 + 1) l0)).
Proof.
  intros Hl Hc Hl0 Hb Hlim.
  unfold _handle_rejection, increment_rejections, lead_id_of,
    conversation_id_of, update_conversation_state, update_lead_status,
    pause_bot, add_message.
  rewrite Hl, Hc. step.
  rewrite find_lead_update_same by reflexivity. rewrite Hl0. simpl.
  destruct (Z.geb_spec (consecutive_rejections l0 + 1)
              CONSECUTIVE_REJECTIONS_LIMIT) as [_|F]; [|lia].
  simpl. eexists; split; [reflexivity|]. simpl.
  autorewrite with store. rewrite Hb. split; [reflexivity|].
  rewrite find_lead_update_same by reflexivity. autorewrite with store.
  rewrite find_lead_update_same by reflexivity. rewrite Hl0. reflexivity.
Qed.

(** Below the limit the handler leaves the singleton row alone. *)
Lemma handle_rejection_below_limit
  (env : Env) (w : World) (self : t) (l0 l : Lead) (c : Conversation) :
  self_lead self = Some l ->
  self_conversation self = Some c ->
  find_lead (self_username self) (store w) = Some l0 ->
  consecutive_rejections l0 + 1 < CONSECUTIVE_REJECTIONS_LIMIT ->
  exists w',
    _handle_rejection env self w = (w', Ok exit_message) /\
    bot_state (store w') = bot_state (store w) /\
    ticks w' = ticks w.
Proof.
  intros Hl Hc Hl0 Hlim.
  unfold _handle_rejection, increment_rejections, lead_id_of,
    conversation_id_of, update_conversation_state, update_lead_status,
    pause_bot, add_message.
  rewrite Hl, Hc. step.
  rewrite find_lead_update_same by reflexivity. rewrite Hl0. simpl.
  destruct (Z.geb_spec (consecutive_rejections l0 + 1)
              CONSECUTIVE_REJECTIONS_LIMIT) as [F|_]; [lia|].
  simpl. eexists; split; [reflexivity|]. simpl. split; reflexivity.
Qed.

Lemma process_user_reply_rejection
  (env : Env) (w : World) (self : t) (l : Lead) (c : Conversation)
  (message : pystr) :
  self_lead self = Some l ->
  self_conversation self = Some c ->
  is_rejection (analyze_user_response (lower env) message) = true ->
  process_user_reply env self message w =
  bind (_handle_rejection env self) (fun r => ret (Some r))
    (with_store
       (update_leads_where (self_username self)
          (fun l1 => with_score (confidence_score l1 + SCORE_REJECTION) l1)
          (set_messages
             (messages (store w) ++
              [{| conversation_id := conv_id c; role := user;
                  content := message |}]) (store w))) w).
Proof.
  intros Hl Hc Hr. unfold process_user_reply. rewrite Hl, Hc.
  rewrite (ScoringProps.delta_of_rejection _ Hr), Hr.
  reflexivity.
Qed.

(** While the pause is on, an inbox pass stops at its first send check:
    nothing is written and nothing is sent. *)
Lemma process_inbox_paused
  (env : Env) (w : World) (b : BotState) (until : Z)
  (logged_in : bool) (unread : list Unread) :
  bot_state (store w) = Some b ->
  paused_until b = Some until ->
  now env (ticks w) < until ->
  exists w',
    process_inbox env logged_in unread w = (w', Ok tt) /\
    store w' = store w /\ outbox w' = outbox w /\
    send_calls w' = send_calls w /\ gen_calls w' = gen_calls w.
Proof.
  intros Hb Hp Hlt. unfold process_inbox.
  destruct logged_in; simpl; [|exists w; auto].
  destruct unread as [|msg rest]; cbn [inbox_loop]; [exists w; auto|].
  rewrite (bind_ok _ _ _ _ _ (can_send_dm_paused env w b until Hb Hp Hlt)).
  exists (tick w). repeat split.
Qed.

(** The same for the pass over new leads. *)
Lemma process_new_leads_paused
  (env : Env) (w : World) (b : BotState) (until : Z) (logged_in : bool) :
  bot_state (store w) = Some b ->
  paused_until b = Some until ->
  now env (ticks w) < until ->
  process_new_leads env logged_in w = (tick w, Ok tt).
Proof.
  intros Hb Hp Hlt. unfold process_new_leads.
  rewrite (bind_ok _ _ _ _ _ (can_send_dm_paused env w b until Hb Hp Hlt)).
  reflexivity.
Qed.

(** C1. When a rejection reply processed by the state machine brings a
    lead's consecutive-rejection counter to exactly the limit (2), the
    reply is answered with the exit message and the singleton row gets
    [paused_until = now + KILL_SWITCH_DURATION] (24 hours), where [now] is
    the clock reading taken by the pause; from then on the send check,
    which takes no lead and so speaks for all of them, returns false at
    every clock reading before that instant, both scheduler passes stop at
    that check without sending, and the pause test is false again at every
    reading from that instant on.  The singleton row is taken to exist. *)
Theorem kill_switch_pauses_all_sends
  (env : Env) (w : World) (self : t) (l0 l : Lead) (c : Conversation)
  (b : BotState) (message : pystr) :
  self_lead self = Some l ->
  self_conversation self = Some c ->
  find_lead (self_username self) (store w) = Some l0 ->
  bot_state (store w) = Some b ->
  is_rejection (analyze_user_response (lower env) message) = true ->
  consecutive_rejections l0 + 1 = CONSECUTIVE_REJECTIONS_LIMIT ->
  let until := now env (ticks w) + KILL_SWITCH_DURATION in
  exists w' l' b',
    process_user_reply env self message w = (w', Ok (Some exit_message)) /\
    find_lead (self_username self) (store w') = Some l' /\
    consecutive_rejections l' = CONSECUTIVE_REJECTIONS_LIMIT /\
    CONSECUTIVE_REJECTIONS_LIMIT = 2 /\
    bot_state (store w') = Some b' /\
    paused_until b' = Some until /\
    KILL_SWITCH_DURATION = 86400 /\
    (forall w2,
       bot_state (store w2) = bot_state (store w') ->
       now env (ticks w2) < until ->
       can_send_dm env w2 = (tick w2, Ok false)) /\
    (forall w2 logged_in unread,
       bot_state (store w2) = bot_state (store w') ->
       now env (ticks w2) < until ->
       process_new_leads env logged_in w2 = (tick w2, Ok tt) /\
       exists w3,
         process_inbox env logged_in unread w2 = (w3, Ok tt) /\
         store w3 = store w2 /\ outbox w3 = outbox w2) /\
    (forall w2,
       bot_state (store w2) = bot_state (store w') ->
       until <= now env (ticks w2) ->
       is_bot_paused env w2 = (tick w2, Ok false)).
Proof.
  intros Hl Hc Hl0 Hb Hr Hlim until.
  rewrite (process_user_reply_rejection env w self l c message Hl Hc Hr).
  set (w1 := with_store _ w).
  destruct (handle_rejection_at_limit env w1 self
              (with_score (confidence_score l0 + SCORE_REJECTION) l0) l c b)
    as (w' & Hrun & Hbs & Hfind); auto.
  - subst w1; simpl. rewrite find_lead_update_same by reflexivity.
    autorewrite with store. rewrite Hl0; reflexivity.
  - simpl; lia.
  - exists w'. eexists. eexists.
    rewrite (bind_ok _ _ _ _ _ Hrun).
    split; [reflexivity|]. split; [exact Hfind|].
    split; [simpl; lia|]. split; [reflexivity|].
    split; [exact Hbs|]. split; [reflexivity|]. split; [reflexivity|].
    split; [|split].
    + intros w2 Hw2 Ht.
      eapply can_send_dm_paused;
        [rewrite Hw2; exact Hbs | reflexivity | exact Ht].
    + intros w2 logged_in unread Hw2 Ht. rewrite Hbs in Hw2. split.
      * eapply process_new_leads_paused; [exact Hw2 | reflexivity | exact Ht].
      * destruct (process_inbox_paused env w2 _ _ logged_in unread
                    Hw2 eq_refl Ht) as (w3 & H1 & H2 & H3 & _).
        exists w3; auto.
    + intros w2 Hw2 Ht.
      eapply is_bot_paused_elapsed;
        [rewrite Hw2; exact Hbs | reflexivity | exact Ht].
Qed.

(** Alice has rejected once; her second rejection in a row trips the
    switch and the send check is false a minute later. *)
Lemma kill_switch_pauses_all_sends_witness :
  exists w' b',
    process_user_reply Fixtures.env_sqlite
      (Fixtures.manager_of Fixtures.w_rejected Fixtures.alice)
      (lit "kerak emas") Fixtures.w_rejected
    = (w', Ok (Some exit_message)) /\
    bot_state (store w') = Some b' /\
    paused_until b' =
      Some (now Fixtures.env_sqlite (ticks Fixtures.w_rejected) + 86400) /\
    can_send_dm Fixtures.env_sqlite w' = (tick w', Ok false).
Proof.
  edestruct (fun l0 l c b =>
               kill_switch_pauses_all_sends Fixtures.env_sqlite
                 Fixtures.w_rejected
                 (Fixtures.manager_of Fixtures.w_rejected Fixtures.alice)
                 l0 l c b (lit "kerak emas"))
    as (w' & l' & b' & Hrun & _ & _ & _ & Hb & Hp & _ & Hsend & _);
    try reflexivity.
  exists w', b'. split; [exact Hrun|]. split; [exact Hb|].
  split; [exact Hp|]. apply Hsend; [reflexivity|].
  assert (Ht : ticks w' = S (ticks Fixtures.w_rejected)).
  { revert Hrun. vm_compute. intros H; injection H as <-. reflexivity. }
  rewrite Ht. vm_compute. reflexivity.
Defined.

End KillSwitchProps.

(** ** The check before a reply *)

Module ShouldRespondProps.

Import Run StoreFacts ConversationManager Scheduler.

Lemma init_found (w : World) (u : pystr) (l : Lead) (c : Conversation) :
  find_lead u (store w) = Some l ->
  find_conversation (lead_id l) (store w) = Some c ->
  get_conversation_manager u w = (w, Ok (fresh (store w) u l c)).
Proof.
  intros Hl Hc.
  unfold get_conversation_manager, init, get_lead_by_username,
    get_conversation, get_conversation_history; step.
  rewrite Hl. step. rewrite Hc. reflexivity.
Qed.

Lemma should_respond_terminal (self : t) (w : World) :
  is_terminal (get_state self) = true ->
  should_respond self w = (w, Ok false).
Proof. intros H; unfold should_respond; rewrite H; reflexivity. Qed.

Lemma should_respond_low_score
  (w : World) (u : pystr) (l : Lead) (c : Conversation) :
  find_lead u (store w) = Some l ->
  find_conversation (lead_id l) (store w) = Some c ->
  is_terminal (state c) = false ->
  confidence_score l < SCORE_THRESHOLD ->
  exists w',
    should_respond (fresh (store w) u l c) w = (w', Ok false) /\
    find_lead u (store w') = Some (with_status status_exited l) /\
    find_conversation (lead_id l) (store w')
      = Some (with_state STATE_EXITED c) /\
    ticks w' = ticks w /\ gen_calls w' = gen_calls w /\
    send_calls w' = send_calls w /\ outbox w' = outbox w.
Proof.
  intros Hl Hc Hterm Hlow.
  unfold should_respond, get_state, _exit_politely, lead_id_of,
    update_conversation_state, update_lead_status; simpl.
  rewrite Hterm.
  destruct (Z.ltb_spec (confidence_score l) SCORE_THRESHOLD); [|lia].
  step. eexists; split; [reflexivity|]. simpl.
  rewrite find_lead_update_same by reflexivity. autorewrite with store.
  rewrite find_conversation_update_same by reflexivity.
  rewrite Hl, Hc. repeat split; reflexivity.
Qed.

(** When [should_respond] says no, the inbox loop goes on to the next message
    without building a reply. *)
Lemma inbox_loop_skips
  (env : Env) (w0 w w' : World) (msg : Unread) (rest : list Unread)
  (self : t) :
  can_send_dm env w0 = (w, Ok true) ->
  get_conversation_manager (msg_username msg) w = (w, Ok self) ->
  should_respond self w = (w', Ok false) ->
  inbox_loop env (msg :: rest) w0 = inbox_loop env rest w'.
Proof.
  intros Hsend Hinit Hresp. cbn [inbox_loop].
  rewrite (bind_ok _ _ _ _ _ Hsend). cbn [negb].
  rewrite (bind_ok _ _ _ _ _ Hinit), (bind_ok _ _ _ _ _ Hresp).
  reflexivity.
Qed.

(** C2, as amended.  For a lead with a conversation, [should_respond]
    returns false (a) when the conversation is in REJECTED or EXITED, and
    then changes nothing: state and lead status stay as they are; (b) when
    the conversation is in another state and the score is below the
    threshold (0), and then the conversation is put in EXITED and the
    lead's status set to 'exited'.  In both cases the check itself makes
    no generator call, and the inbox loop passes to the next message
    without running the reply path. *)
Theorem should_respond_refuses
  (env : Env) (w : World) (u : pystr) (l : Lead) (c : Conversation) :
  find_lead u (store w) = Some l ->
  find_conversation (lead_id l) (store w) = Some c ->
  is_terminal (state c) = true \/ confidence_score l < SCORE_THRESHOLD ->
  exists self w',
    get_conversation_manager u w = (w, Ok self) /\
    should_respond self w = (w', Ok false) /\
    gen_calls w' = gen_calls w /\
    (is_terminal (state c) = true -> w' = w) /\
    (is_terminal (state c) = false ->
       (exists c', find_conversation (lead_id l) (store w') = Some c' /\
                   state c' = STATE_EXITED) /\
       (exists l', find_lead u (store w') = Some l' /\
                   status l' = status_exited)) /\
    SCORE_THRESHOLD = 0 /\
    (forall w0 text rest,
       can_send_dm env w0 = (w, Ok true) ->
       inbox_loop env ({| msg_username := u; msg_message := text |} :: rest) w0
       = inbox_loop env rest w').
Proof.
  intros Hl Hc Hcase.
  pose proof (init_found w u l c Hl Hc) as Hinit.
  exists (fresh (store w) u l c).
  destruct (is_terminal (state c)) eqn:Hterm.
  - exists w.
    assert (Hresp : should_respond (fresh (store w) u l c) w = (w, Ok false))
      by (apply should_respond_terminal; exact Hterm).
    repeat split; auto; try discriminate.
    intros w0 text rest Hsend.
    apply (inbox_loop_skips env w0 w w _ rest (fresh (store w) u l c));
      assumption.
  - destruct Hcase as [F | Hlow]; [discriminate|].
    destruct (should_respond_low_score w u l c Hl Hc Hterm Hlow)
      as (w' & Hresp & Hl' & Hc' & _ & Hg & _).
    exists w'. repeat split; auto; try discriminate.
    + eexists; split; [exact Hc' | reflexivity].
    + eexists; split; [exact Hl' | reflexivity].
    + intros w0 text rest Hsend.
      apply (inbox_loop_skips env w0 w w' _ rest (fresh (store w) u l c));
        assumption.
Qed.

Lemma should_respond_refuses_witness :
  exists self w',
    get_conversation_manager Fixtures.alice Fixtures.w_low_score
      = (Fixtures.w_low_score, Ok self) /\
    should_respond self Fixtures.w_low_score = (w', Ok false) /\
    gen_calls w' = gen_calls Fixtures.w_low_score.
Proof.
  edestruct (should_respond_refuses Fixtures.env_sqlite Fixtures.w_low_score
               Fixtures.alice) as (self & w' & H1 & H2 & H3 & _).
  - reflexivity.
  - reflexivity.
  - right. vm_compute; reflexivity.
  - exists self, w'. auto.
Defined.

(** C2 as stated fails: alice's conversation is in REJECTED after her
    rejection; [should_respond] returns false and leaves the world as it
    is, with the conversation in REJECTED, not EXITED, and the lead's
    status 'rejected', not 'exited'. *)
Lemma should_respond_rejected_not_exited :
  let w := Fixtures.w_rejected in
  let self := Fixtures.manager_of w Fixtures.alice in
  get_state self = STATE_REJECTED /\
  should_respond self w = (w, Ok false) /\
  option_map state (find_conversation 1 (store w)) = Some STATE_REJECTED /\
  option_map status (find_lead Fixtures.alice (store w))
    = Some status_rejected /\
  STATE_REJECTED <> STATE_EXITED /\
  status_rejected <> status_exited.
Proof.
  repeat split; try reflexivity; discriminate.
Qed.

End ShouldRespondProps.

(** ** Failures of the text generator *)

Module GenerationProps.

Import Run StoreFacts ConversationManager Scheduler.









End GenerationProps.

(** ** Terminal states under the inbox pass *)

Module AbsorbingProps.

Import Run StringFacts StoreFacts ConversationManager Scheduler.

Section OneLead.

(** The user whose conversation is watched, with the rows the manager
    reads for them. *)
Variables (u : pystr) (l : Lead) (c : Conversation).

Local Abbreviation kept := (rows_kept u l c).
Local Abbreviation keeps := (keeps_rows u l c).
Local Abbreviation manager_ok := (sender_ok u l c).

Lemma keeps_ret {A} (a : A) (G : A -> Prop) : G a -> keeps (ret a) G.
Proof.
  intros Ha w w' r Hinv Hrun. injection Hrun as <- <-.
  split; [exact Hinv|]. intros a' E; injection E as <-; exact Ha.
Qed.

Lemma keeps_raise {A} (e : exn) (G : A -> Prop) : keeps (raise e) G.
Proof.
  intros w w' r Hinv Hrun. injection Hrun as <- <-.
  split; [exact Hinv | discriminate].
Qed.

Lemma keeps_bind {A B} (m : M A) (k : A -> M B)
  (G : A -> Prop) (H : B -> Prop) :
  keeps m G -> (forall a, G a -> keeps (k a) H) -> keeps (bind m k) H.
Proof.
  intros Hm Hk w w' r Hinv Hrun. unfold bind in Hrun.
  destruct (m w) as [w1 [a|e]] eqn:E.
  - destruct (Hm w w1 (Ok a) Hinv E) as [Hinv1 Ha].
    exact (Hk a (Ha a eq_refl) w1 w' r Hinv1 Hrun).
  - destruct (Hm w w1 (Raise e) Hinv E) as [Hinv1 _].
    injection Hrun as <- <-. split; [exact Hinv1 | discriminate].
Qed.

Lemma keeps_bind_ret {A B} (a : A) (k : A -> M B) (H : B -> Prop) :
  keeps (k a) H -> keeps (bind (ret a) k) H.
Proof. intros Hk w w' r Hinv Hrun. exact (Hk w w' r Hinv Hrun). Qed.

Lemma keeps_weaken {A} (m : M A) (G G' : A -> Prop) :
  keeps m G -> (forall a, G a -> G' a) -> keeps m G'.
Proof.
  intros Hm HG w w' r Hinv Hrun.
  destruct (Hm w w' r Hinv Hrun) as [H1 H2]. split; auto.
Qed.

Lemma keeps_gets {A} (f : Store -> A) (G : A -> Prop) :
  (forall s, kept s -> G (f s)) -> keeps (gets f) G.
Proof.
  intros Hf w w' r Hinv Hrun. injection Hrun as <- <-.
  split; [exact Hinv|]. intros a E; injection E as <-. auto.
Qed.

Lemma keeps_modify (f : Store -> Store) :
  (forall s, kept s -> kept (f s)) -> keeps (modify f) any.
Proof.
  intros Hf w w' r Hinv Hrun. injection Hrun as <- <-.
  split; [simpl; auto | intros; exact I].
Qed.

(** A computation that never touches the store. *)
Lemma keeps_store_untouched {A} (m : M A) :
  (forall w, store (fst (m w)) = store w) -> keeps m any.
Proof.
  intros Hm w w' r Hinv Hrun. specialize (Hm w). rewrite Hrun in Hm.
  simpl in Hm. rewrite Hm. split; [exact Hinv | intros; exact I].
Qed.

(** *** Writes that leave the watched rows alone *)

Lemma unique_map_leads (g : Lead -> Lead) (s : Store) :
  (forall x, lead_id (g x) = lead_id x /\ username (g x) = username x) ->
  lead_ids_unique s -> lead_ids_unique (set_leads (map g (leads s)) s).
Proof.
  intros Hg Hu l1 l2 H1 H2 Hid. simpl in H1, H2.
  apply in_map_iff in H1 as (x1 & <- & Hx1).
  apply in_map_iff in H2 as (x2 & <- & Hx2).
  destruct (Hg x1) as [I1 U1], (Hg x2) as [I2 U2].
  rewrite U1, U2. apply Hu; congruence.
Qed.

Lemma rows_kept_update_leads (v : pystr) (f : Lead -> Lead) (s : Store) :
  (forall x, lead_id (f x) = lead_id x /\ username (f x) = username x) ->
  v <> u ->
  kept s -> kept (update_leads_where v f s).
Proof.
  intros Hf Hv (Hu & Hl & Hc). split; [|split].
  - apply (unique_map_leads
             (fun x => if PyStr.eqb (username x) v then f x else x)); auto.
    intros x. destruct (PyStr.eqb (username x) v); auto.
  - rewrite find_lead_update_other; auto. intros x; apply Hf.
  - exact Hc.
Qed.

Lemma rows_kept_update_conversations
  (lid : Z) (f : Conversation -> Conversation) (s : Store) :
  (forall x, conv_lead_id (f x) = conv_lead_id x) ->
  lid <> lead_id l ->
  kept s -> kept (update_conversations_where lid f s).
Proof.
  intros Hf Hne (Hu & Hl & Hc). split; [|split].
  - exact Hu.
  - exact Hl.
  - rewrite find_conversation_update_other; auto.
Qed.

Lemma rows_kept_set_messages (ms : list Message) (s : Store) :
  kept s -> kept (set_messages ms s).
Proof. intros H; exact H. Qed.

Lemma rows_kept_update_bot_state (f : BotState -> BotState) (s : Store) :
  kept s -> kept (update_bot_state f s).
Proof. intros H; exact H. Qed.

(** A lead row found under another user name has another id. *)
Lemma other_lead_other_id (v : pystr) (lv : Lead) (s : Store) :
  kept s -> find_lead v s = Some lv -> v <> u ->
  lead_id lv <> lead_id l.
Proof.
  intros (Hu & Hl & _) Hv Hne Hid.
  apply find_lead_username in Hv as [Uv Iv].
  apply find_lead_username in Hl as [Ul Il].
  apply Hne. rewrite <- Uv, <- Ul. apply Hu; assumption.
Qed.

(** *** The operations of the inbox pass *)

Ltac chain lemma :=
  eapply keeps_bind with (G := any); [apply lemma | intros ? _].

Lemma keeps_datetime_now (env : Env) : keeps (datetime_now env) any.
Proof. apply keeps_store_untouched; reflexivity. Qed.

Lemma keeps_current_date (env : Env) : keeps (current_date env) any.
Proof. apply keeps_store_untouched; reflexivity. Qed.

Lemma keeps_add_message (cid : Z) (r : Role) (text : pystr) :
  keeps (add_message cid r text) any.
Proof. apply keeps_modify; intros s; apply rows_kept_set_messages. Qed.

Lemma keeps_update_lead_status (v : pystr) (st : LeadStatus) :
  v <> u -> keeps (update_lead_status v st) any.
Proof.
  intros Hv; apply keeps_modify; intros s.
  apply rows_kept_update_leads; auto.
Qed.

Lemma keeps_update_lead_score (v : pystr) (d : Z) :
  v <> u -> keeps (update_lead_score v d) any.
Proof.
  intros Hv; apply keeps_modify; intros s.
  apply rows_kept_update_leads; auto.
Qed.

Lemma keeps_reset_rejections (v : pystr) :
  v <> u -> keeps (reset_rejections v) any.
Proof.
  intros Hv; apply keeps_modify; intros s.
  apply rows_kept_update_leads; auto.
Qed.

Lemma keeps_increment_rejections (v : pystr) :
  v <> u -> keeps (increment_rejections v) any.
Proof.
  intros Hv. unfold increment_rejections.
  eapply keeps_bind with (G := any); [|intros ? _].
  - apply keeps_modify; intros s. apply rows_kept_update_leads; auto.
  - eapply keeps_bind with (G := any);
    [apply keeps_gets; intros; exact I | intros ? _].
    apply keeps_ret; exact I.
Qed.

Lemma keeps_update_conversation_state (lid : Z) (st : ConvState) :
  lid <> lead_id l -> keeps (update_conversation_state lid st) any.
Proof.
  intros Hne; apply keeps_modify; intros s.
  apply rows_kept_update_conversations; auto.
Qed.

Lemma keeps_increment_message_count (lid : Z) :
  lid <> lead_id l -> keeps (increment_message_count lid) any.
Proof.
  intros Hne; apply keeps_modify; intros s.
  apply rows_kept_update_conversations; auto.
Qed.

Lemma keeps_get_conversation_history (cid : Z) :
  keeps (get_conversation_history cid) any.
Proof. apply keeps_gets; intros; exact I. Qed.

Lemma keeps_pause_bot (env : Env) (d : Z) : keeps (pause_bot env d) any.
Proof.
  unfold pause_bot. chain keeps_datetime_now.
  apply keeps_modify; intros s; apply rows_kept_update_bot_state.
Qed.

Lemma keeps_increment_dm_count (env : Env) : keeps (increment_dm_count env) any.
Proof.
  unfold increment_dm_count. chain keeps_datetime_now.
  eapply keeps_bind with (G := any);
    [apply keeps_gets; intros; exact I | intros row _].
  destruct row as [b|]; [|apply keeps_raise].
  destruct (last_dm_date b) as [d|]; [|apply keeps_raise].
  destruct (negb _); [chain keeps_current_date|]; apply keeps_modify;
    intros s; apply rows_kept_update_bot_state.
Qed.

Lemma keeps_is_bot_paused (env : Env) : keeps (is_bot_paused env) any.
Proof.
  unfold is_bot_paused.
  eapply keeps_bind with (G := any);
    [apply keeps_gets; intros; exact I | intros row _].
  destruct row as [b|]; [|apply keeps_ret; exact I].
  destruct (paused_until b); [|apply keeps_ret; exact I].
  chain keeps_datetime_now. apply keeps_ret; exact I.
Qed.

Lemma keeps_get_dm_count_today (env : Env) : keeps (get_dm_count_today env) any.
Proof.
  unfold get_dm_count_today.
  eapply keeps_bind with (G := any);
    [apply keeps_gets; intros; exact I | intros row _].
  destruct row as [b|]; [|apply keeps_ret; exact I].
  destruct (last_dm_date b); [|apply keeps_raise].
  chain keeps_datetime_now. destruct (_ =? _); apply keeps_ret; exact I.
Qed.

Lemma keeps_get_daily_dm_limit (env : Env) : keeps (get_daily_dm_limit env) any.
Proof.
  unfold get_daily_dm_limit, get_account_age_days.
  eapply keeps_bind with (G := any); [|intros ? _; apply keeps_ret; exact I].
  eapply keeps_bind with (G := any);
    [apply keeps_gets; intros; exact I | intros row _].
  destruct row as [b|]; [|apply keeps_ret; exact I].
  destruct (account_created_date b); [|apply keeps_ret; exact I].
  chain keeps_datetime_now. apply keeps_ret; exact I.
Qed.

Lemma keeps_can_send_dm (env : Env) : keeps (can_send_dm env) any.
Proof.
  unfold can_send_dm. chain keeps_is_bot_paused.
  destruct a; [apply keeps_ret; exact I|].
  chain keeps_get_dm_count_today. chain keeps_get_daily_dm_limit.
  destruct (_ >=? _); apply keeps_ret; exact I.
Qed.

Lemma keeps_generate_reply (env : Env) (h : list Message) (lv : Lead) :
  keeps (Gemini.generate_reply env h lv) any.
Proof.
  apply keeps_store_untouched; intros w.
  unfold Gemini.generate_reply, get_time_of_day, Gemini.call_model; step.
  destruct (generate_content env (gen_calls w)); reflexivity.
Qed.

Lemma keeps_send_dm (env : Env) (v text : pystr) : keeps (send_dm env v text) any.
Proof. apply keeps_store_untouched; reflexivity. Qed.

Lemma keeps_deliver (env : Env) (v : pystr) (text : option pystr) :
  keeps (deliver env v text) any.
Proof.
  unfold deliver. destruct text as [r|]; [|apply keeps_ret; exact I].
  destruct (truthy r); [|apply keeps_ret; exact I].
  chain keeps_send_dm.
  destruct a; [apply keeps_increment_dm_count | apply keeps_ret; exact I].
Qed.

(** *** The manager of a message's sender *)

Hypothesis terminal : is_terminal (state c) = true.

Lemma keeps_get_conversation_manager (v : pystr) :
  keeps (get_conversation_manager v) (manager_ok v).
Proof.
  intros w w' r Hinv Hrun.
  unfold get_conversation_manager, init, get_lead_by_username,
    get_conversation, get_conversation_history in Hrun.
  revert Hrun; step.
  destruct (find_lead v (store w)) as [lv|] eqn:Hv; step.
  - assert (Hother : v <> u -> lead_id lv <> lead_id l)
      by (intros; eapply other_lead_other_id; eauto).
    assert (Hsame : v = u -> lv = l).
    { intros ->. destruct Hinv as (_ & Hl & _). congruence. }
    destruct (find_conversation (lead_id lv) (store w)) as [cv|] eqn:Hcv;
      intros Hrun; injection Hrun as <- <-; (split; [exact Hinv|]);
      intros a E; injection E as <-; (split; [reflexivity|]); simpl;
      (split; [|intros Hne lv' E; injection E as <-; auto]).
    + intros E. specialize (Hsame E); subst lv.
      destruct Hinv as (_ & _ & Hc). unfold get_state; simpl. congruence.
    + intros E. specialize (Hsame E); subst lv.
      destruct Hinv as (_ & _ & Hc). congruence.
  - intros Hrun; injection Hrun as <- <-. split; [exact Hinv|].
    intros a E; injection E as <-. split; [reflexivity|]. simpl. split.
    + intros ->. destruct Hinv as (_ & Hl & _). congruence.
    + intros _ lv E; discriminate.
Qed.

(** [should_respond] says yes only for another user. *)
Lemma keeps_should_respond (v : pystr) (self : t) :
  manager_ok v self ->
  keeps (should_respond self) (fun r => r = true -> v <> u).
Proof.
  intros (Hname & Hsame & Hother). unfold should_respond.
  destruct (is_terminal (get_state self)) eqn:T.
  { apply keeps_ret; discriminate. }
  assert (Hv : v <> u).
  { intros E. rewrite (Hsame E), terminal in T. discriminate. }
  destruct (self_lead self) as [lv|] eqn:Hlv; [|apply keeps_ret; auto].
  destruct (_ <? _); [|apply keeps_ret; auto].
  eapply keeps_bind with (G := any);
    [|intros ? _; apply keeps_ret; discriminate].
  unfold _exit_politely, lead_id_of. rewrite Hlv.
  apply keeps_bind_ret.
  eapply keeps_bind with (G := any).
  - apply keeps_update_conversation_state. now apply Hother.
  - intros _ _. apply keeps_update_lead_status. congruence.
Qed.

Lemma keeps_handle_rejection (env : Env) (v : pystr) (self : t) :
  manager_ok v self -> v <> u -> keeps (_handle_rejection env self) any.
Proof.
  intros (Hname & _ & Hother) Hv. unfold _handle_rejection.
  rewrite Hname.
  chain keeps_increment_rejections; [exact Hv|].
  unfold lead_id_of, conversation_id_of.
  destruct (self_lead self) as [lv|] eqn:Hlv.
  2:{ eapply keeps_bind with (G := fun _ => False);
        [apply keeps_raise | intros ? F; destruct F]. }
  apply keeps_bind_ret.
  eapply keeps_bind with (G := any);
    [apply keeps_update_conversation_state; now apply Hother | intros _ _].
  eapply keeps_bind with (G := any);
    [apply keeps_update_lead_status; exact Hv | intros _ _].
  eapply keeps_bind with (G := any).
  { destruct (_ >=? _); [apply keeps_pause_bot | apply keeps_ret; exact I]. }
  intros _ _.
  destruct (self_conversation self) as [cv|].
  2:{ eapply keeps_bind with (G := fun _ => False);
        [apply keeps_raise | intros ? F; destruct F]. }
  apply keeps_bind_ret.
  chain keeps_add_message. apply keeps_ret; exact I.
Qed.

Lemma keeps_process_user_reply
  (env : Env) (v : pystr) (self : t) (message : pystr) :
  manager_ok v self -> v <> u ->
  keeps (process_user_reply env self message) any.
Proof.
  intros Hok Hv. pose proof Hok as (Hname & _ & Hother).
  unfold process_user_reply.
  destruct (self_lead self) as [lv|] eqn:Hlv; [|apply keeps_ret; exact I].
  destruct (self_conversation self) as [cv|] eqn:Hcv;
    [|apply keeps_ret; exact I].
  assert (Hid : lead_id lv <> lead_id l) by (apply Hother; auto).
  chain keeps_add_message. rewrite Hname.
  eapply keeps_bind with (G := any);
    [apply keeps_update_lead_score; exact Hv | intros _ _].
  destruct (is_rejection _).
  { eapply keeps_bind with (G := any);
      [|intros ? _; apply keeps_ret; exact I].
    apply (keeps_handle_rejection env v); auto. }
  eapply keeps_bind with (G := any);
    [apply keeps_reset_rejections; exact Hv | intros _ _].
  eapply keeps_bind with (G := any).
  { destruct (_ >=? _); apply keeps_update_conversation_state; exact Hid. }
  intros _ _.
  chain keeps_get_conversation_history. chain keeps_generate_reply.
  eapply keeps_bind with (G := any); [|intros _ _; apply keeps_ret; exact I].
  destruct (truthy _); [|apply keeps_ret; exact I].
  chain keeps_add_message. apply keeps_increment_message_count; exact Hid.
Qed.

Lemma keeps_inbox_loop (env : Env) (unread : list Unread) :
  keeps (inbox_loop env unread) any.
Proof.
  induction unread as [|msg rest IH]; cbn [inbox_loop].
  { apply keeps_ret; exact I. }
  chain keeps_can_send_dm.
  destruct (negb a); [apply keeps_ret; exact I|].
  eapply keeps_bind;
    [apply keeps_get_conversation_manager | intros self Hok].
  eapply keeps_bind; [apply (keeps_should_respond _ _ Hok) | intros r Hr].
  destruct r; cbn [negb]; [|exact IH].
  eapply keeps_bind with (G := any).
  { apply (keeps_process_user_reply env (msg_username msg)); auto. }
  intros response _. chain keeps_deliver. exact IH.
Qed.

End OneLead.

Lemma is_terminal_iff (st : ConvState) :
  is_terminal st = true <-> st = STATE_REJECTED \/ st = STATE_EXITED.
Proof.
  destruct st; simpl; split; intros H; try discriminate; auto;
    destruct H; discriminate.
Qed.

(** C6. Take a lead whose conversation is in REJECTED or EXITED.  Whatever
    messages an inbox pass finds (from this user or from others), whatever
    the generator, the clock and the platform do, and whether the pass
    returns or raises, the lead's row and the conversation's row are
    afterwards exactly what they were, so the state machine still sees the
    same terminal state; the primary-key property the argument rests on
    holds again, so the same is true of every later pass. *)
Theorem terminal_states_absorbing
  (env : Env) (logged_in : bool) (unread : list Unread)
  (w w' : World) (r : result unit)
  (u : pystr) (l : Lead) (c : Conversation) :
  lead_ids_unique (store w) ->
  find_lead u (store w) = Some l ->
  find_conversation (lead_id l) (store w) = Some c ->
  state c = STATE_REJECTED \/ state c = STATE_EXITED ->
  process_inbox env logged_in unread w = (w', r) ->
  lead_ids_unique (store w') /\
  find_lead u (store w') = Some l /\
  find_conversation (lead_id l) (store w') = Some c /\
  exists self,
    get_conversation_manager u w' = (w', Ok self) /\
    get_state self = state c.
Proof.
  intros Hu Hl Hc Hterm Hrun. apply is_terminal_iff in Hterm.
  assert (Hkept : rows_kept u l c (store w')).
  { unfold process_inbox in Hrun. destruct logged_in; simpl in Hrun.
    - apply (keeps_inbox_loop u l c Hterm env unread w w' r);
        [repeat split; assumption | exact Hrun].
    - injection Hrun as <- <-. repeat split; assumption. }
  destruct Hkept as (Hu' & Hl' & Hc').
  repeat split; try assumption.
  exists (fresh (store w') u l c). split; [|reflexivity].
  apply ShouldRespondProps.init_found; assumption.
Qed.

(** After her rejection alice writes twice more, with a question and a
    problem word; the pass leaves her conversation in REJECTED. *)
Lemma terminal_states_absorbing_witness :
  exists w' r,
    process_inbox Fixtures.env_sqlite true
      [ {| msg_username := Fixtures.alice;
           msg_message := lit "aslida qanday ishlaydi?" |};
        {| msg_username := Fixtures.alice;
           msg_message := lit "yordam kerak" |} ]
      Fixtures.w_rejected = (w', r) /\
    option_map state (find_conversation 1 (store w')) = Some STATE_REJECTED.
Proof.
  eexists _, _. split; [reflexivity|].
  edestruct (fun w' r l c =>
               terminal_states_absorbing Fixtures.env_sqlite true
                 [ {| msg_username := Fixtures.alice;
                      msg_message := lit "aslida qanday ishlaydi?" |};
                   {| msg_username := Fixtures.alice;
                      msg_message := lit "yordam kerak" |} ]
                 Fixtures.w_rejected w' r Fixtures.alice l c)
    as (_ & _ & Hc & _).
  - intros l1 l2 [<-|[]] [<-|[]] _; reflexivity.
  - reflexivity.
  - reflexivity.
  - left; reflexivity.
  - reflexivity.
  - simpl lead_id in Hc. rewrite Hc. reflexivity.
Defined.

End AbsorbingProps.

(** ** Inserting a lead that exists *)

Module AddLeadProps.

Import Run StoreFacts.

(** On SQLite the insert is ignored and the id of the existing row is
    selected; the leads table is untouched. *)
Lemma add_lead_sqlite_existing
  (env : Env) (w : World) (u b t n : pystr) (l : Lead) :
  backend env = SQLite ->
  find_lead u (store w) = Some l ->
  exists w',
    add_lead env u b t n w = (w', Ok (lead_id l)) /\
    leads (store w') = leads (store w).
Proof.
  intros Hb Hl. unfold add_lead, add_lead_sqlite. rewrite Hb, Hl.
  eexists; split; reflexivity.
Qed.

(** With no unique index on [conversations.lead_id], each repeated insert
    on SQLite appends one more conversation row for the lead. *)
Lemma add_lead_sqlite_existing_appends_conversation
  (env : Env) (w : World) (u b t n : pystr) (l : Lead) :
  backend env = SQLite ->
  find_lead u (store w) = Some l ->
  conversations (store (fst (add_lead env u b t n w))) =
  conversations (store w) ++
  [new_conversation (conversations_seq (store w) + 1) (lead_id l)].
Proof.
  intros Hb Hl. unfold add_lead, add_lead_sqlite. rewrite Hb, Hl.
  reflexivity.
Qed.

(** On PostgreSQL the statement on [leads] by itself behaves as on SQLite:
    over a schema with the unique index the call returns the existing id
    and leaves every modelled field of the leads table as it was. *)
Lemma add_lead_postgres_existing_with_index
  (w : World) (u b t n : pystr) (l : Lead) :
  find_lead u (store w) = Some l ->
  exists w',
    add_lead_postgres true u b t n w = (w', Ok (lead_id l)) /\
    leads (store w') = leads (store w).
Proof.
  intros Hl. unfold add_lead_postgres. rewrite Hl. simpl.
  unfold insert_conversation_or_ignore.
  destruct (_ && _); eexists; split; reflexivity.
Qed.

(** Over the schema of [init_database] every call on PostgreSQL raises,
    for a user name that exists and for one that does not. *)
Lemma add_lead_postgres_raises (env : Env) (w : World) (u b t n : pystr) :
  backend env = PostgreSQL ->
  exists w', add_lead env u b t n w = (w', Raise ProgrammingError) /\
             leads (store w') = leads (store w).
Proof.
  intros Hb. unfold add_lead, add_lead_postgres. rewrite Hb.
  destruct (find_lead u (store w)); simpl; eexists; split; reflexivity.
Qed.

(** C9, at the failing input.  The leads table holds alice with id 1.
    Inserting alice again returns 1 on SQLite and leaves her row as it
    was; on PostgreSQL the same call raises and returns no id. *)
Theorem add_lead_existing_differs_by_backend :
  let b := lit "coffee shop" in
  let n := lit "business" in
  find_lead Fixtures.alice (store Fixtures.w_added)
    = Some (new_lead 1 Fixtures.alice b [] n) /\
  (exists w',
     add_lead Fixtures.env_sqlite Fixtures.alice b [] n Fixtures.w_added
       = (w', Ok 1) /\
     leads (store w') = leads (store Fixtures.w_added)) /\
  (exists w',
     add_lead Fixtures.env_postgres Fixtures.alice b [] n Fixtures.w_added
       = (w', Raise ProgrammingError)).
Proof.
  split; [reflexivity|]. split; eexists; [split|]; reflexivity.
Qed.

End AddLeadProps.

(** ** Further properties of the store operations *)

Module StoreProps.

Import Run StringFacts StoreFacts Scheduler.

Lemma with_score_twice (a b : Z) (l : Lead) :
  with_score (confidence_score (with_score (confidence_score l + a) l) + b)
    (with_score (confidence_score l + a) l)
  = with_score (confidence_score l + (a + b)) l.
Proof. unfold with_score; simpl. f_equal. lia. Qed.

(** X1. Score updates accumulate.  As long as the deltas, their sum and
    the scores of the user's rows before, between and after the two
    updates fit the column, two updates of a user's score in a row leave
    the world exactly as one update by the sum of the deltas does, and the
    row then read for the user carries the old score plus both deltas. *)
Theorem update_lead_score_accumulates
  (u : pystr) (d1 d2 : Z) (w : World) :
  fits_column d1 -> fits_column d2 -> fits_column (d1 + d2) ->
  (forall l, In l (leads (store w)) -> username l = u ->
     fits_column (confidence_score l) /\
     fits_column (confidence_score l + d1) /\
     fits_column (confidence_score l + d1 + d2)) ->
  (update_lead_score u d1 ;;; update_lead_score u d2) w
    = update_lead_score u (d1 + d2) w /\
  forall l,
    find_lead u (store w) = Some l ->
    option_map confidence_score
      (find_lead u
         (store (fst ((update_lead_score u d1 ;;;
                       update_lead_score u d2) w))))
    = Some (confidence_score l + d1 + d2).
Proof.
  intros _ _ _ _.
  assert (E : (update_lead_score u d1 ;;; update_lead_score u d2) w
              = update_lead_score u (d1 + d2) w).
  { unfold update_lead_score; step.
    unfold update_leads_where, set_leads; simpl.
    rewrite map_map.
    rewrite (map_ext _
               (fun l => if PyStr.eqb (username l) u
                         then with_score (confidence_score l + (d1 + d2)) l
                         else l)); [reflexivity|].
    intros l.
    destruct (PyStr.eqb (username l) u) eqn:Eu; simpl; rewrite Eu;
      [apply with_score_twice | reflexivity]. }
  split; [exact E|]. intros l Hl. rewrite E.
  unfold update_lead_score, modify; simpl.
  rewrite find_lead_update_same by reflexivity. rewrite Hl. simpl.
  f_equal; lia.
Qed.

(** Alice, greeted, with score 0: deltas 1 and 2. *)
Lemma update_lead_score_accumulates_witness :
  option_map confidence_score
    (find_lead Fixtures.alice
       (store (fst ((update_lead_score Fixtures.alice 1 ;;;
                     update_lead_score Fixtures.alice 2) Fixtures.w_greeted))))
  = Some 3.
Proof.
  destruct (update_lead_score_accumulates Fixtures.alice 1 2
              Fixtures.w_greeted) as [_ H].
  - unfold fits_column; lia.
  - unfold fits_column; lia.
  - unfold fits_column; lia.
  - intros l [<-|[]] _; unfold fits_column; simpl; lia.
  - rewrite (H _ eq_refl). reflexivity.
Defined.

(** X3. The account creation date round trip.  With the singleton row
    present, after [set_account_created_date d] the age read back is the
    day of the clock reading minus [d] and the daily limit is the cap of
    that age; with the row absent the date is not stored, the age read
    back is 1 and the limit is 8. *)
Theorem account_created_date_round_trip (env : Env) (d : Z) (w : World) :
  exists w1,
    set_account_created_date d w = (w1, Ok tt) /\
    ticks w1 = ticks w /\
    (forall b, bot_state (store w) = Some b ->
       let age := date_of (now env (ticks w)) - d in
       get_account_age_days env w1 = (tick w1, Ok age) /\
       get_daily_dm_limit env w1 = (tick w1, Ok (lookup_limit age DM_LIMITS))) /\
    (bot_state (store w) = None ->
       store w1 = store w /\
       get_account_age_days env w1 = (w1, Ok 1) /\
       get_daily_dm_limit env w1 = (w1, Ok 8)).
Proof.
  eexists; split; [reflexivity|]. split; [reflexivity|]. split.
  - intros b Hb age.
    unfold get_daily_dm_limit, get_account_age_days; step.
    unfold update_bot_state; rewrite Hb; simpl. split; reflexivity.
  - intros Hb.
    unfold get_daily_dm_limit, get_account_age_days; step.
    unfold update_bot_state; rewrite Hb; simpl.
    repeat split. destruct (store w); simpl in *; subst; reflexivity.
Qed.

Lemma account_created_date_round_trip_witness :
  exists w1,
    set_account_created_date 19727 Fixtures.w_init = (w1, Ok tt) /\
    get_daily_dm_limit Fixtures.env_sqlite w1 = (tick w1, Ok 15).
Proof.
  destruct (account_created_date_round_trip Fixtures.env_sqlite 19727
              Fixtures.w_init) as (w1 & Hset & Ht & Hrow & _).
  exists w1. split; [exact Hset|].
  destruct (Hrow _ eq_refl) as [_ Hlim]. rewrite Hlim.
  injection Hset as <-. reflexivity.
Defined.

End StoreProps.

(** ** The send check as a decision *)

Module SendCheckProps.

Import Run StoreFacts Scheduler RateLimitProps.

(** X4. What [can_send_dm] decides.  If the pause test is true the check
    is false.  If the pause test is false and the singleton row stores a
    last-send date, the check returns normally, writes nothing, and is
    true exactly when today's count (the stored total if the stored date
    is the date of the clock reading, 0 otherwise) is below the cap the
    daily limit returns. *)
Theorem can_send_dm_decides (env : Env) (w w1 : World) (p : bool) :
  is_bot_paused env w = (w1, Ok p) ->
  (p = true -> can_send_dm env w = (w1, Ok false)) /\
  (p = false ->
   forall b d,
     bot_state (store w) = Some b ->
     last_dm_date b = Some d ->
     let sent :=
       if d =? date_of (now env (ticks w1)) then total_dms_today b else 0 in
     exists w2 cap,
       get_daily_dm_limit env (tick w1) = (w2, Ok cap) /\
       can_send_dm env w = (w2, Ok (sent <? cap)) /\
       store w2 = store w).
Proof.
  intros Hp. split.
  - intros ->. unfold can_send_dm. rewrite (bind_ok _ _ _ _ _ Hp). reflexivity.
  - intros -> b d Hb Hd sent.
    destruct (is_bot_paused_total env w) as (w1' & p' & Hp' & Hs1).
    rewrite Hp in Hp'. injection Hp' as <- <-.
    destruct (get_daily_dm_limit_total env (tick w1))
      as (w2 & cap & Hl & Hs2 & _).
    exists w2, cap. split; [exact Hl|]. split; [|simpl in Hs2; congruence].
    unfold can_send_dm. rewrite (bind_ok _ _ _ _ _ Hp). cbn iota.
    assert (Hc : get_dm_count_today env w1 = (tick w1, Ok sent)).
    { unfold get_dm_count_today; step. rewrite Hs1, Hb, Hd. step.
      subst sent. destruct (d =? _); reflexivity. }
    rewrite (bind_ok _ _ _ _ _ Hc), (bind_ok _ _ _ _ _ Hl).
    rewrite Z.geb_leb, Z.ltb_antisym.
    destruct (cap <=? sent); reflexivity.
Qed.

(** Eight sends are stored for today and the cap is 8: no further send. *)
Lemma can_send_dm_decides_witness :
  let w := with_store
             (update_bot_state (with_count_and_date 8 (Some 19732))
                (store Fixtures.w_added)) Fixtures.w_added in
  exists w2, can_send_dm Fixtures.env_sqlite w = (w2, Ok false).
Proof.
  intros w.
  destruct (can_send_dm_decides Fixtures.env_sqlite w w false eq_refl)
    as [_ H].
  destruct (H eq_refl _ _ eq_refl eq_refl) as (w2 & cap & Hl & Hc & _).
  exists w2. rewrite Hc. revert Hl. vm_compute.
  intros E; injection E as <- <-. reflexivity.
Defined.

End SendCheckProps.

(** ** Niche detection, scraping and the user-name file *)

Module ScraperProps.

Import Run StringFacts StoreFacts Scraper.

Lemma mem_In (x : pystr) (xs : list pystr) : mem x xs = true -> In x xs.
Proof.
  unfold mem; intros H. apply existsb_exists in H as (y & Hy & E).
  apply eqb_eq in E. subst; exact Hy.
Qed.

Lemma detect_niche_run (env : Env) (bio last_post : pystr) (w : World) :
  exists niche,
    detect_niche env bio last_post w = (called w, Ok niche) /\
    In niche valid_niches.
Proof.
  unfold detect_niche.
  rewrite (bind_ok _ _ w (called w) (generate_content env (gen_calls w)))
    by reflexivity.
  destruct (generate_content env (gen_calls w)) as [text|].
  - destruct (mem (lower env (strip text)) valid_niches) eqn:E;
      eexists; (split; [reflexivity|]); [now apply mem_In | simpl; tauto].
  - eexists; split; [reflexivity | simpl; tauto].
Qed.

(** X5. Niche detection never raises and never returns anything but one
    of the four niches: a reply outside the list, and any failure of the
    generator, give 'business'.  It calls the generator once and writes
    nothing. *)
Theorem detect_niche_valid (env : Env) (bio last_post : pystr) (w : World) :
  exists niche,
    detect_niche env bio last_post w = (called w, Ok niche) /\
    In niche valid_niches /\
    (generate_content env (gen_calls w) = None -> niche = lit "business") /\
    (forall text,
       generate_content env (gen_calls w) = Some text ->
       niche = lower env (strip text) \/
       (mem (lower env (strip text)) valid_niches = false /\
        niche = lit "business")).
Proof.
  unfold detect_niche.
  rewrite (bind_ok _ _ w (called w) (generate_content env (gen_calls w)))
    by reflexivity.
  destruct (generate_content env (gen_calls w)) as [text|].
  - destruct (mem (lower env (strip text)) valid_niches) eqn:E;
      eexists; (split; [reflexivity|]).
    + split; [now apply mem_In|]. split; [discriminate|].
      intros t Ht; injection Ht as <-. left; reflexivity.
    + split; [simpl; tauto|]. split; [discriminate|].
      intros t Ht; injection Ht as <-. right; split; [exact E | reflexivity].
  - eexists; split; [reflexivity|]. split; [simpl; tauto|].
    split; [reflexivity | discriminate].
Qed.

Lemma firstn_len_le (n : nat) (s : pystr) : len (firstn n s) <= Z.of_nat n.
Proof. unfold len. pose proof (firstn_le_length n s). lia. Qed.

Lemma scrape_lead_some
  (env : Env) (u : pystr) (info : UserInfo) (captions : list pystr)
  (w : World) :
  exists d,
    scrape_lead env u (Some info) captions w = (called w, Ok (Some d)) /\
    data_username d = u.
Proof.
  unfold scrape_lead.
  match goal with
  | |- context [detect_niche env ?b ?t] =>
      destruct (detect_niche_run env b t w) as (niche & Hrun & _)
  end.
  rewrite (bind_ok _ _ _ _ _ Hrun). eexists; split; reflexivity.
Qed.

(** X6. Scraping a profile.  Without user info the result is [None] and
    the generator is not called.  With user info the result is a record
    for the same user name with the profile's bio, a last-post topic that
    is the first caption cut to at most 200 characters (empty when there
    is no post), and a niche among the four; nothing is written. *)
Theorem scrape_lead_result
  (env : Env) (u : pystr) (captions : list pystr) (w : World) :
  scrape_lead env u None captions w = (w, Ok None) /\
  forall info,
    exists d,
      scrape_lead env u (Some info) captions w = (called w, Ok (Some d)) /\
      data_username d = u /\
      data_bio d = info_bio info /\
      data_is_business d = info_is_business info /\
      len (data_last_post_topic d) <= 200 /\
      data_last_post_topic d = firstn 200 (hd [] captions) /\
      In (data_niche d) valid_niches.
Proof.
  split; [reflexivity|]. intros info.
  set (topic := match captions with
                | caption :: _ =>
                    if truthy caption then firstn 200 caption else []
                | [] => []
                end).
  assert (Htopic : topic = firstn 200 (hd [] captions)).
  { subst topic. destruct captions as [|c cs]; [reflexivity|].
    simpl hd. destruct c; reflexivity. }
  destruct (detect_niche_run env (info_bio info) topic w)
    as (niche & Hrun & Hin).
  eexists. unfold scrape_lead. fold topic.
  rewrite (bind_ok _ _ _ _ _ Hrun). split; [reflexivity|]. simpl.
  repeat split; auto.
  rewrite Htopic. apply (firstn_len_le 200).
Qed.

(** *** Trimming twice *)

Lemma drop_while_fixed (f : N -> bool) (s : pystr) :
  match s with [] => True | x :: _ => f x = false end ->
  drop_while f s = s.
Proof. destruct s as [|x r]; simpl; [reflexivity|]. intros ->; reflexivity. Qed.

Lemma drop_while_head (f : N -> bool) (s : pystr) :
  match drop_while f s with [] => True | x :: _ => f x = false end.
Proof.
  induction s as [|c s IH]; simpl; [exact I|].
  destruct (f c) eqn:E; [exact IH | simpl; exact E].
Qed.

Lemma drop_while_suffix (f : N -> bool) (s : pystr) :
  exists p, s = p ++ drop_while f s.
Proof.
  induction s as [|c s [p IH]]; simpl; [exists []; reflexivity|].
  destruct (f c).
  - exists (c :: p). simpl. f_equal. exact IH.
  - exists []. reflexivity.
Qed.

Lemma strip_with_idempotent (f : N -> bool) (s : pystr) :
  strip_with f (strip_with f s) = strip_with f s.
Proof.
  unfold strip_with.
  set (x := drop_while f s). set (y := drop_while f (rev x)).
  assert (Hy : drop_while f (rev y) = rev y).
  { apply drop_while_fixed.
    destruct (drop_while_suffix f (rev x)) as [p Hp]. fold y in Hp.
    assert (Hx : x = rev y ++ rev p).
    { rewrite <- (rev_involutive x), Hp, rev_app_distr. reflexivity. }
    pose proof (drop_while_head f s) as Hh. fold x in Hh.
    destruct (rev y) as [|a r]; [exact I|].
    rewrite Hx in Hh. exact Hh. }
  rewrite Hy, rev_involutive.
  rewrite (drop_while_fixed f y); [reflexivity|].
  exact (drop_while_head f (rev x)).
Qed.

(** X7. The user names loaded from a file: each one is non-empty and has
    no white space left at either end, every line that is not blank is
    there in trimmed form, in the order of the file, blank lines are
    dropped, and a file that cannot be read gives the empty list. *)
Theorem load_usernames_clean (lines : list pystr) :
  Forall (fun u => truthy u = true /\ strip u = u)
    (load_usernames_from_csv (Some lines)) /\
  (forall line,
     In (strip line) (load_usernames_from_csv (Some lines)) <->
     In (strip line) (map strip lines) /\ truthy (strip line) = true) /\
  (forall l1 l2,
     load_usernames_from_csv (Some (l1 ++ l2))
     = load_usernames_from_csv (Some l1) ++
       load_usernames_from_csv (Some l2)) /\
  (forall line,
     load_usernames_from_csv (Some [line])
     = if truthy (strip line) then [strip line] else []) /\
  load_usernames_from_csv None = [].
Proof.
  unfold load_usernames_from_csv, usernames_of_lines.
  split; [|split; [|split; [|split]]].
  - apply Forall_forall. intros u Hu.
    apply in_map_iff in Hu as (line & <- & Hl).
    apply filter_In in Hl as [_ Ht].
    split; [exact Ht | apply strip_with_idempotent].
  - intros line. rewrite !in_map_iff. split.
    + intros (x & Hx & Hin). apply filter_In in Hin as [Hin Ht].
      split; [exists x; auto | rewrite <- Hx; exact Ht].
    + intros [(x & Hx & Hin) Ht]. exists x. split; [exact Hx|].
      apply filter_In. split; [exact Hin | rewrite Hx; exact Ht].
  - intros l1 l2. rewrite filter_app, map_app. reflexivity.
  - intros line. simpl. destruct (truthy (strip line)); reflexivity.
  - reflexivity.
Qed.

End ScraperProps.

(** ** The reply path and the first message *)

Module ReplyProps.

Import Run StringFacts StoreFacts ConversationManager Scheduler.

Lemma generate_reply_result
  (env : Env) (w : World) (h : list Message) (l : Lead) :
  Gemini.generate_reply env h l w =
  (called (tick w),
   Ok match generate_content env (gen_calls w) with
      | Some text => Gemini.clean text
      | None => []
      end).
Proof.
  unfold Gemini.generate_reply, get_time_of_day, Gemini.call_model. step.
  destruct (generate_content env (gen_calls w)); reflexivity.
Qed.

Lemma generate_first_message_result
  (env : Env) (w : World) (b t n : pystr) :
  exists w',
    Gemini.generate_first_message env b t n w =
    (w',
     Ok match generate_content env (gen_calls w) with
        | Some text => Gemini.clean text
        | None =>
            Gemini.templates
              (time_of_day_of_hour (hour_of (now env (S (ticks w)))))
        end) /\
    store w' = store w /\ gen_calls w' = S (gen_calls w).
Proof.
  unfold Gemini.generate_first_message, get_time_of_day, Gemini.call_model.
  step. destruct (generate_content env (gen_calls w));
    eexists; repeat split; reflexivity.
Qed.

(** X8. A reply that is not a rejection, whatever the generator does.
    The call returns the generator's cleaned text, or the empty string if
    the generator failed.  The user's row gets the score delta added and
    its consecutive-rejection counter set to 0; the conversation goes to
    SOFT_TRANSITION if the manager had counted three or more bot messages
    and to QUALIFYING otherwise; the user's message is appended, followed
    by the reply if it is non-empty, and [message_count] grows by one
    exactly in that case.  The generator is called once and the pause is
    not touched. *)
Theorem reply_path
  (env : Env) (w : World) (self : t) (l l0 : Lead) (c c0 : Conversation)
  (message : pystr) :
  self_lead self = Some l ->
  self_conversation self = Some c ->
  find_lead (self_username self) (store w) = Some l0 ->
  find_conversation (lead_id l) (store w) = Some c0 ->
  is_rejection (analyze_user_response (lower env) message) = false ->
  let delta :=
    calculate_score_delta (analyze_user_response (lower env) message) in
  let r := match generate_content env (gen_calls w) with
           | Some text => Gemini.clean text
           | None => []
           end in
  exists w',
    process_user_reply env self message w = (w', Ok (Some r)) /\
    find_lead (self_username self) (store w') =
      Some (with_rejections 0
              (with_score (confidence_score l0 + delta) l0)) /\
    find_conversation (lead_id l) (store w') =
      Some (with_message_count
              (message_count c0 + (if truthy r then 1 else 0))
              (with_state
                 (if message_count c >=? 3 then STATE_SOFT_TRANSITION
                  else STATE_QUALIFYING) c0)) /\
    messages (store w') =
      messages (store w) ++
      {| conversation_id := conv_id c; role := user; content := message |}
      :: (if truthy r
          then [{| conversation_id := conv_id c; role := assistant;
                   content := r |}]
          else []) /\
    bot_state (store w') = bot_state (store w) /\
    gen_calls w' = S (gen_calls w).
Proof.
  intros Hl Hc Hfl Hfc Hrej delta r.
  unfold process_user_reply. rewrite Hl, Hc, Hrej. fold delta.
  unfold add_message, update_lead_score, reset_rejections,
    get_message_count, get_conversation_history. rewrite Hc.
  unfold bind at 1. unfold modify at 1. cbv iota beta.
  unfold bind at 1. unfold modify at 1. cbv iota beta.
  unfold bind at 1. unfold modify at 1. cbv iota beta.
  destruct (message_count c >=? 3);
    unfold update_conversation_state, increment_message_count;
    (unfold bind at 1; unfold modify at 1; cbv iota beta);
    (unfold bind at 1; unfold gets at 1; cbv iota beta);
    rewrite (bind_ok _ _ _ _ _ (generate_reply_result env _ _ _));
    cbn [gen_calls with_store]; fold r;
    destruct (truthy r); step;
    (eexists; split; [reflexivity|]); simpl;
    autorewrite with store;
    repeat (rewrite find_lead_update_same by reflexivity;
            autorewrite with store);
    repeat (rewrite find_conversation_update_same by reflexivity;
            autorewrite with store);
    rewrite ?Hfl, ?Hfc; simpl;
    rewrite <- ?app_assoc; simpl;
    repeat split; try reflexivity;
    unfold with_message_count, with_state; simpl; rewrite ?Z.add_0_r;
    destruct c0; reflexivity.
Qed.

(** Alice, greeted, asks about a problem: +3, and the generator is down. *)
Lemma reply_path_witness :
  exists w' l',
    process_user_reply Fixtures.env_sqlite
      (Fixtures.manager_of Fixtures.w_greeted Fixtures.alice)
      (lit "bu menga qanday yordam beradi?") Fixtures.w_greeted
    = (w', Ok (Some [])) /\
    find_lead Fixtures.alice (store w') = Some l' /\
    confidence_score l' = 3 /\ consecutive_rejections l' = 0.
Proof.
  edestruct (fun l l0 c c0 =>
               reply_path Fixtures.env_sqlite Fixtures.w_greeted
                 (Fixtures.manager_of Fixtures.w_greeted Fixtures.alice)
                 l l0 c c0 (lit "bu menga qanday yordam beradi?"))
    as (w' & Hrun & Hl & _); try reflexivity.
  exists w'. eexists. split; [exact Hrun|]. split; [exact Hl|].
  split; reflexivity.
Defined.

(** X9. A reply that is a rejection, whatever the counter.  The call
    returns the fixed exit message without calling the generator; the
    user's row gets the rejection penalty, its counter plus one and status
    'rejected'; the conversation goes to REJECTED with [message_count] as
    it was, although the exit message is appended after the user's
    message.  The pause is written only if the new counter is at least
    the limit, and then only if the singleton row exists; below the limit
    the clock is not read. *)
Theorem rejection_path
  (env : Env) (w : World) (self : t) (l l0 : Lead) (c c0 : Conversation)
  (message : pystr) :
  self_lead self = Some l ->
  self_conversation self = Some c ->
  find_lead (self_username self) (store w) = Some l0 ->
  find_conversation (lead_id l) (store w) = Some c0 ->
  is_rejection (analyze_user_response (lower env) message) = true ->
  let n := consecutive_rejections l0 + 1 in
  exists w',
    process_user_reply env self message w = (w', Ok (Some exit_message)) /\
    gen_calls w' = gen_calls w /\
    find_lead (self_username self) (store w') =
      Some (with_status status_rejected
              (with_rejections n
                 (with_score (confidence_score l0 + SCORE_REJECTION) l0))) /\
    find_conversation (lead_id l) (store w') =
      Some (with_state STATE_REJECTED c0) /\
    messages (store w') =
      messages (store w) ++
      [ {| conversation_id := conv_id c; role := user; content := message |};
        {| conversation_id := conv_id c; role := assistant;
           content := exit_message |} ] /\
    (n < CONSECUTIVE_REJECTIONS_LIMIT ->
       bot_state (store w') = bot_state (store w) /\ ticks w' = ticks w) /\
    (CONSECUTIVE_REJECTIONS_LIMIT <= n ->
       bot_state (store w') =
         option_map
           (with_paused_until
              (Some (now env (ticks w) + KILL_SWITCH_DURATION)))
           (bot_state (store w))).
Proof.
  intros Hl Hc Hfl Hfc Hrej n.
  rewrite (KillSwitchProps.process_user_reply_rejection
             env w self l c message Hl Hc Hrej).
  unfold _handle_rejection, increment_rejections, lead_id_of,
    conversation_id_of, update_conversation_state, update_lead_status,
    pause_bot, add_message.
  rewrite Hl, Hc. step.
  repeat (rewrite find_lead_update_same by reflexivity;
          autorewrite with store).
  rewrite Hfl. simpl. fold n.
  destruct (Z.geb_spec n CONSECUTIVE_REJECTIONS_LIMIT) as [Hge|Hlt];
    simpl; (eexists; split; [reflexivity|]); simpl;
    autorewrite with store;
    repeat (rewrite find_lead_update_same by reflexivity;
            autorewrite with store);
    repeat (rewrite find_conversation_update_same by reflexivity;
            autorewrite with store);
    rewrite Hfl, Hfc; simpl; rewrite <- ?app_assoc; simpl;
    repeat split; try reflexivity; intros; lia.
Qed.

(** Alice, greeted, says no for the first time: no pause. *)
Lemma rejection_path_witness :
  exists w',
    process_user_reply Fixtures.env_sqlite
      (Fixtures.manager_of Fixtures.w_greeted Fixtures.alice)
      (lit "Rahmat, kerak emas") Fixtures.w_greeted
    = (w', Ok (Some exit_message)) /\
    gen_calls w' = gen_calls Fixtures.w_greeted /\
    bot_state (store w') = bot_state (store Fixtures.w_greeted).
Proof.
  edestruct (fun l l0 c c0 =>
               rejection_path Fixtures.env_sqlite Fixtures.w_greeted
                 (Fixtures.manager_of Fixtures.w_greeted Fixtures.alice)
                 l l0 c c0 (lit "Rahmat, kerak emas"))
    as (w' & Hrun & Hg & _ & _ & _ & Hlow & _); try reflexivity.
  exists w'. split; [exact Hrun|]. split; [exact Hg|].
  apply Hlow. vm_compute; reflexivity.
Defined.

(** X10. A message from a user who is not a lead.  The manager has no
    lead; the check before the reply says yes, the reply path returns
    [None] at once and nothing is delivered: the loop goes on to the next
    message with the world as the send check left it. *)
Theorem unknown_sender_is_ignored
  (env : Env) (w0 w : World) (u text : pystr) (rest : list Unread) :
  find_lead u (store w) = None ->
  can_send_dm env w0 = (w, Ok true) ->
  (exists self,
     get_conversation_manager u w = (w, Ok self) /\
     should_respond self w = (w, Ok true) /\
     process_user_reply env self text w = (w, Ok None)) /\
  inbox_loop env ({| msg_username := u; msg_message := text |} :: rest) w0
  = inbox_loop env rest w.
Proof.
  intros Hnone Hsend.
  assert (Hinit : get_conversation_manager u w =
                  (w, Ok {| self_username := u; self_lead := None;
                            self_conversation := None; self_history := [] |})).
  { unfold get_conversation_manager, init, get_lead_by_username; step.
    rewrite Hnone. reflexivity. }
  split.
  - eexists. split; [exact Hinit|]. split; reflexivity.
  - cbn [inbox_loop]. rewrite (bind_ok _ _ _ _ _ Hsend). cbn [negb].
    cbn [msg_username msg_message].
    rewrite (bind_ok _ _ _ _ _ Hinit). reflexivity.
Qed.

Lemma unknown_sender_is_ignored_witness :
  inbox_loop Fixtures.env_sqlite
    [ {| msg_username := lit "bob"; msg_message := lit "salom" |} ]
    Fixtures.w_greeted
  = (tick Fixtures.w_greeted, Ok tt).
Proof.
  destruct (unknown_sender_is_ignored Fixtures.env_sqlite Fixtures.w_greeted
              (tick Fixtures.w_greeted) (lit "bob") (lit "salom") [])
    as [_ H]; [reflexivity | reflexivity |].
  rewrite H. reflexivity.
Defined.

(** X11. The first message, whatever the generator does.  The text is the
    generator's cleaned reply, or the canned text if it failed.  If the
    text is non-empty, every row of the user has status 'contacted'
    afterwards, so the user is no longer among the leads with status
    'new' and is not greeted again; if the text is empty nothing is
    written and the lead stays as it was. *)
Theorem first_message_marks_contacted
  (env : Env) (w : World) (self : t) (l : Lead) (c : Conversation) :
  self_lead self = Some l ->
  self_conversation self = Some c ->
  let text := match generate_content env (gen_calls w) with
              | Some reply => Gemini.clean reply
              | None =>
                  Gemini.templates
                    (time_of_day_of_hour (hour_of (now env (S (ticks w)))))
              end in
  exists w',
    generate_first_message env self w = (w', Ok (Some text)) /\
    (truthy text = true ->
       (forall l', In l' (leads (store w')) ->
                   username l' = self_username self ->
                   status l' = status_contacted) /\
       (forall new_leads l',
          get_leads_by_status status_new w' = (w', Ok new_leads) ->
          In l' new_leads -> username l' <> self_username self)) /\
    (truthy text = false -> store w' = store w).
Proof.
  intros Hl Hc text.
  destruct (generate_first_message_result env w (bio l) (last_post_topic l)
              (niche l)) as (w1 & Hgen & Hs1 & _).
  fold text in Hgen.
  unfold generate_first_message. rewrite Hl.
  rewrite (bind_ok _ _ _ _ _ Hgen).
  destruct (truthy text) eqn:Ht.
  - unfold conversation_id_of, add_message, increment_message_count,
      update_conversation_state, update_lead_status. rewrite Hc. step.
    eexists; split; [reflexivity|]. simpl.
    assert (Hall : forall l',
              In l' (map (fun x => if PyStr.eqb (username x) (self_username self)
                                   then with_status status_contacted x else x)
                       (leads (store w1))) ->
              username l' = self_username self ->
              status l' = status_contacted).
    { intros l' Hin Hu. apply in_map_iff in Hin as (x & <- & _).
      destruct (PyStr.eqb (username x) (self_username self)) eqn:E;
        [reflexivity|].
      simpl in Hu. apply eqb_eq in Hu. congruence. }
    split; [|discriminate]. intros _. split; [exact Hall|].
    intros new_leads l' Hq Hin Hu.
    unfold get_leads_by_status, gets in Hq. simpl in Hq.
    injection Hq as <-. apply filter_In in Hin as [Hin Hst].
    rewrite (Hall l' Hin Hu) in Hst. discriminate.
  - step. eexists; split; [reflexivity|]. simpl.
    split; [discriminate | intros _; exact Hs1].
Qed.

Lemma first_message_marks_contacted_witness :
  exists w',
    generate_first_message Fixtures.env_sqlite
      (Fixtures.manager_of Fixtures.w_added Fixtures.alice) Fixtures.w_added
    = (w', Ok (Some (Gemini.templates Afternoon))) /\
    get_leads_by_status status_new w' = (w', Ok []).
Proof.
  edestruct (fun l c =>
               first_message_marks_contacted Fixtures.env_sqlite
                 Fixtures.w_added
                 (Fixtures.manager_of Fixtures.w_added Fixtures.alice) l c)
    as (w' & Hrun & _); try reflexivity.
  exists w'. split; [exact Hrun|].
  revert Hrun. vm_compute. intros E; injection E as <-. reflexivity.
Defined.

End ReplyProps.

(** ** Adding leads *)

Module IntakeProps.

Import Run StringFacts StoreFacts ConversationManager Scheduler Scraper.

Lemma find_app_none {A} (p : A -> bool) (xs ys : list A) :
  find p xs = None -> find p (xs ++ ys) = find p ys.
Proof.
  induction xs as [|x xs IH]; simpl; [reflexivity|].
  destruct (p x); [discriminate | exact IH].
Qed.

Lemma find_app_some {A} (p : A -> bool) (xs ys : list A) (x : A) :
  find p xs = Some x -> find p (xs ++ ys) = Some x.
Proof.
  induction xs as [|y xs IH]; simpl; [discriminate|].
  destruct (p y); [auto | exact IH].
Qed.

Lemma NoDup_snoc {A} (xs : list A) (x : A) :
  NoDup xs -> ~ In x xs -> NoDup (xs ++ [x]).
Proof.
  intros Hxs Hx. rewrite <- (rev_involutive (xs ++ [x])).
  apply NoDup_rev. rewrite rev_app_distr; simpl.
  constructor; [rewrite <- in_rev; exact Hx | now apply NoDup_rev].
Qed.

Lemma find_none_not_in (u : pystr) (s : Store) :
  find_lead u s = None -> ~ In u (map username (leads s)).
Proof.
  intros Hnone Hin. apply in_map_iff in Hin as (l & Hu & Hl).
  unfold find_lead in Hnone.
  apply (find_none _ _ Hnone) in Hl. rewrite Hu, eqb_refl in Hl.
  discriminate.
Qed.

Lemma find_conversation_none_fresh (s : Store) (id : Z) :
  store_wf s -> leads_seq s < id -> find_conversation id s = None.
Proof.
  intros (_ & _ & Hseq & Hfk) Hid.
  unfold find_conversation.
  destruct (find _ (conversations s)) as [c|] eqn:E; [|reflexivity].
  apply find_some_holds in E as [E Hin]. apply Z.eqb_eq in E.
  destruct (Hfk c Hin) as (l & Hl & Hlid).
  specialize (Hseq l Hl). lia.
Qed.

(** The insert of a new user name on SQLite, table by table. *)
Lemma add_lead_new_facts
  (env : Env) (w : World) (u b t n : pystr) :
  backend env = SQLite ->
  store_wf (store w) ->
  find_lead u (store w) = None ->
  let id := leads_seq (store w) + 1 in
  let cid := conversations_seq (store w) + 1 in
  exists w',
    add_lead env u b t n w = (w', Ok id) /\
    find_lead u (store w') = Some (new_lead id u b t n) /\
    find_conversation id (store w') = Some (new_conversation cid id) /\
    (forall v, v <> u -> find_lead v (store w') = find_lead v (store w)) /\
    store_wf (store w').
Proof.
  intros Hb Hwf Hnone id cid.
  unfold add_lead, add_lead_sqlite. rewrite Hb, Hnone.
  unfold conversations_lead_id_unique, insert_conversation_or_ignore.
  cbn [andb]. eexists; split; [reflexivity|].
  assert (Hfl : find_lead u
            (set_leads (leads (store w) ++ [new_lead id u b t n]) (store w))
            = Some (new_lead id u b t n)).
  { unfold find_lead; simpl. rewrite find_app_none by exact Hnone.
    simpl. rewrite eqb_refl. reflexivity. }
  assert (Hfc : find (fun c => conv_lead_id c =? id)
                  (conversations (store w) ++ [new_conversation cid id])
                = Some (new_conversation cid id)).
  { rewrite find_app_none.
    - simpl. rewrite Z.eqb_refl. reflexivity.
    - apply (find_conversation_none_fresh (store w) id Hwf). subst id; lia. }
  simpl. split; [exact Hfl|]. split; [exact Hfc|]. split.
  - intros v Hv. unfold find_lead; simpl.
    destruct (find (fun l => PyStr.eqb (username l) v) (leads (store w)))
      as [l|] eqn:E.
    + now apply find_app_some.
    + rewrite find_app_none by exact E. simpl.
      destruct (PyStr.eqb u v) eqn:Euv; [|reflexivity].
      apply eqb_eq in Euv. congruence.
  - destruct Hwf as (Hnu & Hni & Hseq & Hfk).
    unfold store_wf; simpl. rewrite !map_app; simpl.
    split; [|split; [|split]].
    + apply NoDup_snoc; [exact Hnu | now apply find_none_not_in].
    + apply NoDup_snoc; [exact Hni|]. intros Hin.
      apply in_map_iff in Hin as (l & Hl & Hin).
      specialize (Hseq l Hin). subst id. lia.
    + intros l Hin. apply in_app_or in Hin as [Hin|[<-|[]]].
      * specialize (Hseq l Hin). subst id. lia.
      * simpl. subst id. lia.
    + intros c Hin. apply in_app_or in Hin as [Hin|[<-|[]]].
      * destruct (Hfk c Hin) as (l & Hl & E). exists l.
        split; [apply in_or_app; left; exact Hl | exact E].
      * exists (new_lead id u b t n).
        split; [apply in_or_app; right; left; reflexivity | reflexivity].
Qed.

(** X12. Adding a user name that is not a lead yet, on SQLite and in a
    store that respects the schema's keys.  The call returns a fresh id,
    one above the last id handed out; the user is then found with the
    given bio, topic and niche, status 'new', score 0 and no rejections;
    the lead has exactly the conversation just created, in state NEW with
    no bot message counted, so its manager starts in NEW; the lookups of
    all other user names are as before. *)
Theorem add_lead_new_round_trip
  (env : Env) (w : World) (u b t n : pystr) :
  backend env = SQLite ->
  store_wf (store w) ->
  find_lead u (store w) = None ->
  let id := leads_seq (store w) + 1 in
  let cid := conversations_seq (store w) + 1 in
  exists w',
    add_lead env u b t n w = (w', Ok id) /\
    find_lead u (store w') = Some (new_lead id u b t n) /\
    find_conversation id (store w') = Some (new_conversation cid id) /\
    (forall v, v <> u -> find_lead v (store w') = find_lead v (store w)) /\
    (exists self,
       get_conversation_manager u w' = (w', Ok self) /\
       get_state self = STATE_NEW /\ get_message_count self = 0) /\
    store_wf (store w').
Proof.
  intros Hb Hwf Hnone id cid.
  destruct (add_lead_new_facts env w u b t n Hb Hwf Hnone)
    as (w' & Hrun & Hfl & Hfc & Hother & Hwf').
  exists w'. split; [exact Hrun|]. split; [exact Hfl|].
  split; [exact Hfc|]. split; [exact Hother|]. split; [|exact Hwf'].
  eexists. split; [|split].
  - apply (ShouldRespondProps.init_found _ u (new_lead id u b t n)
             (new_conversation cid id)); [exact Hfl | exact Hfc].
  - reflexivity.
  - reflexivity.
Qed.

Lemma empty_store_wf : store_wf empty_store.
Proof.
  unfold store_wf, empty_store; simpl.
  repeat split; try constructor; intros ? [].
Qed.

Lemma add_lead_new_round_trip_witness :
  exists w',
    add_lead Fixtures.env_sqlite Fixtures.alice (lit "coffee shop") []
      (lit "business")
      {| store := empty_store; ticks := 0; db_ticks := 0; gen_calls := 0;
         send_calls := 0; outbox := [] |}
    = (w', Ok 1) /\
    store_wf (store w').
Proof.
  destruct (add_lead_new_round_trip Fixtures.env_sqlite
              {| store := empty_store; ticks := 0; db_ticks := 0;
                 gen_calls := 0; send_calls := 0; outbox := [] |}
              Fixtures.alice (lit "coffee shop") [] (lit "business"))
    as (w' & Hrun & _ & _ & _ & _ & Hwf).
  - reflexivity.
  - exact empty_store_wf.
  - reflexivity.
  - exists w'. split; [exact Hrun | exact Hwf].
Defined.

(** X19. Adding a user name that is a lead already, on SQLite and in a
    store that respects the schema's keys.  The call returns the id of
    the existing row and leaves the leads table as it is, but the id
    drawn for the ignored row is used up and one more conversation row is
    appended for the lead; the keys stay respected, and the next new user
    name gets the id two above the last one handed out before. *)
Theorem add_lead_existing_consumes_id
  (env : Env) (w : World) (u b t n : pystr) (l : Lead)
  (v b' t' n' : pystr) :
  backend env = SQLite ->
  store_wf (store w) ->
  find_lead u (store w) = Some l ->
  find_lead v (store w) = None ->
  exists w1,
    add_lead env u b t n w = (w1, Ok (lead_id l)) /\
    leads (store w1) = leads (store w) /\
    leads_seq (store w1) = leads_seq (store w) + 1 /\
    conversations (store w1) =
      conversations (store w) ++
      [new_conversation (conversations_seq (store w) + 1) (lead_id l)] /\
    store_wf (store w1) /\
    exists w2,
      add_lead env v b' t' n' w1 = (w2, Ok (leads_seq (store w) + 2)) /\
      find_lead v (store w2)
        = Some (new_lead (leads_seq (store w) + 2) v b' t' n').
Proof.
  intros Hb Hwf Hl Hv.
  assert (Hrun : exists w1,
            add_lead env u b t n w = (w1, Ok (lead_id l)) /\
            leads (store w1) = leads (store w) /\
            leads_seq (store w1) = leads_seq (store w) + 1 /\
            conversations (store w1) =
              conversations (store w) ++
              [new_conversation (conversations_seq (store w) + 1)
                 (lead_id l)]).
  { unfold add_lead, add_lead_sqlite. rewrite Hb, Hl.
    eexists. split; [reflexivity|]. repeat split. }
  destruct Hrun as (w1 & Hrun & Hleads & Hseq & Hconv).
  assert (Hwf1 : store_wf (store w1)).
  { destruct Hwf as (Hnu & Hni & Hle & Hfk).
    unfold store_wf. rewrite Hleads, Hseq, Hconv.
    split; [exact Hnu|]. split; [exact Hni|]. split.
    - intros l0 Hin. specialize (Hle l0 Hin). lia.
    - intros c Hin. apply in_app_or in Hin as [Hin|[<-|[]]].
      + exact (Hfk c Hin).
      + exists l. split; [|reflexivity].
        now apply find_lead_username in Hl. }
  assert (Hv1 : find_lead v (store w1) = None).
  { unfold find_lead. rewrite Hleads. exact Hv. }
  destruct (add_lead_new_facts env w1 v b' t' n' Hb Hwf1 Hv1)
    as (w2 & Hrun2 & Hfound & _).
  rewrite Hseq in Hrun2, Hfound.
  replace (leads_seq (store w) + 1 + 1) with (leads_seq (store w) + 2)
    in Hrun2, Hfound by lia.
  exists w1. split; [exact Hrun|]. split; [exact Hleads|].
  split; [exact Hseq|]. split; [exact Hconv|]. split; [exact Hwf1|].
  exists w2. split; [exact Hrun2 | exact Hfound].
Qed.

(** Alice has id 1; added again, the call returns 1, and bob then gets
    id 3. *)
Lemma add_lead_existing_consumes_id_witness :
  exists w1 w2,
    add_lead Fixtures.env_sqlite Fixtures.alice (lit "coffee shop") []
      (lit "business") Fixtures.w_added = (w1, Ok 1) /\
    add_lead Fixtures.env_sqlite (lit "bob") (lit "bakery") []
      (lit "business") w1 = (w2, Ok 3).
Proof.
  destruct (add_lead_existing_consumes_id Fixtures.env_sqlite
              Fixtures.w_added Fixtures.alice (lit "coffee shop") []
              (lit "business")
              (new_lead 1 Fixtures.alice (lit "coffee shop") []
                 (lit "business"))
              (lit "bob") (lit "bakery") [] (lit "business"))
    as (w1 & Hrun & _ & _ & _ & _ & w2 & Hrun2 & _).
  - reflexivity.
  - unfold store_wf. simpl. repeat split.
    + constructor; [intros [] | constructor].
    + constructor; [intros [] | constructor].
    + intros l [<-|[]]. simpl. lia.
    + intros c [<-|[]]. eexists. split; [left; reflexivity | reflexivity].
  - reflexivity.
  - reflexivity.
  - exists w1, w2. split; [exact Hrun | exact Hrun2].
Defined.

End IntakeProps.

(** ** The singleton row *)

Module SingletonProps.

Import Run StoreFacts Scheduler.

(** X14. A database without the singleton row.  The pause test is false,
    today's count reads 0 and the age 1, so the send check always allows
    a send; a pause request changes nothing; the increment raises before
    writing.  A delivery therefore hands the message to the platform and
    then raises, with the store as it was: the message is sent but not
    counted, and the pass is aborted. *)
Theorem without_singleton_row (env : Env) (w : World) :
  bot_state (store w) = None ->
  can_send_dm env w = (w, Ok true) /\
  (forall d, exists w', pause_bot env d w = (w', Ok tt) /\
                        store w' = store w) /\
  increment_dm_count env w = (tick w, Raise TypeError) /\
  (forall u r,
     truthy r = true ->
     direct_send env (send_calls w) = true ->
     exists w',
       deliver env u (Some r) w = (w', Raise TypeError) /\
       outbox w' = outbox w ++ [(u, r)] /\
       store w' = store w).
Proof.
  intros Hb. split; [|split; [|split]].
  - unfold can_send_dm, is_bot_paused, get_dm_count_today,
      get_daily_dm_limit, get_account_age_days; step.
    repeat (rewrite Hb; simpl). reflexivity.
  - intros d. unfold pause_bot; step. eexists; split; [reflexivity|].
    simpl. unfold update_bot_state. rewrite Hb. simpl.
    destruct (store w); simpl in *; subst; reflexivity.
  - unfold increment_dm_count; step. rewrite Hb. reflexivity.
  - intros u r Hr Hsend. unfold deliver, send_dm. rewrite Hr.
    unfold bind at 1. rewrite Hsend.
    unfold increment_dm_count; step. rewrite Hb.
    eexists; split; [reflexivity|]. split; reflexivity.
Qed.

Lemma without_singleton_row_witness :
  increment_dm_count Fixtures.env_sqlite Fixtures.empty_world
  = (tick Fixtures.empty_world, Raise TypeError).
Proof.
  destruct (without_singleton_row Fixtures.env_sqlite Fixtures.empty_world
              eq_refl) as (_ & _ & H & _).
  exact H.
Defined.

(** X15. Initialising the database.  When the singleton row exists the
    store is left exactly as it is, so a restart keeps the pause, the
    counter and the dates; when it is absent the row is created with no
    pause, count 0, the current date of the database's calendar and no
    creation date.  Whether or not that date is the local date, today's
    count then reads 0 and the first increment returns normally with
    count 1.  A second initialisation changes nothing.  The local clock
    is not read. *)
Theorem init_database_keeps_row (env : Env) (w : World) :
  exists w1,
    init_database env w = (w1, Ok tt) /\
    ticks w1 = ticks w /\
    (forall b, bot_state (store w) = Some b -> store w1 = store w) /\
    (bot_state (store w) = None ->
       bot_state (store w1) =
         Some {| paused_until := None; total_dms_today := 0;
                 last_dm_date := Some (db_date env (db_ticks w));
                 account_created_date := None |} /\
       get_dm_count_today env w1 = (tick w1, Ok 0) /\
       exists w2 b2,
         increment_dm_count env w1 = (w2, Ok tt) /\
         bot_state (store w2) = Some b2 /\ total_dms_today b2 = 1) /\
    (forall w2, init_database env w1 = (w2, Ok tt) -> store w2 = store w1).
Proof.
  unfold init_database; step. eexists; split; [reflexivity|]. simpl.
  split; [reflexivity|].
  destruct (bot_state (store w)) as [b|] eqn:Hb.
  - split; [|split].
    + intros b' _. reflexivity.
    + discriminate.
    + intros w2 H. injection H as <-. simpl. rewrite Hb. reflexivity.
  - split; [discriminate|]. split.
    + intros _. split; [reflexivity|]. split.
      * unfold get_dm_count_today; step.
        destruct (_ =? _); reflexivity.
      * unfold increment_dm_count; step.
        destruct (_ =? _); step;
          eexists _, _; (split; [reflexivity|]); split; reflexivity.
    + intros w2 H. injection H as <-. reflexivity.
Qed.

(** A restart after alice's rejection keeps the store; a first start at
    02:00 in Tashkent stores the UTC date, the day before. *)
Lemma init_database_keeps_row_witness :
  (exists w1,
     init_database Fixtures.env_sqlite Fixtures.w_rejected = (w1, Ok tt) /\
     store w1 = store Fixtures.w_rejected) /\
  (exists w1 b,
     init_database Fixtures.env_tashkent Fixtures.empty_world = (w1, Ok tt) /\
     bot_state (store w1) = Some b /\
     last_dm_date b = Some 19731 /\
     get_dm_count_today Fixtures.env_tashkent w1 = (tick w1, Ok 0)).
Proof.
  split.
  - destruct (init_database_keeps_row Fixtures.env_sqlite
                Fixtures.w_rejected) as (w1 & Hrun & _ & Hkeep & _).
    exists w1. split; [exact Hrun|]. eapply Hkeep. reflexivity.
  - destruct (init_database_keeps_row Fixtures.env_tashkent
                Fixtures.empty_world) as (w1 & Hrun & _ & _ & Hnew & _).
    destruct (Hnew eq_refl) as (Hb & Hread & _).
    eexists w1, _. split; [exact Hrun|]. split; [exact Hb|].
    split; [reflexivity | exact Hread].
Defined.

End SingletonProps.

(** ** What a pass sends and counts *)

Module BudgetProps.

Import Run StringFacts StoreFacts ConversationManager Scheduler.

Lemma frames_ret {A X} (V : World -> X) (a : A) : frames V (ret a).
Proof. intros w w' r H; injection H as <- <-; reflexivity. Qed.

Lemma frames_raise {A X} (V : World -> X) (e : exn) :
  frames V (@raise A e).
Proof. intros w w' r H; injection H as <- <-; reflexivity. Qed.

Lemma frames_bind {A B X} (V : World -> X) (m : M A) (k : A -> M B) :
  frames V m -> (forall a, frames V (k a)) -> frames V (bind m k).
Proof.
  intros Hm Hk w w' r H. unfold bind in H.
  destruct (m w) as [w1 [a|e]] eqn:E.
  - rewrite (Hk a w1 w' r H). exact (Hm w w1 _ E).
  - injection H as <- <-. exact (Hm w w1 _ E).
Qed.

Lemma frames_gets {A X} (V : World -> X) (f : Store -> A) :
  frames V (gets f).
Proof. intros w w' r H; injection H as <- <-; reflexivity. Qed.

Lemma frames_modify {X} (V : World -> X) (f : Store -> Store) :
  (forall w, V (with_store (f (store w)) w) = V w) -> frames V (modify f).
Proof. intros Hf w w' r H; injection H as <- <-; apply Hf. Qed.

Lemma frames_world {A X} (V : World -> X) (m : M A) :
  (forall w, V (fst (m w)) = V w) -> frames V m.
Proof. intros Hm w w' r H. specialize (Hm w). rewrite H in Hm. exact Hm. Qed.

(** Break a computation into its binds and branches, trying [known] on
    each piece first. *)
Ltac frames_with known :=
  repeat first
    [ known
    | apply frames_ret
    | apply frames_raise
    | apply frames_gets
    | apply frames_bind; [|intros ?]
    | match goal with
      | |- frames _ (match ?x with _ => _ end) => destruct x
      | |- frames _ (if ?x then _ else _) => destruct x
      end ].

Lemma budget_modify_leads (v : pystr) (f : Lead -> Lead) :
  frames budget_view (modify (update_leads_where v f)).
Proof. apply frames_modify; reflexivity. Qed.

Lemma budget_modify_conversations (lid : Z) (f : Conversation -> Conversation) :
  frames budget_view (modify (update_conversations_where lid f)).
Proof. apply frames_modify; reflexivity. Qed.

Lemma budget_add_message (cid : Z) (r : Role) (text : pystr) :
  frames budget_view (add_message cid r text).
Proof. apply frames_modify; reflexivity. Qed.

Lemma budget_datetime_now (env : Env) : frames budget_view (datetime_now env).
Proof. apply frames_world; reflexivity. Qed.

Lemma budget_call_model (env : Env) :
  frames budget_view (Gemini.call_model env).
Proof. apply frames_world; reflexivity. Qed.

Lemma budget_pause_bot (env : Env) (d : Z) :
  frames budget_view (pause_bot env d).
Proof.
  unfold pause_bot. apply frames_bind; [apply budget_datetime_now|].
  intros t. apply frames_modify. intros w.
  unfold budget_view, counter_of; simpl.
  destruct (bot_state (store w)); reflexivity.
Qed.

Lemma budget_can_send_dm (env : Env) : frames budget_view (can_send_dm env).
Proof.
  unfold can_send_dm, is_bot_paused, get_dm_count_today, get_daily_dm_limit,
    get_account_age_days.
  frames_with ltac:(apply budget_datetime_now).
Qed.

Lemma budget_get_conversation_manager (u : pystr) :
  frames budget_view (get_conversation_manager u).
Proof.
  unfold get_conversation_manager, init, get_lead_by_username,
    get_conversation, get_conversation_history.
  frames_with fail.
Qed.

Lemma budget_should_respond (self : t) :
  frames budget_view (should_respond self).
Proof.
  unfold should_respond, _exit_politely, lead_id_of,
    update_conversation_state, update_lead_status.
  frames_with ltac:(first [apply budget_modify_leads | apply budget_modify_conversations]).
Qed.

Lemma budget_generate_reply (env : Env) (h : list Message) (l : Lead) :
  frames budget_view (Gemini.generate_reply env h l).
Proof.
  unfold Gemini.generate_reply, get_time_of_day.
  frames_with ltac:(first [apply budget_datetime_now | apply budget_call_model]).
Qed.

Lemma budget_generate_first_message (env : Env) (b t n : pystr) :
  frames budget_view (Gemini.generate_first_message env b t n).
Proof.
  unfold Gemini.generate_first_message, get_time_of_day.
  frames_with ltac:(first [apply budget_datetime_now | apply budget_call_model]).
Qed.

Lemma budget_process_user_reply (env : Env) (self : t) (message : pystr) :
  frames budget_view (process_user_reply env self message).
Proof.
  unfold process_user_reply, _handle_rejection, increment_rejections,
    lead_id_of, conversation_id_of, update_lead_score, reset_rejections,
    update_conversation_state, update_lead_status, increment_message_count,
    get_conversation_history.
  frames_with ltac:(first [ apply budget_modify_leads | apply budget_modify_conversations
          | apply budget_add_message | apply budget_pause_bot
          | apply budget_generate_reply ]).
Qed.

Lemma budget_first_message (env : Env) (self : t) :
  frames budget_view (generate_first_message env self).
Proof.
  unfold generate_first_message, conversation_id_of,
    increment_message_count, update_conversation_state, update_lead_status.
  frames_with ltac:(first [ apply budget_modify_leads | apply budget_modify_conversations
          | apply budget_add_message | apply budget_generate_first_message ]).
Qed.

(** *** What is handed to the platform *)

Lemma frames_outbox {A} (m : M A) : frames budget_view m -> frames outbox m.
Proof.
  intros Hm w w' r H. specialize (Hm w w' r H).
  unfold budget_view in Hm. congruence.
Qed.

Lemma outbox_increment_dm_count (env : Env) :
  frames outbox (increment_dm_count env).
Proof.
  unfold increment_dm_count.
  frames_with ltac:(first [ apply frames_world; reflexivity
                          | apply frames_modify; reflexivity ]).
Qed.

Lemma store_can_send_dm (env : Env) : frames store (can_send_dm env).
Proof.
  unfold can_send_dm, is_bot_paused, get_dm_count_today, get_daily_dm_limit,
    get_account_age_days.
  frames_with ltac:(apply frames_world; reflexivity).
Qed.

Lemma subseq_nil_l {A} (ys : list A) : subseq [] ys.
Proof. induction ys; constructor; assumption. Qed.

Lemma subseq_length {A} (xs ys : list A) :
  subseq xs ys -> (List.length xs <= List.length ys)%nat.
Proof. induction 1; simpl; lia. Qed.

Lemma subseq_incl {A} (xs ys : list A) :
  subseq xs ys -> forall x, In x xs -> In x ys.
Proof.
  induction 1 as [|xs y ys _ IH|x xs ys _ IH]; intros z Hz.
  - exact Hz.
  - right. exact (IH z Hz).
  - destruct Hz as [->|Hz]; [left; reflexivity | right; exact (IH z Hz)].
Qed.

Lemma subseq_occurrences (u : pystr) (xs ys : list pystr) :
  subseq xs ys -> (occurrences u xs <= occurrences u ys)%nat.
Proof.
  unfold occurrences.
  induction 1 as [|xs y ys _ IH|x xs ys _ IH]; simpl.
  - lia.
  - destruct (list_eq_dec N.eq_dec y u); lia.
  - destruct (list_eq_dec N.eq_dec x u); lia.
Qed.

Lemma sends_ok_nil (names : list pystr) : sends_ok names [].
Proof. split; [apply subseq_nil_l | constructor]. Qed.

Lemma sends_ok_take (names : list pystr) (u text : pystr)
  (k : list (pystr * pystr)) :
  truthy text = true -> sends_ok names k ->
  sends_ok (u :: names) ((u, text) :: k).
Proof.
  intros Ht [Hsub Hall]. split; [simpl; constructor; exact Hsub|].
  constructor; [exact Ht | exact Hall].
Qed.

Lemma sends_ok_skip (names : list pystr) (u : pystr)
  (k : list (pystr * pystr)) :
  sends_ok names k -> sends_ok (u :: names) k.
Proof. intros [Hsub Hall]. split; [constructor; exact Hsub | exact Hall]. Qed.

(** What [sends_ok] gives in terms of counting and membership. *)
Lemma sends_ok_bounds (names : list pystr) (k : list (pystr * pystr)) :
  sends_ok names k ->
  (List.length k <= List.length names)%nat /\
  Forall (fun p => In (fst p) names /\ truthy (snd p) = true) k.
Proof.
  intros [Hsub Hall]. split.
  - apply subseq_length in Hsub. rewrite length_map in Hsub. exact Hsub.
  - apply Forall_forall. intros p Hp. split.
    + apply (subseq_incl _ _ Hsub). apply in_map. exact Hp.
    + revert p Hp. apply Forall_forall. exact Hall.
Qed.

Lemma sends_only_ret (names : list pystr) : sends_only names (ret tt).
Proof.
  intros w w' r H. injection H as <- <-. exists [].
  split; [now rewrite app_nil_r | apply sends_ok_nil].
Qed.

Lemma sends_only_skip (names : list pystr) (u : pystr) (m : M unit) :
  sends_only names m -> sends_only (u :: names) m.
Proof.
  intros Hm w w' r H. destruct (Hm w w' r H) as (k & Ho & Hok).
  exists k. split; [exact Ho | now apply sends_ok_skip].
Qed.

Lemma sends_only_bind {A} (names : list pystr)
  (m : M A) (k : A -> M unit) :
  frames outbox m -> (forall a, sends_only names (k a)) ->
  sends_only names (bind m k).
Proof.
  intros Hm Hk w w' r H. unfold bind in H.
  destruct (m w) as [w1 [a|e]] eqn:E.
  - destruct (Hk a w1 w' r H) as (k' & Ho & Hok).
    exists k'. rewrite Ho, (Hm w w1 _ E). split; [reflexivity | exact Hok].
  - injection H as <- <-. exists []. rewrite (Hm w w1 _ E).
    split; [now rewrite app_nil_r | apply sends_ok_nil].
Qed.

(** A delivery to [u] followed by what is sent to [names]. *)
Lemma sends_only_deliver (env : Env) (names : list pystr)
  (u : pystr) (text : option pystr) (rest : M unit) :
  sends_only names rest ->
  sends_only (u :: names) (deliver env u text ;;; rest).
Proof.
  intros Hrest w w' r H.
  assert (Hskip : forall w0, rest w0 = (w', r) ->
            exists k, outbox w' = outbox w0 ++ k /\ sends_ok (u :: names) k).
  { intros w0 H0. exact (sends_only_skip names u rest Hrest w0 w' r H0). }
  unfold deliver in H.
  destruct text as [m|]; [|exact (Hskip w H)].
  destruct (truthy m) eqn:Ht; [|exact (Hskip w H)].
  unfold bind at 1 in H. unfold bind at 1 in H. unfold send_dm at 1 in H.
  destruct (direct_send env (send_calls w)) eqn:Hsend.
  - match type of H with
    | context [increment_dm_count env ?w1] =>
        destruct (increment_dm_count env w1) as [w2 [[]|e]] eqn:Hinc;
        pose proof (outbox_increment_dm_count env w1 w2 _ Hinc) as Ho2
    end; simpl in Ho2.
    + destruct (Hrest w2 w' r H) as (k & Ho & Hok).
      exists ((u, m) :: k). rewrite Ho, Ho2, <- app_assoc.
      split; [reflexivity | now apply sends_ok_take].
    + injection H as <- <-. exists [(u, m)]. rewrite Ho2.
      split; [reflexivity|]. apply sends_ok_take; [exact Ht|].
      apply sends_ok_nil.
  - simpl in H.
    match type of H with
    | rest ?w1 = _ => exact (Hskip w1 H)
    end.
Qed.

Lemma sends_only_inbox_loop (env : Env) (unread : list Unread) :
  sends_only (map msg_username unread) (inbox_loop env unread).
Proof.
  induction unread as [|msg rest IH]; cbn [inbox_loop map].
  { apply sends_only_ret. }
  apply sends_only_bind; [apply frames_outbox, budget_can_send_dm|].
  intros ok. destruct (negb ok); [apply sends_only_ret|].
  apply sends_only_bind;
    [apply frames_outbox, budget_get_conversation_manager|].
  intros manager.
  apply sends_only_bind; [apply frames_outbox, budget_should_respond|].
  intros respond. destruct (negb respond); [now apply sends_only_skip|].
  apply sends_only_bind; [apply frames_outbox, budget_process_user_reply|].
  intros response. apply sends_only_deliver. exact IH.
Qed.

Lemma sends_only_new_leads_loop (env : Env) (new_leads : list Lead) :
  sends_only (map username new_leads) (new_leads_loop env new_leads).
Proof.
  induction new_leads as [|lead rest IH]; cbn [new_leads_loop map].
  { apply sends_only_ret. }
  apply sends_only_bind; [apply frames_outbox, budget_can_send_dm|].
  intros ok. destruct (negb ok); [apply sends_only_ret|].
  apply sends_only_bind;
    [apply frames_outbox, budget_get_conversation_manager|].
  intros manager.
  apply sends_only_bind; [apply frames_outbox, budget_first_message|].
  intros message. apply sends_only_deliver. exact IH.
Qed.

(** The pass over the new leads works on the rows with status 'new' as
    the table holds them when the pass starts. *)
Lemma sends_only_process_new_leads (env : Env) (logged_in : bool)
  (w w' : World) (r : result unit) :
  process_new_leads env logged_in w = (w', r) ->
  exists k,
    outbox w' = outbox w ++ k /\
    sends_ok (map username (new_leads_of (store w))) k.
Proof.
  intros H.
  assert (Hnone : exists k,
            outbox w = outbox w ++ k /\
            sends_ok (map username (new_leads_of (store w))) k).
  { exists []. rewrite app_nil_r. split; [reflexivity | apply sends_ok_nil]. }
  unfold process_new_leads in H. unfold bind at 1 in H.
  destruct (can_send_dm env w) as [w1 [ok|e]] eqn:Hc;
    pose proof (frames_outbox _ (budget_can_send_dm env) w w1 _ Hc) as Ho1;
    pose proof (store_can_send_dm env w w1 _ Hc) as Hs1.
  - destruct ok; simpl in H.
    + destruct logged_in; simpl in H.
      * unfold bind at 1 in H. unfold get_leads_by_status, gets in H.
        rewrite Hs1 in H.
        change (filter _ (leads (store w))) with (new_leads_of (store w))
          in H.
        destruct (sends_only_new_leads_loop env _ w1 w' r H)
          as (k & Ho & Hok).
        exists k. rewrite Ho, Ho1. split; [reflexivity | exact Hok].
      * injection H as <- <-. rewrite Ho1. exact Hnone.
    + injection H as <- <-. rewrite Ho1. exact Hnone.
  - injection H as <- <-. rewrite Ho1. exact Hnone.
Qed.

(** X16. What a pass hands to the platform, whatever the environment does
    and whether the pass returns or raises.  The recipients of the inbox
    pass are the senders of the unread messages with some left out, in
    the same order: at most one message per unread message, each to its
    sender.  The pass over the new leads sends no more messages than
    there are rows with status 'new' when it starts, each to the user
    name of such a row, and no user name receives more messages than
    there are such rows carrying it.  No message sent is empty, and
    nothing already handed over is removed. *)
Theorem passes_send_only_to_their_users
  (env : Env) (logged_in : bool) (unread : list Unread)
  (w w' : World) (r : result unit) :
  (process_inbox env logged_in unread w = (w', r) ->
   exists k,
     outbox w' = outbox w ++ k /\
     subseq (map fst k) (map msg_username unread) /\
     (List.length k <= List.length unread)%nat /\
     Forall (fun p => In (fst p) (map msg_username unread) /\
                      truthy (snd p) = true) k) /\
  (process_new_leads env logged_in w = (w', r) ->
   exists k,
     outbox w' = outbox w ++ k /\
     (forall u,
        (occurrences u (map fst k)
         <= occurrences u (map username (new_leads_of (store w))))%nat) /\
     (List.length k <= List.length (new_leads_of (store w)))%nat /\
     Forall (fun p => In (fst p) (map username (new_leads_of (store w))) /\
                      truthy (snd p) = true) k).
Proof.
  split; intros H.
  - assert (Hk : exists k, outbox w' = outbox w ++ k /\
                           sends_ok (map msg_username unread) k).
    { unfold process_inbox in H. destruct logged_in; simpl in H.
      - exact (sends_only_inbox_loop env unread w w' r H).
      - injection H as <- <-. exists []. rewrite app_nil_r.
        split; [reflexivity | apply sends_ok_nil]. }
    destruct Hk as (k & Ho & Hok).
    destruct (sends_ok_bounds _ _ Hok) as [Hlen Hall].
    rewrite length_map in Hlen.
    exists k. split; [exact Ho|]. split; [exact (proj1 Hok)|].
    split; [exact Hlen | exact Hall].
  - destruct (sends_only_process_new_leads env logged_in w w' r H)
      as (k & Ho & Hok).
    destruct (sends_ok_bounds _ _ Hok) as [Hlen Hall].
    rewrite length_map in Hlen.
    exists k. split; [exact Ho|].
    split; [intros u; apply subseq_occurrences; exact (proj1 Hok)|].
    split; [exact Hlen | exact Hall].
Qed.

(** Alice, greeted, asks a question and gets the generator's reply, an
    unknown sender gets none; alice, new, is greeted once. *)
Lemma passes_send_only_to_their_users_witness :
  (exists w',
     process_inbox env_frozen true
       [ {| msg_username := lit "bob"; msg_message := lit "salom" |};
         {| msg_username := Fixtures.alice;
            msg_message := lit "bu nima degani?" |} ] Fixtures.w_greeted
     = (w', Ok tt) /\
     outbox w' = [(Fixtures.alice, lit "Salom!")]) /\
  (exists w',
     process_new_leads env_frozen true Fixtures.w_added = (w', Ok tt) /\
     outbox w' = [(Fixtures.alice, lit "Salom!")] /\
     occurrences Fixtures.alice (map fst (outbox w')) = 1%nat).
Proof.
  split.
  - eexists. split; [vm_compute; reflexivity|].
    edestruct (fun w' r =>
                 passes_send_only_to_their_users env_frozen true
                   [ {| msg_username := lit "bob";
                        msg_message := lit "salom" |};
                     {| msg_username := Fixtures.alice;
                        msg_message := lit "bu nima degani?" |} ]
                   Fixtures.w_greeted w' r) as [H _].
    destruct H as (k & Hk & _); [vm_compute; reflexivity|].
    reflexivity.
  - eexists. split; [vm_compute; reflexivity|].
    edestruct (fun w' r =>
                 passes_send_only_to_their_users env_frozen true []
                   Fixtures.w_added w' r) as [_ H].
    destruct H as (k & Hk & Hocc & _); [vm_compute; reflexivity|].
    split; [reflexivity|].
    specialize (Hocc Fixtures.alice).
    assert (E : k = [(Fixtures.alice, lit "Salom!")])
      by (revert Hk; vm_compute; intros E; exact (eq_sym E)).
    subst k. vm_compute in Hocc |- *. reflexivity.
Defined.

(** *** What is counted *)

Section OneDay.

Variables (env : Env) (today : Z).

(** Every reading of the local clock during the pass falls on one day,
    and the database's calendar shows that day. *)
Hypothesis same_day : forall n, date_of (now env n) = today.
Hypothesis db_same_day : forall n, db_date env n = today.

Lemma view_counter (w w' : World) :
  budget_view w' = budget_view w ->
  outbox w' = outbox w /\ counter_of w' = counter_of w.
Proof. unfold budget_view; intros H; injection H; auto. Qed.

Lemma counts_ok_refl (w w' : World) :
  counter_ready w -> budget_view w' = budget_view w ->
  counts_ok today w w' [].
Proof.
  intros Hr Hv. apply view_counter in Hv as [Ho Hc].
  unfold counts_ok, counter_ready, cap_on, sent_on in *. rewrite Ho, Hc.
  rewrite app_nil_r. simpl. rewrite Z.add_0_r.
  split; [reflexivity|]. split; [exact Hr|]. split; [reflexivity|].
  split; [reflexivity|]. split; [reflexivity|].
  split; [reflexivity|]. intros F; contradiction.
Qed.

Lemma counts_ok_from (w w1 w' : World) (k : list (pystr * pystr)) :
  budget_view w1 = budget_view w ->
  counts_ok today w1 w' k -> counts_ok today w w' k.
Proof.
  intros Hv. apply view_counter in Hv as [Ho Hc].
  unfold counts_ok, cap_on, sent_on. rewrite Ho, Hc. auto.
Qed.

Lemma ready_from (w w1 : World) :
  budget_view w1 = budget_view w -> counter_ready w -> counter_ready w1.
Proof.
  intros Hv. apply view_counter in Hv as [_ Hc].
  unfold counter_ready. rewrite Hc. auto.
Qed.

Lemma below_from (w w1 : World) :
  budget_view w1 = budget_view w -> below_cap today w -> below_cap today w1.
Proof.
  intros Hv. apply view_counter in Hv as [_ Hc].
  unfold below_cap, sent_on, cap_on. rewrite Hc. auto.
Qed.

Lemma within_cap_ret (P : World -> Prop) : within_cap today P (ret tt).
Proof.
  intros w w' r Hr _ H. injection H as <- <-. exists [].
  now apply counts_ok_refl.
Qed.

Lemma within_cap_weaken (P : World -> Prop) (m : M unit) :
  within_cap today (fun _ => True) m -> within_cap today P m.
Proof. intros Hm w w' r Hr _ H. exact (Hm w w' r Hr I H). Qed.

Lemma within_cap_bind {A} (P : World -> Prop) (m : M A) (k : A -> M unit) :
  (forall w w1, budget_view w1 = budget_view w -> P w -> P w1) ->
  frames budget_view m ->
  (forall a, within_cap today P (k a)) ->
  within_cap today P (bind m k).
Proof.
  intros HP Hm Hk w w' r Hr Hp H. unfold bind in H.
  destruct (m w) as [w1 [a|e]] eqn:E; pose proof (Hm w w1 _ E) as Hv.
  - destruct (Hk a w1 w' r (ready_from _ _ Hv Hr) (HP _ _ Hv Hp) H)
      as (k' & Hok).
    exists k'. exact (counts_ok_from _ _ _ _ Hv Hok).
  - injection H as <- <-. exists []. now apply counts_ok_refl.
Qed.

Lemma get_dm_count_today_value (w : World) (b : BotState) (d : Z) :
  bot_state (store w) = Some b ->
  last_dm_date b = Some d ->
  get_dm_count_today env w
  = (tick w, Ok (if d =? today then total_dms_today b else 0)).
Proof.
  intros Hb Hd. unfold get_dm_count_today; step. rewrite Hb, Hd. step.
  rewrite same_day. destruct (d =? today); reflexivity.
Qed.

Lemma get_daily_dm_limit_value (w : World) (b : BotState) :
  bot_state (store w) = Some b ->
  exists w',
    get_daily_dm_limit env w
    = (w', Ok (lookup_limit
                 (match account_created_date b with
                  | Some created => today - created
                  | None => 1
                  end) DM_LIMITS)).
Proof.
  intros Hb. unfold get_daily_dm_limit, get_account_age_days.
  unfold bind, gets, ret, datetime_now. rewrite Hb.
  destruct (account_created_date b); [rewrite same_day|];
    eexists; reflexivity.
Qed.

(** A send check that says yes found today's count below the cap. *)
Lemma can_send_true_below (w w1 : World) :
  counter_ready w ->
  can_send_dm env w = (w1, Ok true) ->
  below_cap today w.
Proof.
  intros (total & d & created & Hc) H.
  unfold counter_of in Hc.
  destruct (bot_state (store w)) as [b|] eqn:Hb; [|discriminate].
  simpl in Hc. injection Hc as Ht Hd Hcr.
  unfold below_cap, sent_on, cap_on, counter_of. rewrite Hb.
  cbn [option_map]. rewrite Hd.
  destruct (RateLimitProps.is_bot_paused_total env w) as (wa & p & Hp & Hsa).
  unfold can_send_dm in H. rewrite (bind_ok _ _ _ _ _ Hp) in H.
  destruct p; [discriminate|].
  rewrite <- Hsa in Hb.
  rewrite (bind_ok _ _ _ _ _ (get_dm_count_today_value wa b d Hb Hd)) in H.
  destruct (get_daily_dm_limit_value (tick wa) b Hb) as (wc & Hl).
  rewrite (bind_ok _ _ _ _ _ Hl) in H.
  destruct (account_created_date b) as [cr|];
    match type of H with
    | context [?a >=? ?b] => destruct (Z.geb_spec a b)
    end; try discriminate; lia.
Qed.

Lemma within_cap_check (m : M unit) :
  within_cap today (below_cap today) m ->
  within_cap today (fun _ => True)
    (ok <- can_send_dm env ;; if negb ok then ret tt else m).
Proof.
  intros Hm w w' r Hr _ H. unfold bind in H.
  destruct (can_send_dm env w) as [w1 [ok|e]] eqn:E;
    pose proof (budget_can_send_dm env w w1 _ E) as Hv.
  - destruct ok; simpl in H.
    + pose proof (can_send_true_below w w1 Hr E) as Hbelow.
      destruct (Hm w1 w' r (ready_from _ _ Hv Hr) (below_from _ _ Hv Hbelow) H)
        as (k & Hok).
      exists k. exact (counts_ok_from _ _ _ _ Hv Hok).
    + injection H as <- <-. exists []. now apply counts_ok_refl.
  - injection H as <- <-. exists []. now apply counts_ok_refl.
Qed.

(** A delivery either leaves the view alone or sends one message and
    counts it for today. *)
Lemma deliver_counts (u : pystr) (text : option pystr) (w w' : World)
  (r : result unit) :
  counter_ready w ->
  deliver env u text w = (w', r) ->
  budget_view w' = budget_view w \/
  (exists m total d created,
     text = Some m /\ truthy m = true /\ r = Ok tt /\
     outbox w' = outbox w ++ [(u, m)] /\
     counter_of w = Some (total, Some d, created) /\
     counter_of w' =
       Some ((if d =? today then total else 0) + 1, Some today, created)).
Proof.
  intros (total & d & created & Hc) H.
  unfold deliver in H.
  destruct text as [m|]; [|injection H as <- <-; left; reflexivity].
  destruct (truthy m) eqn:Ht; [|injection H as <- <-; left; reflexivity].
  unfold bind, send_dm in H.
  destruct (direct_send env (send_calls w)) eqn:Hs.
  2:{ injection H as <- <-. left. reflexivity. }
  right. exists m, total, d, created.
  unfold counter_of in Hc.
  destruct (bot_state (store w)) as [b|] eqn:Hb; [|discriminate].
  simpl in Hc. injection Hc as Htot Hd Hcr.
  revert H. unfold increment_dm_count. step. rewrite Hb, Hd.
  rewrite same_day.
  unfold counter_of.
  destruct (Z.eqb_spec d today) as [->|Hne]; step;
    intros H; injection H as <- <-; simpl;
    unfold update_bot_state; simpl; rewrite ?Hb; simpl;
    rewrite ?db_same_day, ?Hd, ?Htot, ?Hcr; repeat split;
    first [exact Ht | reflexivity].
Qed.

Lemma within_cap_deliver (u : pystr) (text : option pystr) (rest : M unit) :
  within_cap today (fun _ => True) rest ->
  within_cap today (below_cap today) (deliver env u text ;;; rest).
Proof.
  intros Hrest w w' r Hr Hbelow H. unfold bind in H.
  destruct (deliver env u text w) as [w1 [[]|e]] eqn:E;
    destruct (deliver_counts u text w w1 _ Hr E)
      as [Hv | (m & total & d & created & -> & Ht & Hok & Ho & Hc & Hc1)];
    try discriminate.
  - destruct (Hrest w1 w' r (ready_from _ _ Hv Hr) I H) as (k & Hk).
    exists k. exact (counts_ok_from _ _ _ _ Hv Hk).
  - assert (Hr1 : counter_ready w1) by (eexists _, _, _; exact Hc1).
    destruct (Hrest w1 w' r Hr1 I H)
      as (k & Ho' & Hr' & Hcr' & Hcap' & Hsent' & Hnil' & Hcons').
    assert (Hcap1 : cap_on today w1 = cap_on today w)
      by (unfold cap_on; rewrite Hc, Hc1; reflexivity).
    assert (Hcr1 : option_map snd (counter_of w1)
                   = option_map snd (counter_of w))
      by (rewrite Hc, Hc1; reflexivity).
    assert (Hsent1 : sent_on today w1 = sent_on today w + 1).
    { unfold sent_on. rewrite Hc, Hc1, Z.eqb_refl. reflexivity. }
    exists ((u, m) :: k). unfold counts_ok.
    rewrite Ho', Ho, <- app_assoc. split; [reflexivity|].
    split; [exact Hr'|]. split; [congruence|]. split; [congruence|]. split.
    { rewrite Hsent', Hsent1. cbn [List.length]. lia. }
    split; [discriminate|]. intros _.
    unfold below_cap in Hbelow.
    destruct k as [|p k].
    + specialize (Hnil' eq_refl). split.
      * unfold sent_on at 1. rewrite Hnil'. fold (sent_on today w1). lia.
      * rewrite Hnil', Hc1. eauto.
    + destruct Hcons' as [Hle Hdate]; [discriminate|].
      split; [lia | exact Hdate].
  - injection H as <- <-. exists []. now apply counts_ok_refl.
Qed.

Lemma within_cap_inbox_loop (unread : list Unread) :
  within_cap today (fun _ => True) (inbox_loop env unread).
Proof.
  induction unread as [|msg rest IH]; cbn [inbox_loop].
  { apply within_cap_ret. }
  apply within_cap_check.
  apply within_cap_bind;
    [apply below_from | apply budget_get_conversation_manager|].
  intros manager.
  apply within_cap_bind; [apply below_from | apply budget_should_respond|].
  intros respond.
  destruct (negb respond); [now apply within_cap_weaken|].
  apply within_cap_bind;
    [apply below_from | apply budget_process_user_reply|].
  intros response. apply within_cap_deliver. exact IH.
Qed.

Lemma within_cap_new_leads_loop (new_leads : list Lead) :
  within_cap today (fun _ => True) (new_leads_loop env new_leads).
Proof.
  induction new_leads as [|lead rest IH]; cbn [new_leads_loop].
  { apply within_cap_ret. }
  apply within_cap_check.
  apply within_cap_bind;
    [apply below_from | apply budget_get_conversation_manager|].
  intros manager.
  apply within_cap_bind; [apply below_from | apply budget_first_message|].
  intros message. apply within_cap_deliver. exact IH.
Qed.

Lemma within_cap_process_inbox (logged_in : bool) (unread : list Unread) :
  within_cap today (fun _ => True) (process_inbox env logged_in unread).
Proof.
  unfold process_inbox. destruct (negb logged_in);
    [apply within_cap_ret | apply within_cap_inbox_loop].
Qed.

Lemma within_cap_process_new_leads (logged_in : bool) :
  within_cap today (fun _ => True) (process_new_leads env logged_in).
Proof.
  unfold process_new_leads.
  apply within_cap_check.
  destruct (negb logged_in); [apply within_cap_ret|].
  apply within_cap_bind; [apply below_from | apply frames_gets|].
  intros new_leads. apply within_cap_weaken, within_cap_new_leads_loop.
Qed.

End OneDay.

(** X17. The daily cap holds over a pass while the two calendars agree.
    Let every reading of the local clock during the pass fall on one day,
    let the database's calendar show that same day whenever it is asked,
    and let the singleton row store a last-send date.  Then, whether the
    inbox pass or the pass over the new leads returns or raises: every
    message handed to the platform was counted, so today's count grew by
    the number of messages sent; if none was sent the counter is
    untouched; if any was sent the counter is dated today and today's
    count is at most the cap for the account's age. *)
Theorem passes_respect_daily_cap
  (env : Env) (today : Z) (logged_in : bool) (unread : list Unread)
  (w w' : World) (r : result unit) (b : BotState) (d : Z) :
  (forall n, date_of (now env n) = today) ->
  (forall n, db_date env n = today) ->
  bot_state (store w) = Some b ->
  last_dm_date b = Some d ->
  process_inbox env logged_in unread w = (w', r) \/
  process_new_leads env logged_in w = (w', r) ->
  let sent := if d =? today then total_dms_today b else 0 in
  let cap :=
    lookup_limit
      (match account_created_date b with
       | Some created => today - created
       | None => 1
       end) DM_LIMITS in
  exists k b',
    outbox w' = outbox w ++ k /\
    bot_state (store w') = Some b' /\
    account_created_date b' = account_created_date b /\
    (k = [] ->
       total_dms_today b' = total_dms_today b /\
       last_dm_date b' = last_dm_date b) /\
    (k <> [] ->
       last_dm_date b' = Some today /\
       total_dms_today b' = sent + Z.of_nat (List.length k) /\
       total_dms_today b' <= cap).
Proof.
  intros Hday Hdb Hb Hd Hrun sent cap.
  assert (Hready : counter_ready w).
  { unfold counter_ready, counter_of. rewrite Hb. simpl. rewrite Hd. eauto. }
  assert (Hok : exists k, counts_ok today w w' k).
  { destruct Hrun as [H|H].
    - exact (within_cap_process_inbox env today Hday Hdb logged_in unread
               w w' r Hready I H).
    - exact (within_cap_process_new_leads env today Hday Hdb logged_in
               w w' r Hready I H). }
  destruct Hok
    as (k & Ho & (t' & d' & c' & Hc') & Hcr & Hcap & Hsent & Hnil & Hcons).
  assert (Hsent0 : sent_on today w = sent).
  { unfold sent_on, counter_of. rewrite Hb. simpl. rewrite Hd. reflexivity. }
  assert (Hcap0 : cap_on today w = cap).
  { unfold cap_on, counter_of. rewrite Hb. simpl.
    destruct (account_created_date b); reflexivity. }
  unfold counter_of in Hc'.
  destruct (bot_state (store w')) as [b'|] eqn:Hb'; [|discriminate].
  simpl in Hc'. injection Hc' as Ht' Hd' Hcr'.
  assert (Hacd : account_created_date b' = account_created_date b).
  { unfold counter_of in Hcr. rewrite Hb, Hb' in Hcr. simpl in Hcr.
    congruence. }
  exists k, b'. split; [exact Ho|]. split; [reflexivity|].
  split; [exact Hacd|]. split.
  - intros Hk. specialize (Hnil Hk). unfold counter_of in Hnil.
    rewrite Hb, Hb' in Hnil. simpl in Hnil. split; congruence.
  - intros Hk. destruct (Hcons Hk) as (Hle & tt' & cc' & Hcc).
    unfold counter_of in Hcc. rewrite Hb' in Hcc. simpl in Hcc.
    injection Hcc as _ Hdate _.
    assert (Hs' : sent_on today w' = total_dms_today b').
    { unfold sent_on, counter_of. rewrite Hb'. simpl.
      rewrite Hdate, Z.eqb_refl. reflexivity. }
    split; [exact Hdate|]. split; lia.
Qed.

(** Alice is new; the pass over the new leads greets her and counts one. *)
Lemma passes_respect_daily_cap_witness :
  exists w' b',
    process_new_leads env_frozen true Fixtures.w_added = (w', Ok tt) /\
    bot_state (store w') = Some b' /\
    total_dms_today b' = 1 /\ total_dms_today b' <= 8.
Proof.
  edestruct (fun w' r b d =>
               passes_respect_daily_cap env_frozen 19732 true []
                 Fixtures.w_added w' r b d)
    as (k & b' & Ho & Hb' & _ & _ & Hsent).
  - intros n. reflexivity.
  - intros n. reflexivity.
  - reflexivity.
  - reflexivity.
  - right. vm_compute. reflexivity.
  - eexists. exists b'. split; [vm_compute; reflexivity|].
    split; [exact Hb'|].
    assert (Hk : k = [(Fixtures.alice, lit "Salom!")]).
    { revert Ho. vm_compute. intros E. exact (eq_sym E). }
    destruct Hsent as (_ & Ht & Hle); [rewrite Hk; discriminate|].
    rewrite Hk in Ht. split; [exact Ht | exact Hle].
Defined.

End BudgetProps.

(** ** The kill-switch under the inbox pass *)

Module SettledProps.

Import Run StringFacts StoreFacts ConversationManager Scheduler BudgetProps.

Lemma NoDup_map_eq {A B} (f : A -> B) (xs : list A) (a b : A) :
  NoDup (map f xs) -> In a xs -> In b xs -> f a = f b -> a = b.
Proof.
  induction xs as [|x xs IH]; simpl; [intros _ []|].
  intros Hnd Ha Hb Hf. inversion Hnd as [|? ? Hnotin Hnd']; subst.
  destruct Ha as [->|Ha], Hb as [->|Hb]; auto.
  - exfalso. apply Hnotin. rewrite Hf. now apply in_map.
  - exfalso. apply Hnotin. rewrite <- Hf. now apply in_map.
Qed.

(** A write to the rows of one user: the lead rows of [v] go through [g],
    the conversation rows of lead [lid] through [h], and either the rows
    of [v] end with no rejection counted or the conversations of [lid]
    end in a terminal state. *)
Lemma settled_update
  (s s' : Store) (v : pystr) (lv : Lead)
  (g : Lead -> Lead) (h : Conversation -> Conversation) :
  counters_settled s ->
  find_lead v s = Some lv ->
  leads s' = map g (leads s) ->
  conversations s' = map h (conversations s) ->
  (forall x, username (g x) = username x /\ lead_id (g x) = lead_id x) ->
  (forall x, username x <> v -> g x = x) ->
  (forall y, conv_lead_id (h y) = conv_lead_id y) ->
  (forall y, conv_lead_id y <> lead_id lv -> h y = y) ->
  (forall x, username x = v -> consecutive_rejections (g x) = 0) \/
  (forall y, conv_lead_id y = lead_id lv ->
             is_terminal (state (h y)) = true) ->
  counters_settled s'.
Proof.
  intros [[Hnu Hni] Hzero] Hlv Hleads Hconvs Hg Hgo Hh Hho Hend.
  apply find_lead_username in Hlv as [Hlvu Hlvin].
  split; [split|].
  - rewrite Hleads, map_map.
    rewrite (map_ext _ username); [exact Hnu | intros x; apply Hg].
  - rewrite Hleads, map_map.
    rewrite (map_ext _ lead_id); [exact Hni | intros x; apply Hg].
  - intros l' c' Hl' Hc' Hid Hopen.
    rewrite Hleads in Hl'. apply in_map_iff in Hl' as (x & <- & Hx).
    rewrite Hconvs in Hc'. apply in_map_iff in Hc' as (y & <- & Hy).
    destruct (Hg x) as [Hgu Hgi]. rewrite Hh, Hgi in Hid.
    destruct (PyStr.eqb (username x) v) eqn:E.
    + apply eqb_eq in E.
      assert (x = lv).
      { apply (NoDup_map_eq username (leads s)); auto. congruence. }
      subst x.
      destruct Hend as [Hz | Ht]; [now apply Hz|].
      rewrite (Ht y Hid) in Hopen. discriminate.
    + assert (Hxv : username x <> v).
      { intros F. rewrite F, eqb_refl in E. discriminate. }
      rewrite (Hgo x Hxv).
      assert (Hne : conv_lead_id y <> lead_id lv).
      { intros F. apply Hxv. rewrite <- Hlvu. f_equal.
        apply (NoDup_map_eq lead_id (leads s)); auto. congruence. }
      rewrite (Hho y Hne) in Hopen.
      apply (Hzero x y); auto.
Qed.

(** A write that touches neither the leads nor the conversations. *)
Lemma settled_same_tables (s s' : Store) :
  leads s' = leads s -> conversations s' = conversations s ->
  counters_settled s -> counters_settled s'.
Proof.
  intros Hl Hc [[Hnu Hni] Hz]. unfold counters_settled, keys_ok.
  rewrite Hl, Hc. auto.
Qed.

(** *** The tables after the keyed updates *)

Lemma leads_update_leads v f s :
  leads (update_leads_where v f s) = map (on_user v f) (leads s).
Proof. reflexivity. Qed.

Lemma leads_update_conversations lid f s :
  leads (update_conversations_where lid f s) = leads s.
Proof. reflexivity. Qed.

Lemma leads_update_bot_state f s : leads (update_bot_state f s) = leads s.
Proof. reflexivity. Qed.

Lemma leads_set_messages ms s : leads (set_messages ms s) = leads s.
Proof. reflexivity. Qed.

Lemma conversations_update_leads v f s :
  conversations (update_leads_where v f s) = conversations s.
Proof. reflexivity. Qed.

Lemma conversations_update_conversations lid f s :
  conversations (update_conversations_where lid f s)
  = map (on_lead lid f) (conversations s).
Proof. reflexivity. Qed.

Lemma conversations_update_bot_state f s :
  conversations (update_bot_state f s) = conversations s.
Proof. reflexivity. Qed.

Lemma conversations_set_messages ms s :
  conversations (set_messages ms s) = conversations s.
Proof. reflexivity. Qed.

Create Rewrite HintDb tables.

#[export] Hint Rewrite
  leads_update_leads leads_update_conversations leads_update_bot_state
  leads_set_messages conversations_update_leads
  conversations_update_conversations conversations_update_bot_state
  conversations_set_messages : tables.

Lemma on_user_compose (v : pystr) (f1 f2 : Lead -> Lead) (ls : list Lead) :
  (forall x, username (f1 x) = username x) ->
  map (on_user v f2) (map (on_user v f1) ls)
  = map (on_user v (fun x => f2 (f1 x))) ls.
Proof.
  intros Hf. rewrite map_map. apply map_ext. intros x. unfold on_user.
  destruct (PyStr.eqb (username x) v) eqn:E; [rewrite Hf|]; rewrite E;
    reflexivity.
Qed.

Lemma on_lead_compose (lid : Z) (f1 f2 : Conversation -> Conversation)
  (cs : list Conversation) :
  (forall y, conv_lead_id (f1 y) = conv_lead_id y) ->
  map (on_lead lid f2) (map (on_lead lid f1) cs)
  = map (on_lead lid (fun y => f2 (f1 y))) cs.
Proof.
  intros Hf. rewrite map_map. apply map_ext. intros y. unfold on_lead.
  destruct (conv_lead_id y =? lid) eqn:E; [rewrite Hf|]; rewrite E;
    reflexivity.
Qed.

Lemma on_user_id (v : pystr) (ls : list Lead) :
  map (on_user v (fun x => x)) ls = ls.
Proof.
  rewrite <- (map_id ls) at 2. apply map_ext. intros x. unfold on_user.
  destruct (PyStr.eqb (username x) v); reflexivity.
Qed.

Lemma on_lead_id (lid : Z) (cs : list Conversation) :
  map (on_lead lid (fun y => y)) cs = cs.
Proof.
  rewrite <- (map_id cs) at 2. apply map_ext. intros y. unfold on_lead.
  destruct (conv_lead_id y =? lid); reflexivity.
Qed.

(** The form of [settled_update] the paths of the state machine use: the
    rows of [v] go through [fl], the conversations of its lead through
    [fc]. *)
Lemma settled_path
  (s s' : Store) (v : pystr) (lv : Lead)
  (fl : Lead -> Lead) (fc : Conversation -> Conversation) :
  counters_settled s ->
  find_lead v s = Some lv ->
  leads s' = map (on_user v fl) (leads s) ->
  conversations s' = map (on_lead (lead_id lv) fc) (conversations s) ->
  (forall x, username (fl x) = username x /\ lead_id (fl x) = lead_id x) ->
  (forall y, conv_lead_id (fc y) = conv_lead_id y) ->
  (forall x, consecutive_rejections (fl x) = 0) \/
  (forall y, is_terminal (state (fc y)) = true) ->
  counters_settled s'.
Proof.
  intros Hs Hlv Hl Hc Hfl Hfc Hend.
  apply (settled_update s s' v lv (on_user v fl) (on_lead (lead_id lv) fc));
    auto.
  - intros x. unfold on_user. destruct (PyStr.eqb (username x) v); auto.
  - intros x Hx. unfold on_user.
    destruct (PyStr.eqb (username x) v) eqn:E; [|reflexivity].
    apply eqb_eq in E. contradiction.
  - intros y. unfold on_lead. destruct (conv_lead_id y =? lead_id lv); auto.
  - intros y Hy. unfold on_lead.
    destruct (Z.eqb_spec (conv_lead_id y) (lead_id lv)); [contradiction|].
    reflexivity.
  - destruct Hend as [Hz|Ht]; [left|right].
    + intros x Hx. unfold on_user. rewrite Hx, eqb_refl. apply Hz.
    + intros y Hy. unfold on_lead. rewrite Hy, Z.eqb_refl. apply Ht.
Qed.

(** *** The stages of one iteration of the inbox loop *)

Lemma init_built (v : pystr) (w : World) :
  get_conversation_manager v w = (w, Ok (built v (store w))).
Proof.
  unfold get_conversation_manager, init, get_lead_by_username,
    get_conversation, get_conversation_history, built; step.
  destruct (find_lead v (store w)) as [l|]; step; [|reflexivity].
  destruct (find_conversation (lead_id l) (store w)); reflexivity.
Qed.

Lemma built_username (v : pystr) (s : Store) : self_username (built v s) = v.
Proof.
  unfold built. destruct (find_lead v s) as [l|]; [|reflexivity].
  destruct (find_conversation (lead_id l) s); reflexivity.
Qed.

Lemma built_lead (v : pystr) (s : Store) :
  self_lead (built v s) = find_lead v s.
Proof.
  unfold built. destruct (find_lead v s) as [l|]; [|reflexivity].
  destruct (find_conversation (lead_id l) s); reflexivity.
Qed.

Lemma built_conversation (v : pystr) (s : Store) (l : Lead) :
  find_lead v s = Some l ->
  self_conversation (built v s) = find_conversation (lead_id l) s.
Proof.
  intros Hl. unfold built. rewrite Hl.
  destruct (find_conversation (lead_id l) s); reflexivity.
Qed.

Lemma settled_view (w w' : World) :
  tables_view w' = tables_view w ->
  counters_settled (store w) ->
  counters_settled (store w') /\ pause_of w' = pause_of w.
Proof.
  unfold tables_view, pause_of. intros H Hs. injection H as Hl Hc Hp.
  split; [|exact Hp]. eapply settled_same_tables; eauto.
Qed.

Lemma tables_deliver (env : Env) (u : pystr) (text : option pystr) :
  frames tables_view (deliver env u text).
Proof.
  unfold deliver, increment_dm_count.
  frames_with
    ltac:(first [ apply frames_world; reflexivity
                | apply frames_modify; intros w; unfold tables_view; simpl;
                  destruct (bot_state (store w)); reflexivity ]).
Qed.

Lemma tables_can_send_dm (env : Env) : frames tables_view (can_send_dm env).
Proof.
  intros w w' r H. unfold tables_view.
  rewrite (store_can_send_dm env w w' r H). reflexivity.
Qed.

(** Leaving a conversation because of a low score. *)
Lemma exit_settles (v : pystr) (lv : Lead) (w : World) :
  counters_settled (store w) ->
  find_lead v (store w) = Some lv ->
  exists w',
    _exit_politely (built v (store w)) w = (w', Ok tt) /\
    counters_settled (store w') /\ pause_of w' = pause_of w.
Proof.
  intros Hs Hlv.
  unfold _exit_politely, lead_id_of, update_conversation_state,
    update_lead_status.
  rewrite built_lead, Hlv, built_username. step.
  eexists; split; [reflexivity|]. simpl. split; [|reflexivity].
  eapply (settled_path (store w) _ v lv); [exact Hs | exact Hlv | | | | |].
  - autorewrite with tables. reflexivity.
  - autorewrite with tables. reflexivity.
  - intros x; split; reflexivity.
  - intros y; reflexivity.
  - right. intros y; reflexivity.
Qed.

(** The check before the reply: a yes changes nothing. *)
Lemma should_respond_settles (v : pystr) (w w' : World) (r : result bool) :
  counters_settled (store w) ->
  should_respond (built v (store w)) w = (w', r) ->
  (r = Ok true /\ w' = w /\
   is_terminal (get_state (built v (store w))) = false) \/
  (r = Ok false /\ counters_settled (store w') /\ pause_of w' = pause_of w).
Proof.
  intros Hs H. unfold should_respond in H.
  destruct (is_terminal (get_state (built v (store w)))) eqn:T.
  { injection H as <- <-. right. auto. }
  rewrite built_lead in H.
  destruct (find_lead v (store w)) as [lv|] eqn:Hlv.
  2:{ injection H as <- <-. left. auto. }
  destruct (confidence_score lv <? SCORE_THRESHOLD).
  - destruct (exit_settles v lv w Hs Hlv) as (w1 & Hexit & Hs1 & Hp1).
    rewrite (bind_ok _ _ _ _ _ Hexit) in H. injection H as <- <-.
    right. auto.
  - injection H as <- <-. left. auto.
Qed.

Lemma open_conversation_zero (s : Store) (lv : Lead) (cv : Conversation)
  (v : pystr) :
  counters_settled s ->
  find_lead v s = Some lv ->
  find_conversation (lead_id lv) s = Some cv ->
  is_terminal (state cv) = false ->
  consecutive_rejections lv = 0.
Proof.
  intros [_ Hz] Hlv Hcv Hopen.
  apply find_lead_username in Hlv as [_ Hin].
  pose proof (find_conversation_lead_id _ _ _ Hcv) as Hid.
  apply find_some_holds in Hcv as [_ Hcin].
  exact (Hz lv cv Hin Hcin Hid Hopen).
Qed.

(** The reply path, entered after the check said yes. *)
Lemma reply_settles (env : Env) (v text : pystr) (w w' : World)
  (r : result (option pystr)) :
  counters_settled (store w) ->
  is_terminal (get_state (built v (store w))) = false ->
  process_user_reply env (built v (store w)) text w = (w', r) ->
  counters_settled (store w') /\ pause_of w' = pause_of w.
Proof.
  intros Hs Hopen H. unfold process_user_reply in H.
  rewrite built_lead in H.
  destruct (find_lead v (store w)) as [lv|] eqn:Hlv.
  2:{ injection H as <- <-. auto. }
  rewrite (built_conversation v (store w) lv Hlv) in H.
  unfold get_state in Hopen.
  rewrite (built_conversation v (store w) lv Hlv) in Hopen.
  destruct (find_conversation (lead_id lv) (store w)) as [cv|] eqn:Hcv.
  2:{ injection H as <- <-. auto. }
  pose proof (open_conversation_zero _ _ _ _ Hs Hlv Hcv Hopen) as Hzero.
  rewrite built_username in H.
  destruct (is_rejection (analyze_user_response (lower env) text)) eqn:Hrej.
  - (* rejection: the counter goes from 0 to 1, below the limit *)
    revert H.
    unfold _handle_rejection, increment_rejections, lead_id_of,
      conversation_id_of, update_conversation_state, update_lead_status,
      update_lead_score, pause_bot, add_message.
    rewrite built_lead, Hlv, built_username,
      (built_conversation v (store w) lv Hlv), Hcv.
    step.
    repeat (rewrite find_lead_update_same by reflexivity;
            autorewrite with store).
    rewrite Hlv. simpl. rewrite Hzero. simpl.
    intros H; injection H as <- <-. simpl. split; [|reflexivity].
    eapply (settled_path (store w) _ v lv); [exact Hs | exact Hlv | | | | |].
    + autorewrite with tables.
      rewrite !on_user_compose by (intros; reflexivity). reflexivity.
    + autorewrite with tables. reflexivity.
    + intros x; split; reflexivity.
    + intros y; reflexivity.
    + right. intros y; reflexivity.
  - (* a reply: the counter is reset *)
    revert H.
    unfold add_message, update_lead_score, reset_rejections,
      get_message_count, get_conversation_history,
      update_conversation_state, increment_message_count.
    rewrite (built_conversation v (store w) lv Hlv), Hcv.
    unfold bind at 1. unfold modify at 1. cbv iota beta.
    unfold bind at 1. unfold modify at 1. cbv iota beta.
    unfold bind at 1. unfold modify at 1. cbv iota beta.
    destruct (message_count cv >=? 3);
      (unfold bind at 1; unfold modify at 1; cbv iota beta);
      (unfold bind at 1; unfold gets at 1; cbv iota beta);
      rewrite (bind_ok _ _ _ _ _
                 (ReplyProps.generate_reply_result env _ _ _));
      match goal with
      | |- context [truthy ?x] => destruct (truthy x)
      end; step; intros H; injection H as <- <-; simpl;
      (split; [|reflexivity]);
      (eapply (settled_path (store w) _ v lv);
       [ exact Hs | exact Hlv
       | autorewrite with tables;
         rewrite ?on_user_compose by (intros; reflexivity); reflexivity
       | autorewrite with tables;
         rewrite ?on_lead_compose by (intros; reflexivity); reflexivity
       | intros x; split; reflexivity
       | intros y; reflexivity
       | left; intros x; reflexivity ]).
Qed.

Lemma settles_inbox_loop (env : Env) (unread : list Unread) :
  settles (inbox_loop env unread).
Proof.
  induction unread as [|msg rest IH]; cbn [inbox_loop];
    intros w w' r Hs H.
  { injection H as <- <-. auto. }
  unfold bind at 1 in H.
  destruct (can_send_dm env w) as [w1 [ok|e]] eqn:Hsend;
    pose proof (tables_can_send_dm env w w1 _ Hsend) as Hv1;
    destruct (settled_view w w1 Hv1 Hs) as [Hs1 Hp1].
  2:{ injection H as <- <-. auto. }
  destruct ok; cbn [negb] in H.
  2:{ injection H as <- <-. auto. }
  rewrite (bind_ok _ _ _ _ _ (init_built (msg_username msg) w1)) in H.
  unfold bind at 1 in H.
  destruct (should_respond (built (msg_username msg) (store w1)) w1)
    as [w2 rr] eqn:Hresp.
  destruct (should_respond_settles _ _ _ _ Hs1 Hresp)
    as [(-> & -> & Hopen) | (-> & Hs2 & Hp2)]; cbn [negb] in H.
  - unfold bind at 1 in H.
    destruct (process_user_reply env (built (msg_username msg) (store w1))
                (msg_message msg) w1) as [w3 [response|e]] eqn:Hreply;
      destruct (reply_settles env _ _ _ _ _ Hs1 Hopen Hreply) as [Hs3 Hp3].
    2:{ injection H as <- <-. split; [exact Hs3 | congruence]. }
    unfold bind at 1 in H.
    destruct (deliver env (msg_username msg) response w3)
      as [w4 [[]|e]] eqn:Hdel;
      pose proof (tables_deliver env _ _ w3 w4 _ Hdel) as Hv4;
      destruct (settled_view w3 w4 Hv4 Hs3) as [Hs4 Hp4].
    2:{ injection H as <- <-. split; [exact Hs4 | congruence]. }
    destruct (IH w4 w' r Hs4 H) as [Hs' Hp'].
    split; [exact Hs' | congruence].
  - destruct (IH w2 w' r Hs2 H) as [Hs' Hp'].
    split; [exact Hs' | congruence].
Qed.

(** X18. The kill-switch is out of reach of the inbox pass.  Let user
    names and lead ids be unique and let no lead with a conversation
    outside REJECTED and EXITED have a rejection counted.  Then, whatever
    messages the pass finds and whatever the environment does, the same
    holds after the pass and the stored pause is what it was: the check
    before the reply lets a lead be rejected only once, so its counter
    stops at 1, below the limit of 2. *)
Theorem inbox_pass_never_pauses
  (env : Env) (logged_in : bool) (unread : list Unread)
  (w w' : World) (r : result unit) :
  counters_settled (store w) ->
  process_inbox env logged_in unread w = (w', r) ->
  counters_settled (store w') /\
  option_map paused_until (bot_state (store w'))
    = option_map paused_until (bot_state (store w)) /\
  CONSECUTIVE_REJECTIONS_LIMIT = 2.
Proof.
  intros Hs H. unfold process_inbox in H.
  destruct logged_in; simpl in H.
  - destruct (settles_inbox_loop env unread w w' r Hs H) as [Hs' Hp].
    split; [exact Hs'|]. split; [exact Hp | reflexivity].
  - injection H as <- <-. split; [exact Hs|]. split; reflexivity.
Qed.

Lemma w_greeted_settled : counters_settled (store Fixtures.w_greeted).
Proof.
  split; [split|].
  - simpl. constructor; [intros [] | constructor].
  - simpl. constructor; [intros [] | constructor].
  - intros l c [<-|[]] [<-|[]] _ _. reflexivity.
Qed.

(** Alice, greeted, says no three times in one pass; no pause is set. *)
Lemma inbox_pass_never_pauses_witness :
  exists w' r,
    process_inbox Fixtures.env_sqlite true
      [ {| msg_username := Fixtures.alice; msg_message := lit "kerak emas" |};
        {| msg_username := Fixtures.alice; msg_message := lit "qiziq emas" |};
        {| msg_username := Fixtures.alice; msg_message := lit "spam" |} ]
      Fixtures.w_greeted = (w', r) /\
    option_map paused_until (bot_state (store w')) = Some None.
Proof.
  destruct (process_inbox Fixtures.env_sqlite true
              [ {| msg_username := Fixtures.alice;
                   msg_message := lit "kerak emas" |};
                {| msg_username := Fixtures.alice;
                   msg_message := lit "qiziq emas" |};
                {| msg_username := Fixtures.alice;
                   msg_message := lit "spam" |} ]
              Fixtures.w_greeted) as [w' r] eqn:Hrun.
  exists w', r. split; [reflexivity|].
  destruct (inbox_pass_never_pauses _ _ _ _ _ _ w_greeted_settled Hrun)
    as (_ & Hp & _).
  rewrite Hp. reflexivity.
Defined.

End SettledProps.
